(** * The conversation workflow of the FAQ bot (src/graph/workflow.ts, state.ts)

    A shallow embedding of the LangGraph workflow built by [createWorkflow]:
    the channel reducers of [GraphState], the five nodes, the two routing
    functions and one run of the graph, together with the pieces of the
    JavaScript runtime the nodes lean on (string search, regular
    expressions, [JSON.parse], numeric coercion, [Math.min]/[Math.max]).

    Further parts embed the plain two-node variant of the workflow, the
    delivery of answers to Telegram (src/telegram/routes.ts and the routes of
    the platform deployment), the text handler of the Telegraf bot, and the
    indexing side: scraper, chunker, vector store and the indexing script. *)

From Stdlib Require Import String Ascii List NArith ZArith QArith Bool Lia.
From Stdlib Require Import DecimalString Qround.
Import ListNotations.

Close Scope Q_scope.
Local Open Scope list_scope.

(* ================================================================== *)
(** * JavaScript strings *)
(* ================================================================== *)

(** A JavaScript string is a finite sequence of UTF-16 code units. *)
Definition jsstring : Type := list N.

(** The code units of an ASCII literal. *)
Definition js (s : string) : jsstring :=
  map N_of_ascii (list_ascii_of_string s).

Definition dquote : jsstring := [34%N].
Definition nl : jsstring := [10%N].

(** [quoted s] is [s] between two double quote characters. *)
Definition quoted (s : jsstring) : jsstring := dquote ++ s ++ dquote.

Fixpoint str_eqb (a b : jsstring) : bool :=
  match a, b with
  | [], [] => true
  | x :: a', y :: b' => N.eqb x y && str_eqb a' b'
  | _, _ => false
  end.

(** [String.prototype.startsWith] at position 0. *)
Fixpoint starts_with (p s : jsstring) : bool :=
  match p, s with
  | [], _ => true
  | x :: p', y :: s' => N.eqb x y && starts_with p' s'
  | _ :: _, [] => false
  end.

(** [s.includes(p)]. *)
Fixpoint includes (s p : jsstring) : bool :=
  starts_with p s ||
  match s with
  | [] => false
  | _ :: s' => includes s' p
  end.

(** Truthiness of a string: only the empty string is falsy. *)
Definition truthy (s : jsstring) : bool :=
  match s with [] => false | _ :: _ => true end.

(** [a || b] on strings. *)
Definition or_else (a b : jsstring) : jsstring :=
  if truthy a then a else b.

Definition between (lo hi c : N) : bool := (lo <=? c)%N && (c <=? hi)%N.

(** WhiteSpace and LineTerminator code units: the class [\s] of regular
    expressions and the characters removed by [trim]. *)
Definition is_space (c : N) : bool :=
  between 9 13 c || N.eqb c 32 || N.eqb c 160 || N.eqb c 5760 ||
  between 8192 8202 c || N.eqb c 8232 || N.eqb c 8233 || N.eqb c 8239 ||
  N.eqb c 8287 || N.eqb c 12288 || N.eqb c 65279.

Fixpoint trim_start (s : jsstring) : jsstring :=
  match s with
  | c :: s' => if is_space c then trim_start s' else s
  | [] => []
  end.

Definition trim (s : jsstring) : jsstring :=
  rev (trim_start (rev (trim_start s))).

Definition is_digit (c : N) : bool := between 48 57 c.
Definition is_lower (c : N) : bool := between 97 122 c.
Definition is_upper (c : N) : bool := between 65 90 c.
Definition is_alpha (c : N) : bool := is_lower c || is_upper c.

(** [join sep parts] is [parts.join(sep)]. *)
Fixpoint join (sep : jsstring) (parts : list jsstring) : jsstring :=
  match parts with
  | [] => []
  | [p] => p
  | p :: rest => p ++ sep ++ join sep rest
  end.

(* ================================================================== *)
(** * JavaScript numbers *)
(* ================================================================== *)

(** The Number type: the finite values, the two infinities and NaN.  Finite
    values are kept as exact rationals; the rounding of a literal to the
    nearest double and the sign of zero are not represented. *)
Inductive number : Type :=
| NaN
| NegInf
| Fin (q : Q)
| PosInf.

(** [a <= b] as JavaScript evaluates it: false as soon as one side is NaN. *)
Definition num_leb (a b : number) : bool :=
  match a, b with
  | NaN, _ | _, NaN => false
  | NegInf, _ => true
  | _, PosInf => true
  | Fin x, Fin y => Qle_bool x y
  | _, _ => false
  end.

(** [a >= b]. *)
Definition num_geb (a b : number) : bool := num_leb b a.

(** [Math.max(a, b)]: NaN when either argument is NaN. *)
Definition Math_max (a b : number) : number :=
  match a, b with
  | NaN, _ | _, NaN => NaN
  | _, _ => if num_leb a b then b else a
  end.

(** [Math.min(a, b)]: NaN when either argument is NaN. *)
Definition Math_min (a b : number) : number :=
  match a, b with
  | NaN, _ | _, NaN => NaN
  | _, _ => if num_leb a b then a else b
  end.

(** [x ?? d]: the left operand unless it is [null] or [undefined]. *)
Definition nullish {A : Type} (x : option A) (d : A) : A :=
  match x with Some v => v | None => d end.

Definition num_of_Z (z : Z) : number := Fin (inject_Z z).

(** ** Numeric literals *)

Definition digit_val (c : N) : Z := Z.of_N c - 48.

Fixpoint take_while (p : N -> bool) (s : jsstring) : jsstring * jsstring :=
  match s with
  | c :: s' =>
      if p c then let (a, b) := take_while p s' in (c :: a, b) else ([], s)
  | [] => ([], [])
  end.

(** Value of a digit string in a base, most significant digit first. *)
Definition digits_val (base : Z) (val : N -> Z) (ds : jsstring) : Z :=
  fold_left (fun acc c => acc * base + val c)%Z ds 0%Z.

(** [m * 10^e] as a reduced fraction. *)
Definition scale10 (m e : Z) : Q :=
  if (0 <=? e)%Z then inject_Z (m * 10 ^ e)
  else Qred (Qmake m (Pos.pow 10 (Z.to_pos (- e)))).

(** An optional exponent part [e], [e+] or [e-] followed by digits.  Returns
    the exponent and the remaining text; text that is not an exponent part is
    left untouched with exponent 0. *)
Definition exponent_part (s : jsstring) : Z * jsstring :=
  match s with
  | c :: s1 =>
      if N.eqb c 101 || N.eqb c 69 then
        let '(neg, s2) :=
          match s1 with
          | d :: s2 =>
              if N.eqb d 45 then (true, s2)
              else if N.eqb d 43 then (false, s2)
              else (false, s1)
          | [] => (false, s1)
          end in
        let (ds, rest) := take_while is_digit s2 in
        match ds with
        | [] => (0%Z, s)
        | _ => let e := digits_val 10 digit_val ds in
               ((if neg then - e else e)%Z, rest)
        end
      else (0%Z, s)
  | [] => (0%Z, s)
  end.

(** The value of integer digits, fraction digits and an exponent. *)
Definition decimal_value (ip fp : jsstring) (e : Z) : Q :=
  scale10 (digits_val 10 digit_val (ip ++ fp)) (e - Z.of_nat (List.length fp)).

Definition hex_val (c : N) : Z :=
  if is_digit c then Z.of_N c - 48
  else if between 97 102 c then Z.of_N c - 87
  else Z.of_N c - 55.

Definition is_hex (c : N) : bool :=
  is_digit c || between 97 102 c || between 65 70 c.

(** StrUnsignedDecimalLiteral, anchored at both ends. *)
Definition unsigned_decimal (s : jsstring) : option number :=
  if str_eqb s (js "Infinity") then Some PosInf
  else
    let (ip, s1) := take_while is_digit s in
    let '(fp, s2) :=
      match s1 with
      | c :: s1' =>
          if N.eqb c 46 then
            let (fp, s2) := take_while is_digit s1' in (fp, s2)
          else ([], s1)
      | [] => ([], s1)
      end in
    match ip, fp with
    | [], [] => None
    | _, _ =>
        let (e, s3) := exponent_part s2 in
        match s3 with
        | [] => Some (Fin (decimal_value ip fp e))
        | _ :: _ => None
        end
    end.

Definition neg_number (x : number) : number :=
  match x with
  | NaN => NaN
  | NegInf => PosInf
  | PosInf => NegInf
  | Fin q => Fin (Qred (- q))
  end.

(** A binary, octal or hexadecimal integer literal after its two character
    prefix. *)
Definition radix_literal (base : Z) (ok : N -> bool) (ds : jsstring)
  : option number :=
  match ds with
  | [] => None
  | _ => if forallb ok ds then Some (num_of_Z (digits_val base hex_val ds))
         else None
  end.

(** StringToNumber: the numeric value of a string, NaN when the trimmed text
    is not a StringNumericLiteral. *)
Definition StringToNumber (s : jsstring) : number :=
  let t := trim s in
  match t with
  | [] => Fin 0
  | c :: t' =>
      let nondecimal :=
        match t with
        | z :: p :: ds =>
            if N.eqb z 48 then
              if N.eqb p 120 || N.eqb p 88 then radix_literal 16 is_hex ds
              else if N.eqb p 111 || N.eqb p 79 then
                radix_literal 8 (between 48 55) ds
              else if N.eqb p 98 || N.eqb p 66 then
                radix_literal 2 (between 48 49) ds
              else None
            else None
        | _ => None
        end in
      match nondecimal with
      | Some n => n
      | None =>
          let r :=
            if N.eqb c 45 then option_map neg_number (unsigned_decimal t')
            else if N.eqb c 43 then unsigned_decimal t'
            else unsigned_decimal t in
          nullish r NaN
      end
  end.

(* ================================================================== *)
(** * Regular expressions *)
(* ================================================================== *)

(** The fragment of the regular expression language used by the workflow,
    with the backtracking semantics of [String.prototype.match] for a
    pattern without the global flag: the leftmost start position wins, an
    alternation tries its branches in order, a greedy quantifier tries the
    longest repetition first and a lazy one the shortest. *)
Module Regex.

Inductive regex : Type :=
| Lit (ignore_case : bool) (s : jsstring)        (* a run of pattern characters *)
| Rep (greedy : bool) (min : nat) (cls : N -> bool) (* cls{min,} or cls{min,}? *)
| Alt (r1 r2 : regex)                            (* r1|r2 *)
| Cat (r1 r2 : regex)                            (* r1r2 *)
| Group (r : regex)                              (* (r), capturing *)
| Eos.                                           (* $ without the m flag *)

(** Canonicalize of the ignore-case comparison.  Only ASCII pattern
    characters occur in the workflow, and a code unit above 127 never
    canonicalizes to an ASCII one, so folding the ASCII letters is exact. *)
Definition canon (c : N) : N := if is_lower c then (c - 32)%N else c.

Definition char_eqb (ignore_case : bool) (p c : N) : bool :=
  if ignore_case then N.eqb (canon p) (canon c) else N.eqb p c.

Fixpoint strip_lit (ic : bool) (p s : jsstring) : option jsstring :=
  match p, s with
  | [], _ => Some s
  | x :: p', y :: s' => if char_eqb ic x y then strip_lit ic p' s' else None
  | _ :: _, [] => None
  end.

Section Matcher.
Context {R : Type}.

(** Greedy [cls{n,}]: consume as long as possible, give back one character
    at a time while the continuation fails. *)
Fixpoint rep_greedy (cls : N -> bool) (n : nat) (s : jsstring)
         (k : jsstring -> option R) : option R :=
  let stop := match n with O => k s | S _ => None end in
  match s with
  | c :: s' =>
      if cls c then
        match rep_greedy cls (pred n) s' k with
        | Some r => Some r
        | None => stop
        end
      else stop
  | [] => stop
  end.

(** Lazy [cls{n,}?]: once [n] characters are taken, try the continuation
    before taking another one. *)
Fixpoint rep_lazy (cls : N -> bool) (n : nat) (s : jsstring)
         (k : jsstring -> option R) : option R :=
  let more :=
    match s with
    | c :: s' => if cls c then rep_lazy cls (pred n) s' k else None
    | [] => None
    end in
  match n with
  | O => match k s with Some r => Some r | None => more end
  | S _ => more
  end.

(** [exec r s caps k]: match [r] at the head of [s], then continue with
    [k] on the rest of the input and the captures made so far. *)
Fixpoint exec (r : regex) (s : jsstring) (caps : list jsstring)
         (k : jsstring -> list jsstring -> option R) : option R :=
  match r with
  | Lit ic p =>
      match strip_lit ic p s with
      | Some rest => k rest caps
      | None => None
      end
  | Rep greedy n cls =>
      (if greedy then rep_greedy else rep_lazy) cls n s
        (fun rest => k rest caps)
  | Alt r1 r2 =>
      match exec r1 s caps k with
      | Some x => Some x
      | None => exec r2 s caps k
      end
  | Cat r1 r2 => exec r1 s caps (fun rest caps' => exec r2 rest caps' k)
  | Group r1 =>
      exec r1 s caps
        (fun rest caps' =>
           k rest (caps' ++ [firstn (List.length s - List.length rest) s]))
  | Eos =>
      match s with
      | [] => k s caps
      | _ :: _ => None
      end
  end.
End Matcher.

(** The result array of a successful match: element 0 is the matched text,
    the following elements are the capture groups. *)
Definition match_at (r : regex) (s : jsstring) : option (list jsstring) :=
  exec r s []
       (fun rest caps =>
          Some (firstn (List.length s - List.length rest) s :: caps)).

(** [s.match(r)]: the match at the leftmost position that has one, [None]
    for [null]. *)
Fixpoint str_match (r : regex) (s : jsstring) : option (list jsstring) :=
  match match_at r s with
  | Some m => Some m
  | None =>
      match s with
      | [] => None
      | _ :: s' => str_match r s'
      end
  end.

Definition any_char (_ : N) : bool := true.

(** Concatenation and alternation of several pieces. *)
Fixpoint seq (rs : list regex) : regex :=
  match rs with
  | [] => Lit false []
  | [r] => r
  | r :: rs' => Cat r (seq rs')
  end.

Fixpoint alt (rs : list regex) : regex :=
  match rs with
  | [] => Lit false []
  | [r] => r
  | r :: rs' => Alt r (alt rs')
  end.

End Regex.

Import Regex.

(* ================================================================== *)
(** * JSON.parse, property access and ToNumber *)
(* ================================================================== *)

Module Json.

(** The values [JSON.parse] can return. *)
#[warnings="-register-all"]
Inductive json : Type :=
| JNull
| JBool (b : bool)
| JNum (n : number)
| JStr (s : jsstring)
| JArr (items : list json)
| JObj (members : list (jsstring * json)).

(** JSON white space: tab, line feed, carriage return, space. *)
Definition is_ws (c : N) : bool :=
  N.eqb c 9 || N.eqb c 10 || N.eqb c 13 || N.eqb c 32.

Fixpoint skip_ws (s : jsstring) : jsstring :=
  match s with
  | c :: s' => if is_ws c then skip_ws s' else s
  | [] => []
  end.

(** The body of a string literal, after the opening quote. *)
Fixpoint parse_string (s acc : jsstring) : option (jsstring * jsstring) :=
  match s with
  | [] => None
  | c :: s1 =>
      if N.eqb c 34 then Some (rev acc, s1)
      else if N.eqb c 92 then
        match s1 with
        | [] => None
        | e :: s2 =>
            if N.eqb e 34 || N.eqb e 92 || N.eqb e 47 then
              parse_string s2 (e :: acc)
            else if N.eqb e 98 then parse_string s2 (8%N :: acc)
            else if N.eqb e 102 then parse_string s2 (12%N :: acc)
            else if N.eqb e 110 then parse_string s2 (10%N :: acc)
            else if N.eqb e 114 then parse_string s2 (13%N :: acc)
            else if N.eqb e 116 then parse_string s2 (9%N :: acc)
            else if N.eqb e 117 then
              match s2 with
              | h1 :: h2 :: h3 :: h4 :: s3 =>
                  if forallb is_hex [h1; h2; h3; h4] then
                    parse_string s3
                      (Z.to_N (digits_val 16 hex_val [h1; h2; h3; h4]) :: acc)
                  else None
              | _ => None
              end
            else None
        end
      else if (c <? 32)%N then None
      else parse_string s1 (c :: acc)
  end.

(** The part of a number literal after the sign: int frac? exp?, where int
    has no leading zero. *)
Definition parse_unsigned (neg : bool) (s0 : jsstring)
  : option (number * jsstring) :=
  let (ip, s1) := take_while is_digit s0 in
  let int_ok :=
    match ip with
    | [] => false
    | [_] => true
    | d :: _ => negb (N.eqb d 48)
    end in
  if int_ok then
    let frac :=
      match s1 with
      | c :: s1' =>
          if N.eqb c 46 then
            let (fp, s2) := take_while is_digit s1' in
            match fp with
            | [] => None
            | _ => Some (fp, s2)
            end
          else Some ([], s1)
      | [] => Some ([], s1)
      end in
    match frac with
    | None => None
    | Some (fp, s2) =>
        let (e, s3) := exponent_part s2 in
        let v := Fin (decimal_value ip fp e) in
        Some (if neg then neg_number v else v, s3)
    end
  else None.

(** A number literal: an optional minus sign, then the unsigned part. *)
Definition parse_number (s : jsstring) : option (number * jsstring) :=
  match s with
  | c :: s' => if N.eqb c 45 then parse_unsigned true s'
               else parse_unsigned false s
  | [] => parse_unsigned false s
  end.

Definition keyword (w : string) (v : json) (s : jsstring)
  : option (json * jsstring) :=
  match strip_lit false (js w) s with
  | Some rest => Some (v, rest)
  | None => None
  end.

(** Recursive descent over the JSON grammar.  [parse_elements] and
    [parse_members] run after the opening bracket, with the items read so
    far in reverse order. *)
Fixpoint parse_value (fuel : nat) (s : jsstring) : option (json * jsstring) :=
  match fuel with
  | O => None
  | S f =>
      match skip_ws s with
      | [] => None
      | c :: s1 =>
          if N.eqb c 123 then
            match skip_ws s1 with
            | d :: s2 =>
                if N.eqb d 125 then Some (JObj [], s2)
                else parse_members f s1 []
            | [] => None
            end
          else if N.eqb c 91 then
            match skip_ws s1 with
            | d :: s2 =>
                if N.eqb d 93 then Some (JArr [], s2)
                else parse_elements f s1 []
            | [] => None
            end
          else if N.eqb c 34 then
            match parse_string s1 [] with
            | Some (str, rest) => Some (JStr str, rest)
            | None => None
            end
          else if N.eqb c 116 then keyword "true" (JBool true) (c :: s1)
          else if N.eqb c 102 then keyword "false" (JBool false) (c :: s1)
          else if N.eqb c 110 then keyword "null" JNull (c :: s1)
          else
            match parse_number (c :: s1) with
            | Some (n, rest) => Some (JNum n, rest)
            | None => None
            end
      end
  end

with parse_elements (fuel : nat) (s : jsstring) (acc : list json)
  : option (json * jsstring) :=
  match fuel with
  | O => None
  | S f =>
      match parse_value f s with
      | None => None
      | Some (v, rest) =>
          match skip_ws rest with
          | c :: rest' =>
              if N.eqb c 44 then parse_elements f rest' (v :: acc)
              else if N.eqb c 93 then Some (JArr (rev (v :: acc)), rest')
              else None
          | [] => None
          end
      end
  end

with parse_members (fuel : nat) (s : jsstring) (acc : list (jsstring * json))
  : option (json * jsstring) :=
  match fuel with
  | O => None
  | S f =>
      match skip_ws s with
      | q :: s1 =>
          if N.eqb q 34 then
            match parse_string s1 [] with
            | None => None
            | Some (key, s2) =>
                match skip_ws s2 with
                | col :: s3 =>
                    if N.eqb col 58 then
                      match parse_value f s3 with
                      | None => None
                      | Some (v, rest) =>
                          match skip_ws rest with
                          | c :: rest' =>
                              if N.eqb c 44 then
                                parse_members f rest' ((key, v) :: acc)
                              else if N.eqb c 125 then
                                Some (JObj (rev ((key, v) :: acc)), rest')
                              else None
                          | [] => None
                          end
                      end
                    else None
                | [] => None
                end
            end
          else None
      | [] => None
      end
  end.

(** [JSON.parse(text)]; [None] stands for the SyntaxError it throws.  The
    recursion budget is twice the length of the text: a nested value costs
    two units and a following item one, each after at least one character
    of the text has been consumed, so that a larger budget gives the same
    result ([JSON_parse_budget] below). *)
Definition JSON_parse (text : jsstring) : option json :=
  match parse_value (2 * List.length text + 2) text with
  | Some (v, rest) =>
      match skip_ws rest with
      | [] => Some v
      | _ :: _ => None
      end
  | None => None
  end.

(** [v.key] on a parsed value that is an object: the member written last
    under that name, [None] ([undefined]) when there is none. *)
Definition get_property (v : json) (key : jsstring) : option json :=
  match v with
  | JObj members =>
      match find (fun kv => str_eqb (fst kv) key) (rev members) with
      | Some kv => Some (snd kv)
      | None => None
      end
  | _ => None
  end.

(** ToNumber on a parsed value.  An array goes through its [join(",")]
    text: the empty array gives 0, a single element gives the number of its
    own text ([null] prints as the empty text, a number or a nested array
    prints as a text that reads back as itself), two or more elements give a
    text with a comma, which is not a numeric literal. *)
Fixpoint ToNumber_json (v : json) : number :=
  match v with
  | JNull => Fin 0
  | JBool b => if b then Fin 1 else Fin 0
  | JNum n => n
  | JStr s => StringToNumber s
  | JArr items =>
      match items with
      | [] => Fin 0
      | [x] =>
          match x with
          | JNull => Fin 0
          | JBool _ => NaN
          | JObj _ => NaN
          | _ => ToNumber_json x
          end
      | _ :: _ :: _ => NaN
      end
  | JObj _ => NaN
  end.

(** ToNumber on the result of a property access. *)
Definition ToNumber (v : option json) : number :=
  match v with
  | None => NaN
  | Some j => ToNumber_json j
  end.

End Json.

Import Json.

(* ================================================================== *)
(** * The graph state (state.ts) *)
(* ================================================================== *)

(** [BaseMessage._getType()]. *)
Inductive MessageType : Type := human | ai | system | tool.

Definition type_name (t : MessageType) : jsstring :=
  match t with
  | human => js "human"
  | ai => js "ai"
  | system => js "system"
  | tool => js "tool"
  end.

(** A message; its content is a plain string, as every message built by the
    transport ([HumanMessage(text)]) and by the generator
    ([AIMessage(answer)]) has. *)
Record BaseMessage : Type := {
  getType : MessageType;
  content : jsstring
}.

Definition HumanMessage (text : jsstring) : BaseMessage :=
  {| getType := human; content := text |}.
Definition AIMessage (text : jsstring) : BaseMessage :=
  {| getType := ai; content := text |}.

Record Metadata : Type := {
  title : option jsstring;
  url : option jsstring;
  source : option jsstring
}.

Record Document : Type := {
  pageContent : jsstring;
  metadata : Metadata
}.

Record ContactInfo : Type := {
  name : option jsstring;
  email : option jsstring;
  company : option jsstring;
  collected : bool
}.

Record GraphState : Type := {
  messages : list BaseMessage;
  retrievedDocs : list Document;
  answer : jsstring;
  errors : list jsstring;
  interestScore : number;
  contactInfo : ContactInfo;
  collectingContact : bool;
  appendMessage : jsstring
}.

(** The [default] of every channel. *)
Definition default_state : GraphState := {|
  messages := [];
  retrievedDocs := [];
  answer := [];
  errors := [];
  interestScore := Fin 0;
  contactInfo :=
    {| name := None; email := None; company := None; collected := false |};
  collectingContact := false;
  appendMessage := []
|}.

(** [Partial<GraphStateType>]: the object a node returns.  A key that is
    absent from the object is [None]. *)
Record Update : Type := {
  upd_messages : option (list BaseMessage);
  upd_retrievedDocs : option (list Document);
  upd_answer : option jsstring;
  upd_errors : option (list jsstring);
  upd_interestScore : option number;
  upd_contactInfo : option ContactInfo;
  upd_collectingContact : option bool;
  upd_appendMessage : option jsstring
}.

(** The empty object [{}]. *)
Definition no_update : Update := {|
  upd_messages := None;
  upd_retrievedDocs := None;
  upd_answer := None;
  upd_errors := None;
  upd_interestScore := None;
  upd_contactInfo := None;
  upd_collectingContact := None;
  upd_appendMessage := None
|}.

(** ** Reducers *)

Module Reducer.

(** [(current, update) => current.concat(update)] *)
Definition concat {A : Type} (current update : list A) : list A :=
  current ++ update.

(** [(_, update) => update] *)
Definition replace {A : Type} (_ update : A) : A := update.

(** [(current, update) => Math.max(current ?? 0, update ?? current ?? 0)] *)
Definition interestScore (current update : option number) : number :=
  Math_max (nullish current (Fin 0))
           (nullish update (nullish current (Fin 0))).

End Reducer.

(** A channel is rewritten by its reducer when the update has its key and
    keeps its value otherwise. *)
Definition channel {A B : Type} (reducer : A -> B -> A) (current : A)
           (update : option B) : A :=
  match update with
  | Some u => reducer current u
  | None => current
  end.

Definition apply_update (s : GraphState) (u : Update) : GraphState := {|
  messages := channel Reducer.concat (messages s) (upd_messages u);
  retrievedDocs := channel Reducer.replace (retrievedDocs s) (upd_retrievedDocs u);
  answer := channel Reducer.replace (answer s) (upd_answer u);
  errors := channel Reducer.concat (errors s) (upd_errors u);
  interestScore :=
    channel (fun c x => Reducer.interestScore (Some c) (Some x))
            (interestScore s) (upd_interestScore u);
  contactInfo := channel Reducer.replace (contactInfo s) (upd_contactInfo u);
  collectingContact :=
    channel Reducer.replace (collectingContact s) (upd_collectingContact u);
  appendMessage := channel Reducer.replace (appendMessage s) (upd_appendMessage u)
|}.

(* ================================================================== *)
(** * Effects: external calls, exceptions and the trace of a run *)
(* ================================================================== *)

(** A call returns or throws; a thrown value is an [Error] and is known by
    its [message]. *)
Inductive outcome (A : Type) : Type :=
| Returned (a : A)
| Thrown (message : jsstring).
Arguments Returned {A} a.
Arguments Thrown {A} message.

(** What [llm.invoke] is given: a prompt text or a list of chat messages. *)
Inductive LLMInput : Type :=
| PromptText (text : jsstring)
| ChatMessages (msgs : list BaseMessage).

(** The body posted to the Slack webhook, by the values interpolated into
    its blocks: the four fields of the section block and the time of the
    context block. *)
Record SlackMessage : Type := {
  field_name : jsstring;
  field_email : option jsstring;
  field_company : jsstring;
  field_interestScore : number;
  captured_at : jsstring
}.

Record Response : Type := {
  ok : bool;
  statusText : jsstring
}.

(** The calls that leave the process, in the order they are made. *)
Inductive event : Type :=
| RetrieverInvoke (query : jsstring)
| LlmInvoke (input : LLMInput)
| FetchPost (url : jsstring) (body : SlackMessage).

(** A computation extends the trace and returns or throws. *)
Definition M (A : Type) : Type := list event -> outcome A * list event.

Definition ret {A : Type} (a : A) : M A := fun t => (Returned a, t).

Definition throw {A : Type} (message : jsstring) : M A :=
  fun t => (Thrown message, t).

Definition bind {A B : Type} (m : M A) (k : A -> M B) : M B :=
  fun t =>
    match m t with
    | (Returned a, t') => k a t'
    | (Thrown e, t') => (Thrown e, t')
    end.

(** [try { body } catch (error) { handler(error.message) }] *)
Definition try_catch {A : Type} (body : M A) (handler : jsstring -> M A)
  : M A :=
  fun t =>
    match body t with
    | (Returned a, t') => (Returned a, t')
    | (Thrown e, t') => handler e t'
    end.

(** An external call: recorded in the trace, then its outcome. *)
Definition call {A : Type} (e : event) (result : outcome A) : M A :=
  fun t => (result, t ++ [e]).

Declare Scope js_scope.
Delimit Scope js_scope with jsm.
Notation "x <- m ;; k" := (bind m (fun x => k))
  (at level 61, m at next level, right associativity) : js_scope.
Local Open Scope js_scope.

(** The value and the external calls of a computation started on an empty
    trace. *)
Definition result {A : Type} (m : M A) : outcome A := fst (m []).
Definition events {A : Type} (m : M A) : list event := snd (m []).

Definition is_post (e : event) : bool :=
  match e with FetchPost _ _ => true | _ => false end.

(** Number of POSTs to the webhook in a trace. *)
Definition posts (t : list event) : nat := List.length (filter is_post t).

(** The number is in the closed interval from 0 to 10. *)
Definition in_0_10 (x : number) : Prop :=
  exists q : Q, x = Fin q /\ (0 <= q)%Q /\ (q <= 10)%Q.

(** A computation only appends to the trace it is given. *)
Definition appends {A : Type} (m : M A) : Prop :=
  forall t, m t = (result m, t ++ events m).

(* ================================================================== *)
(** * The workflow (workflow.ts) *)
(* ================================================================== *)

(** The dependencies captured by [createWorkflow], and the part of the host
    the Slack notifier reads: [process.env], [fetch] and the clock. *)
Record VectorStoreRetriever : Type := {
  retriever_invoke : jsstring -> outcome (list Document)
}.

Record ChatOpenAI : Type := {
  llm_invoke : LLMInput -> outcome jsstring
}.

Record Host : Type := {
  SLACK_WEBHOOK_URL : option jsstring;
  fetch : jsstring -> SlackMessage -> outcome Response;
  toLocaleString : jsstring
}.

(** [lines], the text of a template literal written line by line. *)
Definition lines (ls : list jsstring) : jsstring := join nl ls.

(** The message of the TypeError raised by [messages[length - 1].content] on
    an empty list. *)
Definition TypeError_content : jsstring :=
  js "Cannot read properties of undefined (reading 'content')".

(** [a[a.length - 1].content.toString()] *)
Definition last_content (msgs : list BaseMessage) : M jsstring :=
  match rev msgs with
  | m :: _ => ret (content m)
  | [] => throw TypeError_content
  end.

(** [a.slice(-n)] *)
Definition slice_last {A : Type} (n : nat) (a : list A) : list A :=
  skipn (List.length a - n) a.

(** [a.slice(0, -1)] *)
Definition slice_but_last {A : Type} (a : list A) : list A :=
  firstn (List.length a - 1) a.

(** [o || d] for an optional string. *)
Definition opt_or (o : option jsstring) (d : jsstring) : jsstring :=
  match o with
  | Some s => or_else s d
  | None => d
  end.

(** ** The prompts *)

Definition evaluationPrompt (conversationText : jsstring) : jsstring :=
  lines [
    js "You are a lead qualification expert for Botpress, a chatbot platform.";
    [];
    js "Analyze this conversation and score the user's interest level from 0-10:";
    [];
    js "Conversation:";
    conversationText;
    [];
    js "Scoring criteria:";
    js "- 0-3: Just browsing, casual questions, no clear use case";
    js "- 4-6: Showing some interest, asking specific questions, has a potential use case";
    js "- 7-8: Strong interest, asking detailed implementation questions, discussing business needs";
    js "- 9-10: Very high interest, saying they want to sign up, asking about pricing/enterprise features, ready to buy";
    [];
    js "Key signals for high scores (9-10):";
    js "- User says " ++ quoted (js "I want to sign up") ++ js " or "
      ++ quoted (js "definitely like to sign up");
    js "- User asks " ++ quoted (js "What would the pricing be?") ++ js " or "
      ++ quoted (js "How much does it cost?");
    js "- User discusses their business needs and company scale";
    js "- User asks about implementation timelines";
    [];
    js "Respond with ONLY a JSON object in this exact format:";
    js "{" ++ quoted (js "score") ++ js ": <number 0-10>, "
      ++ quoted (js "reason") ++ js ": " ++ quoted (js "<brief explanation>")
      ++ js "}"
  ].

Definition systemPrompt (context : jsstring) : jsstring :=
  lines [
    js "You are a helpful FAQ assistant for Botpress, a chatbot building platform.";
    [];
    js "CRITICAL RULES:";
    js "- ONLY answer questions using the provided documentation context below";
    js "- If the context doesn't contain the answer, you MUST say: "
      ++ quoted (js "I don't have that information in my documentation. Please check the official Botpress docs at https://botpress.com/docs");
    js "- NEVER make up information or use general knowledge";
    js "- NEVER provide installation instructions, localhost URLs, or outdated information unless it's in the context";
    [];
    js "Your role:";
    js "- Answer questions strictly based on the provided documentation context";
    js "- Handle greetings naturally and offer to help with Botpress questions";
    js "- For casual chat, respond politely and guide back to Botpress topics";
    js "- Provide specific examples from the docs when available";
    js "- Keep responses concise but helpful (under 2000 characters)";
    js "- Use markdown formatting for readability";
    js "- For follow-up questions, reference previous parts of the conversation";
    [];
    js "Context from Botpress documentation:";
    context;
    [];
    js "Guidelines:";
    js "- Be accurate and cite sources when appropriate";
    js "- If the question is off-topic, politely redirect to Botpress-related topics";
    js "- Stay focused on helping with Botpress"
  ].

(** The messages [ChatPromptTemplate.fromMessages] formats from
    [{context, chat_history, query}]. *)
Definition format_prompt (context : jsstring) (chat_history : list BaseMessage)
           (query : jsstring) : list BaseMessage :=
  {| getType := system; content := systemPrompt context |}
    :: chat_history ++ [HumanMessage query].

(** ** The patterns *)

Definition one_of (set : string) (c : N) : bool :=
  existsb (N.eqb c) (js set).

(** [/\{[\s\S]*?"score"[\s\S]*?\}/] *)
Definition scoreRegex : regex :=
  seq [Lit false (js "{"); Rep false 0 any_char;
       Lit false (quoted (js "score")); Rep false 0 any_char;
       Lit false (js "}")].

(** [/[A-Za-z0-9._%+-]+@[A-Za-z0-9.-]+\.[A-Za-z]{2,}/i] *)
Definition emailRegex : regex :=
  seq [Rep true 1 (fun c => is_alpha c || is_digit c || one_of "._%+-" c);
       Lit true (js "@");
       Rep true 1 (fun c => is_alpha c || is_digit c || one_of ".-" c);
       Lit true (js ".");
       Rep true 2 is_alpha].

(** [/(?:my name is|i'm|i am|name[:\s]+)([a-z\s]+)/i] *)
Definition nameRegex : regex :=
  seq [alt [Lit true (js "my name is"); Lit true (js "i'm");
            Lit true (js "i am");
            Cat (Lit true (js "name"))
                (Rep true 1 (fun c => one_of ":" c || is_space c))];
       Group (Rep true 1 (fun c => is_alpha c || is_space c))].

(** [/(?:from|at|work at|company|for)[:\s]+([a-z0-9\s&.,'-]+?)(?:\s+and|\s+my|\s*$)/i] *)
Definition companyRegex : regex :=
  seq [alt [Lit true (js "from"); Lit true (js "at"); Lit true (js "work at");
            Lit true (js "company"); Lit true (js "for")];
       Rep true 1 (fun c => one_of ":" c || is_space c);
       Group (Rep false 1
                (fun c => is_alpha c || is_digit c || is_space c
                          || one_of "&.,'-" c));
       alt [Cat (Rep true 1 is_space) (Lit true (js "and"));
            Cat (Rep true 1 is_space) (Lit true (js "my"));
            Cat (Rep true 0 is_space) Eos]].

(** [m[1].trim()] of a match result. *)
Definition group1_trim (m : list jsstring) : jsstring := trim (nth 1 m []).

(** ** Fixed texts *)

Definition thankYouMessage (name : option jsstring) : jsstring :=
  nl ++ nl ++ js "---" ++ nl ++ nl ++ js "Thank you"
    ++ (if truthy (nullish name []) then js " " ++ nullish name [] else [])
    ++ js "! I've noted your contact information. Our team will reach out to you shortly to discuss how Botpress can help with your chatbot needs.".

Definition requestMessage (msgs : list BaseMessage) : jsstring :=
  nl ++ nl ++ js "---" ++ nl ++ nl
    ++ js "I can see you're interested in Botpress! I'd love to connect you with our team to discuss your specific needs. Could you share your email address"
    ++ (if existsb (fun m => includes (content m) (js "company")
                             || includes (content m) (js "business")) msgs
        then js " and company name" else [])
    ++ js "?".

Definition errorAnswer : jsstring :=
  js "I apologize, but I encountered an error while processing your request. Please try again.".

Definition noContext : jsstring :=
  js "No relevant documentation found for this query.".

(** The object [{ messages: input }] handed to [invoke]. *)
Definition input_update (input : list BaseMessage) : Update := {|
  upd_messages := Some input;
  upd_retrievedDocs := None;
  upd_answer := None;
  upd_errors := None;
  upd_interestScore := None;
  upd_contactInfo := None;
  upd_collectingContact := None;
  upd_appendMessage := None
|}.

Section createWorkflow.

Variable retriever : VectorStoreRetriever.
Variable llm : ChatOpenAI.
Variable host : Host.

(** [retriever.invoke(query)] *)
Definition invoke_retriever (query : jsstring) : M (list Document) :=
  call (RetrieverInvoke query) (retriever_invoke retriever query).

(** [llm.invoke(input)], reduced to the text of the reply. *)
Definition invoke_llm (input : LLMInput) : M jsstring :=
  call (LlmInvoke input) (llm_invoke llm input).

(** [fetch(url, { method: "POST", ..., body })] *)
Definition post (url : jsstring) (body : SlackMessage) : M Response :=
  call (FetchPost url body) (fetch host url body).

(** [JSON.parse] as a computation that may throw. *)
Definition parse_json (text : jsstring) : M json :=
  match JSON_parse text with
  | Some v => ret v
  | None => throw (js "Unexpected token in JSON")
  end.

(** [{ retrievedDocs, errors }] and [{ retrievedDocs }] *)
Definition docs_update (docs : list Document) (errs : option (list jsstring))
  : Update := {|
  upd_messages := None;
  upd_retrievedDocs := Some docs;
  upd_answer := None;
  upd_errors := errs;
  upd_interestScore := None;
  upd_contactInfo := None;
  upd_collectingContact := None;
  upd_appendMessage := None
|}.

Definition retrieverNode (state : GraphState) : M Update :=
  try_catch
    (query <- last_content (messages state) ;;
     docs <- invoke_retriever query ;;
     if Nat.eqb (List.length docs) 0 then
       ret (docs_update [] (Some [js "No relevant documents found"]))
     else ret (docs_update docs None))
    (fun message =>
       ret (docs_update [] (Some [js "Retrieval failed: " ++ message]))).

(** [{ interestScore: score }] *)
Definition score_update (score : number) : Update := {|
  upd_messages := None;
  upd_retrievedDocs := None;
  upd_answer := None;
  upd_errors := None;
  upd_interestScore := Some score;
  upd_contactInfo := None;
  upd_collectingContact := None;
  upd_appendMessage := None
|}.

(** [Math.max(0, Math.min(10, result.score))] *)
Definition clamp_score (result : json) : number :=
  Math_max (Fin 0)
           (Math_min (Fin 10) (ToNumber (get_property result (js "score")))).

(** The last six messages, one [type: content] line each. *)
Definition conversationText (state : GraphState) : jsstring :=
  join nl
    (map (fun msg => type_name (getType msg) ++ js ": " ++ content msg)
         (slice_last 6 (messages state))).

Definition interestEvaluatorNode (state : GraphState) : M Update :=
  try_catch
    (if collectingContact state then ret no_update
     else if Nat.ltb (List.length (messages state)) 3 then
       ret (score_update (Fin 0))
     else
       reply <- invoke_llm
                  (PromptText (evaluationPrompt (conversationText state))) ;;
       match str_match scoreRegex reply with
       | None => ret (score_update (Fin 0))
       | Some jsonMatch =>
           result <- parse_json (nth 0 jsonMatch []) ;;
           ret (score_update (clamp_score result))
       end)
    (fun _ => ret (score_update (Fin 0))).

(** The score the evaluator returns for a reply of the model: the value of
    the [try] block after [llm.invoke], with 0 where it leaves for the
    [catch] branch. *)
Definition score_of_reply (reply : jsstring) : number :=
  match str_match scoreRegex reply with
  | None => Fin 0
  | Some jsonMatch =>
      match JSON_parse (nth 0 jsonMatch []) with
      | None => Fin 0
      | Some result => clamp_score result
      end
  end.

(** The content of the last message of type human, or the empty string. *)
Definition lastUserMessage (state : GraphState) : jsstring :=
  match find (fun msg => match getType msg with human => true | _ => false end)
             (rev (messages state)) with
  | Some msg => content msg
  | None => []
  end.

(** The updates of the contact collector: [{ contactInfo,
    collectingContact, appendMessage }] with the keys that are present. *)
Definition contact_update (info : option ContactInfo) (collecting : bool)
           (append : option jsstring) : Update := {|
  upd_messages := None;
  upd_retrievedDocs := None;
  upd_answer := None;
  upd_errors := None;
  upd_interestScore := None;
  upd_contactInfo := info;
  upd_collectingContact := Some collecting;
  upd_appendMessage := append
|}.

Definition contactCollectorNode (state : GraphState) : M Update :=
  try_catch
    (let text := lastUserMessage state in
     match str_match emailRegex text with
     | Some emailMatch =>
         let nameMatch := str_match nameRegex text in
         let companyMatch := str_match companyRegex text in
         let info := {|
           email := Some (nth 0 emailMatch []);
           name := option_map group1_trim nameMatch;
           company := option_map group1_trim companyMatch;
           collected := true
         |} in
         ret (contact_update (Some info) false
                             (Some (thankYouMessage (name info))))
     | None =>
         if negb (collectingContact state) then
           ret (contact_update None true
                               (Some (requestMessage (messages state))))
         else ret no_update
     end)
    (fun _ => ret (contact_update None false None)).

Definition slackNotifierNode (state : GraphState) : M Update :=
  try_catch
    (if negb (collected (contactInfo state)) then ret no_update
     else if negb (truthy (nullish (SLACK_WEBHOOK_URL host) [])) then
       ret no_update
     else
       let slackWebhookUrl := nullish (SLACK_WEBHOOK_URL host) [] in
       let info := contactInfo state in
       let slackMessage := {|
         field_name := opt_or (name info) (js "Not provided");
         field_email := email info;
         field_company := opt_or (company info) (js "Not provided");
         field_interestScore := interestScore state;
         captured_at := toLocaleString host
       |} in
       response <- post slackWebhookUrl slackMessage ;;
       ret no_update)
    (fun _ => ret no_update).

(** The context block of one retrieved document. *)
Definition format_doc (doc : Document) : jsstring :=
  let title := opt_or (title (metadata doc)) (js "Document") in
  let source :=
    opt_or (url (metadata doc))
           (opt_or (source (metadata doc)) (js "Unknown source")) in
  js "[" ++ title ++ js "]" ++ nl ++ js "Source: " ++ source ++ nl ++ nl
     ++ pageContent doc.

(** The [context] handed to the prompt: the blocks of the retrieved
    documents, or the placeholder when there is none. *)
Definition format_context (docs : list Document) : jsstring :=
  or_else (join (nl ++ nl ++ js "---" ++ nl ++ nl) (map format_doc docs))
          noContext.

(** What the chain sends to the model for a query. *)
Definition generator_input (state : GraphState) (query : jsstring)
  : LLMInput :=
  ChatMessages
    (format_prompt (format_context (retrievedDocs state))
                   (slice_but_last (messages state)) query).

(** [{ answer, messages: [new AIMessage(answer)], appendMessage: "" }] *)
Definition answer_update (finalAnswer : jsstring) : Update := {|
  upd_messages := Some [AIMessage finalAnswer];
  upd_retrievedDocs := None;
  upd_answer := Some finalAnswer;
  upd_errors := None;
  upd_interestScore := None;
  upd_contactInfo := None;
  upd_collectingContact := None;
  upd_appendMessage := Some []
|}.

(** The update of the [catch] branch of the generator. *)
Definition apology_update (message : jsstring) : Update := {|
  upd_messages := Some [AIMessage errorAnswer];
  upd_retrievedDocs := None;
  upd_answer := Some errorAnswer;
  upd_errors := Some [js "Generation failed: " ++ message];
  upd_interestScore := None;
  upd_contactInfo := None;
  upd_collectingContact := None;
  upd_appendMessage := None
|}.

Definition generatorNode (state : GraphState) : M Update :=
  try_catch
    (query <- last_content (messages state) ;;
     answer <- invoke_llm (generator_input state query) ;;
     let finalAnswer :=
       if truthy (appendMessage state)
       then answer ++ nl ++ nl ++ appendMessage state
       else answer in
     ret (answer_update finalAnswer))
    (fun message => ret (apology_update message)).

(** ** Routing and the graph *)

Inductive Node : Type :=
| retriever_node
| generator
| interest_evaluator
| contact_collector
| slack_notifier
| END.

Definition shouldCollectContact (state : GraphState) : Node :=
  if collectingContact state || collected (contactInfo state) then
    contact_collector
  else if num_geb (interestScore state) (Fin 7) then contact_collector
  else generator.

Definition afterContactCollection (state : GraphState) : Node :=
  if collected (contactInfo state) then slack_notifier else END.

(** [addNode]: the function behind each node name. *)
Definition node_fn (n : Node) : GraphState -> M Update :=
  match n with
  | retriever_node => retrieverNode
  | generator => generatorNode
  | interest_evaluator => interestEvaluatorNode
  | contact_collector => contactCollectorNode
  | slack_notifier => slackNotifierNode
  | END => fun _ => ret no_update
  end.

(** [addEdge] and [addConditionalEdges]: the node that follows [n], chosen
    on the state that already holds the update of [n]. *)
Definition next_node (n : Node) (state : GraphState) : Node :=
  match n with
  | retriever_node => interest_evaluator
  | interest_evaluator => shouldCollectContact state
  | contact_collector => generator
  | generator => afterContactCollection state
  | slack_notifier => END
  | END => END
  end.

(** The graph run from node [n]: run the node, merge its update through
    the reducers, follow the edge.  [limit] is the recursion limit of the
    graph runtime, which throws when it is reached. *)
Fixpoint run_from (limit : nat) (n : Node) (state : GraphState)
  : M GraphState :=
  match n with
  | END => ret state
  | _ =>
      match limit with
      | O => throw (js "Recursion limit reached")
      | S limit' =>
          u <- node_fn n state ;;
          let state' := apply_update state u in
          run_from limit' (next_node n state') state'
      end
  end.

Definition recursionLimit : nat := 25.

(** [workflow.invoke({ messages: input }, { thread_id })] on the state
    the checkpointer holds for the thread: the input goes through the
    reducers, then the graph runs from [__start__]. *)
Definition invoke (input : list BaseMessage) (checkpoint : GraphState)
  : M GraphState :=
  run_from recursionLimit retriever_node
    (apply_update checkpoint (input_update input)).

(** ** The stages of one run *)

(** The update a node returns. *)
Definition update_of (n : Node) (s : GraphState) : Update :=
  match result (node_fn n s) with
  | Returned u => u
  | Thrown _ => no_update
  end.

(** The state after a node ran and its update went through the reducers. *)
Definition step (n : Node) (s : GraphState) : GraphState :=
  apply_update s (update_of n s).

(** The state at [__start__], once the input went through the reducers. *)
Definition entered (input : list BaseMessage) (s : GraphState) : GraphState :=
  apply_update s (input_update input).

(** The state after Retrieval and Interest Evaluation. *)
Definition evaluated (input : list BaseMessage) (s : GraphState)
  : GraphState :=
  step interest_evaluator (step retriever_node (entered input s)).

(** Whether the router sends the run through Contact Collection. *)
Definition collects (s : GraphState) : bool :=
  match shouldCollectContact s with
  | contact_collector => true
  | _ => false
  end.

(** The state Generation starts from. *)
Definition before_generation (input : list BaseMessage) (s : GraphState)
  : GraphState :=
  let s2 := evaluated input s in
  if collects s2 then step contact_collector s2 else s2.

(** The state after Generation, which is also the state the run ends in. *)
Definition generated (input : list BaseMessage) (s : GraphState)
  : GraphState :=
  step generator (before_generation input s).

(** The external calls of a run, in order. *)
Definition run_events (input : list BaseMessage) (s : GraphState)
  : list event :=
  let s0 := entered input s in
  let s1 := step retriever_node s0 in
  let s2 := evaluated input s in
  let s3 := before_generation input s in
  let s4 := generated input s in
  events (node_fn retriever_node s0)
    ++ events (node_fn interest_evaluator s1)
    ++ (if collects s2 then events (node_fn contact_collector s2) else [])
    ++ events (node_fn generator s3)
    ++ (if collected (contactInfo s4)
        then events (node_fn slack_notifier s4) else []).

End createWorkflow.

(** ** A conversation: several runs on the same thread *)

(** One invocation: the message list handed to [invoke] and the behaviour
    of the outside world during that run. *)
Record Turn : Type := {
  turn_retriever : VectorStoreRetriever;
  turn_llm : ChatOpenAI;
  turn_host : Host;
  turn_input : list BaseMessage
}.

(** The runs of a thread, each starting from the checkpoint the previous
    one left.  The checkpoint is handed on as the value the run ended with.
    A checkpointer that writes the state as JSON stores a NaN
    [interestScore] as null, which this hand-over does not represent: what
    is stated over [converse] about the score is meant for threads whose
    score is a number at every hand-over. *)
Fixpoint converse (turns : list Turn) (checkpoint : GraphState)
  : M GraphState :=
  match turns with
  | [] => ret checkpoint
  | t :: rest =>
      s <- invoke (turn_retriever t) (turn_llm t) (turn_host t)
                  (turn_input t) checkpoint ;;
      converse rest s
  end.

(** The checkpoint a thread holds after some turns. *)
Definition state_after (turns : list Turn) (checkpoint : GraphState)
  : GraphState :=
  match result (converse turns checkpoint) with
  | Returned s => s
  | Thrown _ => checkpoint
  end.

(** ** Scripted collaborators and conversations

    Concrete retrievers, models and hosts, used to run the workflow on
    explicit inputs. *)

(** A vector store that finds nothing. *)
Definition empty_retriever : VectorStoreRetriever :=
  {| retriever_invoke := fun _ => Returned [] |}.

(** A model that gives [scoring] to the scoring prompt and [chat] to the
    chat prompt of the generator. *)
Definition scripted_llm (scoring chat : outcome jsstring) : ChatOpenAI :=
  {| llm_invoke := fun input =>
       match input with
       | PromptText _ => scoring
       | ChatMessages _ => chat
       end |}.

(** A host with a webhook configured that accepts every POST. *)
Definition webhook_host : Host := {|
  SLACK_WEBHOOK_URL := Some (js "https://hooks.slack.com/services/T0/B0/lead");
  fetch := fun _ _ => Returned {| ok := true; statusText := js "OK" |};
  toLocaleString := js "1/15/2026, 9:30:00 AM"
|}.

(** One message from the user, with the replies the model gives during the
    run. *)
Definition user_turn (text : jsstring) (scoring chat : outcome jsstring)
  : Turn := {|
  turn_retriever := empty_retriever;
  turn_llm := scripted_llm scoring chat;
  turn_host := webhook_host;
  turn_input := [HumanMessage text]
|}.

(** The reply [{"score": value, "reason": "..."}]. *)
Definition score_reply (value : jsstring) : jsstring :=
  js "{" ++ quoted (js "score") ++ js ": " ++ value ++ js ", "
     ++ quoted (js "reason") ++ js ": "
     ++ quoted (js "asked about signing up") ++ js "}".

Definition lead_text : jsstring :=
  js "my email is x@y.com, I'm Jane from Acme".

(** A greeting, a message that scores 9 and the message that gives the
    contact details. *)
Definition lead_conversation : list Turn := [
  user_turn (js "Hello") (Returned (score_reply (js "1")))
            (Returned (js "Hello! How can I help you with Botpress?"));
  user_turn (js "I would definitely like to sign up")
            (Returned (score_reply (js "9")))
            (Returned (js "Happy to hear that."));
  user_turn lead_text (Returned (score_reply (js "9")))
            (Returned (js "Here is how to get started."))
].

(** The next message of the same user, without contact details. *)
Definition follow_up : Turn :=
  user_turn (js "thanks") (Returned (score_reply (js "9")))
            (Returned (js "You are welcome.")).

Definition lead_checkpoint : GraphState :=
  state_after lead_conversation default_state.

(** A greeting and a question that scores 5. *)
Definition browsing_conversation : list Turn := [
  user_turn (js "Hello") (Returned (score_reply (js "1")))
            (Returned (js "Hello! How can I help you with Botpress?"));
  user_turn (js "What can you do?") (Returned (score_reply (js "5")))
            (Returned (js "I can answer questions about Botpress."))
].

Definition browsing_checkpoint : GraphState :=
  state_after browsing_conversation default_state.

(** A turn whose scoring reply is [{"score": "high", "reason": "..."}]. *)
Definition worded_score_turn : Turn :=
  user_turn (js "How much does it cost?")
            (Returned (score_reply (quoted (js "high"))))
            (Returned (js "Please see the pricing page.")).

(** A state that enters Generation with a pending [appendMessage]. *)
Definition pending_state : GraphState := {|
  messages := [HumanMessage (js "Tell me more")];
  retrievedDocs := [];
  answer := [];
  errors := [];
  interestScore := Fin 8;
  contactInfo :=
    {| name := None; email := None; company := None; collected := false |};
  collectingContact := true;
  appendMessage := requestMessage [HumanMessage (js "Tell me more")]
|}.

(** A model whose every call fails. *)
Definition failing_llm : ChatOpenAI :=
  scripted_llm (Thrown (js "Connection error.")) (Thrown (js "Connection error.")).

(* ================================================================== *)
(** * What a run asks of the retriever *)
(* ================================================================== *)

(** The update the retriever node makes of the outcome of
    [retriever.invoke]. *)
Definition retrieval_update (o : outcome (list Document)) : Update :=
  match o with
  | Returned docs =>
      if Nat.eqb (List.length docs) 0
      then docs_update [] (Some [js "No relevant documents found"])
      else docs_update docs None
  | Thrown message =>
      docs_update [] (Some [js "Retrieval failed: " ++ message])
  end.

(** The documents and the error records that update leaves in the state. *)
Definition retrieved (o : outcome (list Document)) : list Document :=
  match o with
  | Returned docs => docs
  | Thrown _ => []
  end.

Definition retrieval_errors (o : outcome (list Document)) : list jsstring :=
  match o with
  | Returned [] => [js "No relevant documents found"]
  | Returned (_ :: _) => []
  | Thrown message => [js "Retrieval failed: " ++ message]
  end.

(** Total number of messages handed to [invoke] over some turns. *)
Definition input_count (turns : list Turn) : nat :=
  list_sum (map (fun t => List.length (turn_input t)) turns).

(* ================================================================== *)
(** * What a pattern matches *)
(* ================================================================== *)

(** [lit_matches ic p w]: the text [w] is the pattern text [p], character
    by character, up to case when [ic] is set. *)
Definition lit_matches (ic : bool) (p w : jsstring) : Prop :=
  Forall2 (fun x y => char_eqb ic x y = true) p w.

(** [matches r w rest]: the pattern [r] matches the text [w] when [w] is
    followed by [rest] (the end assertion looks at what follows). *)
Inductive matches : regex -> jsstring -> jsstring -> Prop :=
| matches_lit ic p w rest :
    lit_matches ic p w -> matches (Lit ic p) w rest
| matches_rep greedy n cls w rest :
    n <= List.length w -> forallb cls w = true ->
    matches (Rep greedy n cls) w rest
| matches_alt_left r1 r2 w rest :
    matches r1 w rest -> matches (Alt r1 r2) w rest
| matches_alt_right r1 r2 w rest :
    matches r2 w rest -> matches (Alt r1 r2) w rest
| matches_cat r1 r2 w1 w2 rest :
    matches r1 w1 (w2 ++ rest) -> matches r2 w2 rest ->
    matches (Cat r1 r2) (w1 ++ w2) rest
| matches_group r w rest :
    matches r w rest -> matches (Group r) w rest
| matches_eos :
    matches Eos [] [].

(** The shape [local@domain.tld] of the email pattern. *)
Definition email_shaped (w : jsstring) : Prop :=
  exists local domain tld,
    w = local ++ js "@" ++ domain ++ js "." ++ tld /\
    1 <= List.length local /\
    forallb (fun c => is_alpha c || is_digit c || one_of "._%+-" c) local
      = true /\
    1 <= List.length domain /\
    forallb (fun c => is_alpha c || is_digit c || one_of ".-" c) domain
      = true /\
    2 <= List.length tld /\
    forallb is_alpha tld = true.

(* ================================================================== *)
(** * The lead a thread records *)
(* ================================================================== *)

(** The contact information holds an email of the shape of the pattern. *)
Definition email_recorded (info : ContactInfo) : Prop :=
  exists e, email info = Some e /\ email_shaped e.

(** The call Interest Evaluation makes: the model is invoked with a prompt
    text (Generation invokes it with a list of chat messages). *)
Definition is_scoring_call (ev : event) : bool :=
  match ev with
  | LlmInvoke (PromptText _) => true
  | _ => false
  end.

(** A POST to the webhook carries an email of that shape. *)
Definition lead_post (ev : event) : Prop :=
  match ev with
  | FetchPost _ body => exists e, field_email body = Some e /\ email_shaped e
  | _ => True
  end.

(* ================================================================== *)
(** * The plain workflow (second variant of workflow.ts, state.ts) *)
(* ================================================================== *)

(** The variant of [createWorkflow] that takes a retriever and a model only:
    four channels, the nodes [retriever] and [generator], and the edges
    [__start__ -> retriever -> generator -> __end__].  It shares the prompt,
    the context format and the apology with the lead workflow. *)
Module Simple.

Record GraphState : Type := {
  messages : list BaseMessage;
  retrievedDocs : list Document;
  answer : jsstring;
  errors : list jsstring
}.

Definition default_state : GraphState := {|
  messages := [];
  retrievedDocs := [];
  answer := [];
  errors := []
|}.

Record Update : Type := {
  upd_messages : option (list BaseMessage);
  upd_retrievedDocs : option (list Document);
  upd_answer : option jsstring;
  upd_errors : option (list jsstring)
}.

Definition apply_update (s : GraphState) (u : Update) : GraphState := {|
  messages := channel Reducer.concat (messages s) (upd_messages u);
  retrievedDocs := channel Reducer.replace (retrievedDocs s) (upd_retrievedDocs u);
  answer := channel Reducer.replace (answer s) (upd_answer u);
  errors := channel Reducer.concat (errors s) (upd_errors u)
|}.

Definition input_update (input : list BaseMessage) : Update := {|
  upd_messages := Some input;
  upd_retrievedDocs := None;
  upd_answer := None;
  upd_errors := None
|}.

Section createWorkflow.

Variable retriever : VectorStoreRetriever.
Variable llm : ChatOpenAI.

Definition docs_update (docs : list Document) (errs : option (list jsstring))
  : Update := {|
  upd_messages := None;
  upd_retrievedDocs := Some docs;
  upd_answer := None;
  upd_errors := errs
|}.

Definition retrieverNode (state : GraphState) : M Update :=
  try_catch
    (query <- last_content (messages state) ;;
     docs <- invoke_retriever retriever query ;;
     if Nat.eqb (List.length docs) 0 then
       ret (docs_update [] (Some [js "No relevant documents found"]))
     else ret (docs_update docs None))
    (fun message =>
       ret (docs_update [] (Some [js "Retrieval failed: " ++ message]))).

(** [{ answer, messages: [new AIMessage(answer)] }], with [errors] in the
    [catch] branch. *)
Definition answer_update (text : jsstring) (errs : option (list jsstring))
  : Update := {|
  upd_messages := Some [AIMessage text];
  upd_retrievedDocs := None;
  upd_answer := Some text;
  upd_errors := errs
|}.

Definition generatorNode (state : GraphState) : M Update :=
  try_catch
    (let context := format_context (retrievedDocs state) in
     query <- last_content (messages state) ;;
     answer <- invoke_llm llm
                 (ChatMessages
                    (format_prompt context (slice_but_last (messages state))
                                   query)) ;;
     ret (answer_update answer None))
    (fun message =>
       ret (answer_update errorAnswer
                          (Some [js "Generation failed: " ++ message]))).

Inductive Node : Type := retriever_node | generator | END.

Definition node_fn (n : Node) : GraphState -> M Update :=
  match n with
  | retriever_node => retrieverNode
  | generator => generatorNode
  | END => fun _ => ret {| upd_messages := None; upd_retrievedDocs := None;
                           upd_answer := None; upd_errors := None |}
  end.

Definition next_node (n : Node) : Node :=
  match n with
  | retriever_node => generator
  | generator => END
  | END => END
  end.

Fixpoint run_from (limit : nat) (n : Node) (state : GraphState)
  : M GraphState :=
  match n with
  | END => ret state
  | _ =>
      match limit with
      | O => throw (js "Recursion limit reached")
      | S limit' =>
          u <- node_fn n state ;;
          run_from limit' (next_node n) (apply_update state u)
      end
  end.

Definition invoke (input : list BaseMessage) (checkpoint : GraphState)
  : M GraphState :=
  run_from recursionLimit retriever_node
    (apply_update checkpoint (input_update input)).

End createWorkflow.

End Simple.

(** The four channels the two workflows share. *)
Definition plain (s : GraphState) : Simple.GraphState := {|
  Simple.messages := messages s;
  Simple.retrievedDocs := retrievedDocs s;
  Simple.answer := answer s;
  Simple.errors := errors s
|}.

(** The calls the plain workflow makes too: retrieval and the chat
    completion (the scoring call is a prompt text, the webhook a POST). *)
Definition is_plain_call (e : event) : bool :=
  match e with
  | RetrieverInvoke _ => true
  | LlmInvoke (ChatMessages _) => true
  | _ => false
  end.

(* ================================================================== *)
(** * Calls of the transports and of the indexer *)
(* ================================================================== *)

(** The same computations as [M], over any type of calls; the outside
    world answers a call knowing the calls made before it. *)
Module Io.

Definition IO (E A : Type) : Type := list E -> outcome A * list E.

Definition ret {E A : Type} (a : A) : IO E A := fun t => (Returned a, t).

Definition throw {E A : Type} (message : jsstring) : IO E A :=
  fun t => (Thrown message, t).

Definition bind {E A B : Type} (m : IO E A) (k : A -> IO E B) : IO E B :=
  fun t =>
    match m t with
    | (Returned a, t') => k a t'
    | (Thrown e, t') => (Thrown e, t')
    end.

(** [try { body } catch (error) { handler(error.message) }] *)
Definition try_catch {E A : Type} (body : IO E A)
           (handler : jsstring -> IO E A) : IO E A :=
  fun t =>
    match body t with
    | (Returned a, t') => (Returned a, t')
    | (Thrown e, t') => handler e t'
    end.

(** An external call: its outcome given the calls so far, and the call
    recorded. *)
Definition call {E A : Type} (e : E) (answer : list E -> outcome A)
  : IO E A :=
  fun t => (answer t, t ++ [e]).

(** The outcome of an awaited value that is already there. *)
Definition await {E A : Type} (o : outcome A) : IO E A := fun t => (o, t).

(** [for (const x of items) { await body(x) }] *)
Fixpoint for_each {E A : Type} (body : A -> IO E unit) (items : list A)
  : IO E unit :=
  match items with
  | [] => ret tt
  | x :: rest => bind (body x) (fun _ => for_each body rest)
  end.

End Io.

Notation "x <~ m ;; k" := (Io.bind m (fun x => k))
  (at level 61, m at next level, right associativity) : js_scope.

(** [n.toString()] of an integer and of a length. *)
Definition Z_toString (z : Z) : jsstring :=
  js (NilZero.string_of_int (Z.to_int z)).

Definition nat_toString (n : nat) : jsstring :=
  js (NilZero.string_of_uint (Nat.to_uint n)).

(** [a.slice(start, end)] for indices within the array. *)
Definition slice {A : Type} (start end_ : nat) (a : list A) : list A :=
  firstn (end_ - start) (skipn start a).

(* ================================================================== *)
(** * Delivery to Telegram (src/telegram/routes.ts and the routes of the
      platform deployment) *)
(* ================================================================== *)

Module Telegram.

(** The JSON body of [sendMessage]; [parse_mode] is absent in the retry. *)
Record SendMessage : Type := {
  chat_id : Z;
  text : jsstring;
  parse_mode : option jsstring
}.

(** What the code reads of a [fetch] response: [ok] and the outcome of
    [await response.text()]. *)
Record HttpResponse : Type := {
  http_ok : bool;
  http_text : outcome jsstring
}.

(** The last message of a stream chunk, by the three properties the code
    reads; [content] is a string when present. *)
Record StreamMessage : Type := {
  msg_type : option jsstring;
  msg_role : option jsstring;
  msg_content : option jsstring
}.

(** [chunk.data.messages] when it is an array. *)
Definition Chunk : Type := option (list StreamMessage).

Inductive Call : Type :=
| Post (url : jsstring) (body : SendMessage)
| Condense (prompt : jsstring)
| Stream (threadId messageText : jsstring).

Record World : Type := {
  TELEGRAM_BOT_TOKEN : option jsstring;
  fetch : list Call -> jsstring -> SendMessage -> outcome HttpResponse;
  llm_invoke : list Call -> jsstring -> outcome jsstring;
  (** The chunks of a stream that ends, or the error that ends it. *)
  runs_stream : list Call -> jsstring -> jsstring -> outcome (list Chunk)
}.

Definition IO : Type -> Type := Io.IO Call.

Definition sendMessageUrl (botToken : jsstring) : jsstring :=
  js "https://api.telegram.org/bot" ++ botToken ++ js "/sendMessage".

Definition sorry : jsstring :=
  js "Sorry, I encountered an error processing your request.".

Definition opt_is (o : option jsstring) (s : jsstring) : bool :=
  match o with Some x => str_eqb x s | None => false end.

(** [lastMsg?.type === "ai" || lastMsg?.role === "assistant"] *)
Definition is_assistant (lastMsg : StreamMessage) : bool :=
  opt_is (msg_type lastMsg) (js "ai")
  || opt_is (msg_role lastMsg) (js "assistant").

(** The body of the [for await] loop: the new value of [aiResponse]. *)
Definition on_chunk (aiResponse : jsstring) (chunk : Chunk) : jsstring :=
  match chunk with
  | Some msgs =>
      match rev msgs with
      | lastMsg :: _ =>
          if is_assistant lastMsg then opt_or (msg_content lastMsg) []
          else aiResponse
      | [] => aiResponse
      end
  | None => aiResponse
  end.

Section Respond.

Variable world : World.
Variable sendTelegramMessage : Z -> jsstring -> IO unit.

(** The asynchronous block the webhook handler starts for an update: run
    the agent on the thread, keep the last assistant message of the
    stream, send it. *)
Definition respond (chatId : Z) (threadId messageText : jsstring) : IO unit :=
  Io.try_catch
    (chunks <~ Io.call (Stream threadId messageText)
                       (fun t => runs_stream world t threadId messageText) ;;
     let aiResponse := fold_left on_chunk chunks [] in
     if truthy aiResponse then sendTelegramMessage chatId aiResponse
     else Io.ret tt)
    (fun _ => sendTelegramMessage chatId sorry).

End Respond.

End Telegram.

(** src/telegram/routes.ts *)
Module Routes.
Import Telegram.

Section Routes.

Variable world : World.

Definition post (url : jsstring) (body : SendMessage) : IO HttpResponse :=
  Io.call (Post url body) (fun t => fetch world t url body).

Definition sendTelegramMessage (chatId : Z) (text : jsstring) : IO unit :=
  let botToken := nullish (TELEGRAM_BOT_TOKEN world) [] in
  if negb (truthy botToken) then Io.ret tt
  else
    let text :=
      if Nat.ltb 4096 (List.length text)
      then firstn 4093 text ++ js "..." else text in
    let url := sendMessageUrl botToken in
    Io.try_catch
      (response <~ post url {| chat_id := chatId; text := text;
                               parse_mode := Some (js "Markdown") |} ;;
       if negb (http_ok response) then
         errorText <~ Io.await (http_text response) ;;
         if includes errorText (js "parse")
            || includes errorText (js "markdown") then
           retryResponse <~ post url {| chat_id := chatId; text := text;
                                        parse_mode := None |} ;;
           if http_ok retryResponse then Io.ret tt
           else
             _ <~ Io.await (http_text retryResponse) ;;
             Io.ret tt
         else Io.ret tt
       else Io.ret tt)
      (fun _ => Io.ret tt).

Definition respond : Z -> jsstring -> jsstring -> IO unit :=
  Telegram.respond world sendTelegramMessage.

End Routes.

End Routes.

(** The routes of the platform deployment (third part of
    src/graph/workflow.ts). *)
Module PlatformRoutes.
Import Telegram.

Definition condensePrompt (text : jsstring) : jsstring :=
  lines [
    js "The following message is too long for Telegram ("
      ++ nat_toString (List.length text)
      ++ js " characters, limit is 4096).";
    js "Please condense it to under 4000 characters while preserving:";
    js "1. All key information and facts";
    js "2. Important URLs and links";
    js "3. The helpful, professional tone";
    js "4. Markdown formatting";
    [];
    js "Original message:";
    text;
    [];
    js "Condensed version:"
  ].

Section Routes.

Variable world : World.

Definition post (url : jsstring) (body : SendMessage) : IO HttpResponse :=
  Io.call (Post url body) (fun t => fetch world t url body).

Definition condenseMessage (text : jsstring) : IO jsstring :=
  Io.try_catch
    (condensed <~ Io.call (Condense (condensePrompt text))
                          (fun t => llm_invoke world t (condensePrompt text)) ;;
     if Nat.ltb 4096 (List.length condensed)
     then Io.ret (firstn 4090 condensed ++ js "...")
     else Io.ret condensed)
    (fun _ => Io.ret (firstn 4090 text ++ js "...")).

Definition sendTelegramMessage (chatId : Z) (text : jsstring) : IO unit :=
  let botToken := nullish (TELEGRAM_BOT_TOKEN world) [] in
  if negb (truthy botToken) then Io.ret tt
  else
    text <~ (if Nat.ltb 4096 (List.length text) then condenseMessage text
             else Io.ret text) ;;
    let url := sendMessageUrl botToken in
    Io.try_catch
      (response <~ post url {| chat_id := chatId; text := text;
                               parse_mode := Some (js "Markdown") |} ;;
       if negb (http_ok response) then
         _ <~ Io.await (http_text response) ;;
         Io.ret tt
       else Io.ret tt)
      (fun _ => Io.ret tt).

Definition respond : Z -> jsstring -> jsstring -> IO unit :=
  Telegram.respond world sendTelegramMessage.

End Routes.

End PlatformRoutes.

(** The texts of the POSTs in a trace, in order. *)
Definition posted_texts (t : list Telegram.Call) : list jsstring :=
  flat_map (fun c => match c with
                     | Telegram.Post _ body => [Telegram.text body]
                     | _ => []
                     end) t.

(** What [sendTelegramMessage] of routes.ts makes of a text. *)
Definition truncated (text : jsstring) : jsstring :=
  if Nat.ltb 4096 (List.length text)
  then firstn 4093 text ++ js "..." else text.

(* ================================================================== *)
(** * The Telegraf bot: the text handler *)
(* ================================================================== *)

Module Bot.

Inductive Call : Type :=
| SendChatAction (action : jsstring)
| WorkflowInvoke (input : list BaseMessage) (thread_id : jsstring)
| Reply (text : jsstring) (parse_mode : option jsstring).

Record World : Type := {
  sendChatAction : list Call -> jsstring -> outcome unit;
  (** [workflow.invoke] on the checkpoint of the thread: its result. *)
  workflow_invoke :
    list Call -> list BaseMessage -> jsstring -> outcome Simple.GraphState;
  reply : list Call -> jsstring -> option jsstring -> outcome unit
}.

Definition IO : Type -> Type := Io.IO Call.

Definition errorReply : jsstring :=
  [10060%N] ++ js " Sorry, I encountered an error processing your request. Please try again."
    ++ nl ++ nl ++ js "If the problem persists, try /reset to start fresh.".

(** The successive matches of [/.{1,n}/gs]: each takes as many code units
    as it can, up to [n]. *)
Fixpoint chunks_of (fuel n : nat) (s : jsstring) : list jsstring :=
  match fuel with
  | O => []
  | S fuel' =>
      match s with
      | [] => []
      | _ :: _ => firstn n s :: chunks_of fuel' n (skipn n s)
      end
  end.

(** [s.match(/.{1,4000}/gs)]: [null] when there is no match. *)
Definition match_chunks (s : jsstring) : option (list jsstring) :=
  match s with
  | [] => None
  | _ :: _ => Some (chunks_of (List.length s) 4000 s)
  end.

Section Handlers.

Variable world : World.

Definition ctx_reply (text : jsstring) (mode : option jsstring) : IO unit :=
  Io.call (Reply text mode) (fun t => reply world t text mode).

(** [bot.on(message("text"), ...)] *)
Definition on_text (chat : Z) (userMessage : jsstring) : IO unit :=
  let threadId := Z_toString chat in
  if starts_with (js "/") userMessage then Io.ret tt
  else
    Io.try_catch
      (_ <~ Io.call (SendChatAction (js "typing"))
                    (fun t => sendChatAction world t (js "typing")) ;;
       result <~ Io.call (WorkflowInvoke [HumanMessage userMessage] threadId)
                         (fun t => workflow_invoke world t
                                     [HumanMessage userMessage] threadId) ;;
       if Nat.ltb 4000 (List.length (Simple.answer result)) then
         let chunks := nullish (match_chunks (Simple.answer result)) [] in
         Io.for_each (fun chunk => ctx_reply chunk (Some (js "Markdown")))
                     chunks
       else ctx_reply (Simple.answer result) (Some (js "Markdown")))
      (fun _ => ctx_reply errorReply None).

End Handlers.

End Bot.

(** The replies in a trace of the bot, in order. *)
Definition replies (t : list Bot.Call) : list (jsstring * option jsstring) :=
  flat_map (fun c => match c with
                     | Bot.Reply text mode => [(text, mode)]
                     | _ => []
                     end) t.

(** Whether the call [c], made after the calls [t], failed in [world]. *)
Definition call_failed (world : Bot.World) (t : list Bot.Call) (c : Bot.Call)
  : bool :=
  match c with
  | Bot.SendChatAction action =>
      match Bot.sendChatAction world t action with
      | Thrown _ => true
      | Returned _ => false
      end
  | Bot.WorkflowInvoke input thread_id =>
      match Bot.workflow_invoke world t input thread_id with
      | Thrown _ => true
      | Returned _ => false
      end
  | Bot.Reply text mode =>
      match Bot.reply world t text mode with
      | Thrown _ => true
      | Returned _ => false
      end
  end.

(* ================================================================== *)
(** * Indexing: scraper, chunker, vector store and the indexing script *)
(* ================================================================== *)

(** [a > b] on numbers: false as soon as one side is NaN. *)
Definition num_gtb (a b : number) : bool := num_leb b a && negb (num_leb a b).

(** [parseInt(s, 10)]: the leading integer of [s], or NaN. *)
Definition parseInt10 (s : jsstring) : number :=
  let s := trim_start s in
  let signed :=
    match s with
    | 45%N :: r => (true, r)
    | 43%N :: r => (false, r)
    | _ => (false, s)
    end in
  let ds := fst (take_while is_digit (snd signed)) in
  match ds with
  | [] => NaN
  | _ :: _ =>
      let v := digits_val 10 digit_val ds in
      num_of_Z (if fst signed then - v else v)%Z
  end.

(** ToIntegerOrInfinity of a finite number: truncation towards zero. *)
Definition truncate (q : Q) : Z :=
  if Qle_bool 0 q then Qfloor q else Qceiling q.

(** [a.slice(0, end)] for any number [end]. *)
Definition slice_to {A : Type} (end_ : number) (a : list A) : list A :=
  match end_ with
  | NaN => []
  | NegInf => []
  | PosInf => a
  | Fin q =>
      let k := truncate q in
      let len := Z.of_nat (List.length a) in
      if (k <? 0)%Z then firstn (Z.to_nat (Z.max (len + k) 0)) a
      else firstn (Z.to_nat (Z.min k len)) a
  end.

Module Indexing.

(** A scraped page: the text and the metadata the script reads. *)
Record Page : Type := {
  page_content : jsstring;
  page_source : option jsstring;
  page_loc : option jsstring;
  page_title : option jsstring
}.

(** The metadata [chunkDocument] hands to the splitter. *)
Record ChunkMetadata : Type := {
  meta_source : jsstring;
  meta_title : option jsstring;
  document_id : jsstring
}.

(** An element of the array given to [chunkDocuments]. *)
Record DocumentToChunk : Type := {
  id : jsstring;
  doc_url : jsstring;
  doc_content : jsstring;
  doc_title : option jsstring
}.

Inductive Call : Type :=
| LoaderLoad (sitemapUrl : jsstring)
| AxiosGet (sitemapUrl : jsstring)
| PlaywrightLoad (url : jsstring)
| CreateDocuments (content : jsstring) (meta : ChunkMetadata)
| CreateClient (supabaseUrl supabaseKey : jsstring)
| AddDocuments (batch : list Document).

Record World : Type := {
  MAX_PAGES : option jsstring;
  SUPABASE_URL : option jsstring;
  SUPABASE_API_KEY : option jsstring;
  (** [new SitemapLoader(url, { parsingFunction }).load()] *)
  loader_load : list Call -> jsstring -> outcome (list Page);
  (** [axios.get] and the parse of the sitemap: the URLs it lists. *)
  sitemap_urls : list Call -> jsstring -> outcome (list jsstring);
  (** [new PlaywrightWebBaseLoader(url, ...).load()] *)
  playwright_load : list Call -> jsstring -> outcome (list Page);
  (** [textSplitter.createDocuments([content], [meta])] *)
  createDocuments :
    list Call -> jsstring -> ChunkMetadata -> outcome (list Document);
  (** [new OpenAIEmbeddings(...)] *)
  new_embeddings : outcome unit;
  (** [createClient] and [new SupabaseVectorStore] *)
  createClient : list Call -> jsstring -> jsstring -> outcome unit;
  (** [vectorStore.addDocuments(batch)] *)
  store_addDocuments : list Call -> list Document -> outcome unit
}.

Definition IO : Type -> Type := Io.IO Call.

Definition SITEMAP_URL : jsstring := js "https://botpress.com/sitemap.xml".

Definition BATCH_SIZE : nat := 100.

(** [Math.ceil(n / size)] *)
Definition ceil_div (n size : nat) : nat := (n + (size - 1)) / size.

(** [text.replace(/\s+/g, " ")]: [in_run] tells that the previous
    character was white space too. *)
Fixpoint replace_spaces (in_run : bool) (s : jsstring) : jsstring :=
  match s with
  | [] => []
  | c :: s' =>
      if is_space c then
        if in_run then replace_spaces true s'
        else 32%N :: replace_spaces true s'
      else c :: replace_spaces false s'
  end.

(** [parseHtml] of scraper.ts; [main_text] stands for the text cheerio
    extracts from the page. *)
Definition parseHtml (main_text : jsstring -> jsstring) (html : jsstring)
  : jsstring :=
  let text := main_text html in
  trim (replace_spaces false text).

(** [{ source: url, title: title || undefined, document_id: documentId }] *)
Definition chunk_metadata (documentId url : jsstring)
           (title : option jsstring) : ChunkMetadata := {|
  meta_source := url;
  meta_title := match title with
                | Some t => if truthy t then Some t else None
                | None => None
                end;
  document_id := documentId
|}.

(** The pages [chunkDocument] does not skip. *)
Definition long_enough (doc : DocumentToChunk) : bool :=
  negb (Nat.ltb (List.length (doc_content doc)) 50).

Definition metadata_of (doc : DocumentToChunk) : ChunkMetadata :=
  chunk_metadata (id doc) (doc_url doc) (doc_title doc).

(** The scraper that loads each page with Playwright. *)
Module Playwright.

Section Scraper.

Variable world : World.

(** The body of the scraping loop of the Playwright scraper for one URL:
    the pages to push, none when the load failed. *)
Definition scrape_url (url : jsstring) : IO (list Page) :=
  Io.try_catch
    (Io.call (PlaywrightLoad url) (fun t => playwright_load world t url))
    (fun _ => Io.ret []).

(** [for (let i = 0; ...) { ...; docs.push(...pageDocs) }] *)
Fixpoint scrape_all (urls : list jsstring) : IO (list Page) :=
  match urls with
  | [] => Io.ret []
  | url :: rest =>
      pageDocs <~ scrape_url url ;;
      docs <~ scrape_all rest ;;
      Io.ret (pageDocs ++ docs)
  end.

(** [loadPagesFromSitemap] of the scraper with Playwright. *)
Definition loadPagesFromSitemap (sitemapUrl : jsstring) (maxPages : number)
  : IO (list Page) :=
  Io.try_catch
    (urls <~ Io.call (AxiosGet sitemapUrl)
                     (fun t => sitemap_urls world t sitemapUrl) ;;
     let urlsToScrape := slice_to maxPages urls in
     scrape_all urlsToScrape)
    (fun message => Io.throw (js "Failed to load sitemap: " ++ message)).

End Scraper.

End Playwright.

Section Indexer.

Variable world : World.

(** The default value of the parameter [maxPages]. *)
Definition maxPages_default : number :=
  parseInt10 (opt_or (MAX_PAGES world) (js "500")).

(** scraper.ts, with [SitemapLoader]. *)
Definition loadPagesFromSitemap (sitemapUrl : jsstring) (maxPages : number)
  : IO (list Page) :=
  Io.try_catch
    (docs <~ Io.call (LoaderLoad sitemapUrl)
                     (fun t => loader_load world t sitemapUrl) ;;
     if num_gtb (num_of_Z (Z.of_nat (List.length docs))) maxPages
     then Io.ret (slice_to maxPages docs)
     else Io.ret docs)
    (fun message => Io.throw (js "Failed to load sitemap: " ++ message)).

(** chunker.ts *)
Definition chunkDocument (documentId url content : jsstring)
           (title : option jsstring) : IO (list Document) :=
  if Nat.ltb (List.length content) 50 then Io.ret []
  else
    let meta := chunk_metadata documentId url title in
    Io.call (CreateDocuments content meta)
            (fun t => createDocuments world t content meta).

Fixpoint chunkDocuments (documents : list DocumentToChunk)
  : IO (list Document) :=
  match documents with
  | [] => Io.ret []
  | doc :: rest =>
      chunks <~ chunkDocument (id doc) (doc_url doc) (doc_content doc)
                              (doc_title doc) ;;
      allChunks <~ chunkDocuments rest ;;
      Io.ret (chunks ++ allChunks)
  end.

(** vector-store.ts *)
Definition initializeVectorStore : IO unit :=
  Io.try_catch
    (let supabaseUrl := nullish (SUPABASE_URL world) [] in
     let supabaseKey := nullish (SUPABASE_API_KEY world) [] in
     if negb (truthy supabaseUrl) || negb (truthy supabaseKey) then
       Io.throw (js "SUPABASE_URL and SUPABASE_API_KEY must be set")
     else
       Io.call (CreateClient supabaseUrl supabaseKey)
               (fun t => createClient world t supabaseUrl supabaseKey))
    (fun message =>
       Io.throw (js "Failed to initialize pgvector: " ++ message)).

(** The batch of the loop at index [i]. *)
Definition batch_at (docs : list Document) (i : nat) : list Document :=
  let start := i * BATCH_SIZE in
  let end_ := Nat.min ((i + 1) * BATCH_SIZE) (List.length docs) in
  slice start end_ docs.

Definition addDocuments (docs : list Document) : IO unit :=
  Io.try_catch
    (_ <~ Io.await (new_embeddings world) ;;
     _ <~ initializeVectorStore ;;
     let batches := ceil_div (List.length docs) BATCH_SIZE in
     Io.for_each
       (fun i =>
          let batch := batch_at docs i in
          Io.call (AddDocuments batch)
                  (fun t => store_addDocuments world t batch))
       (List.seq 0 batches))
    (fun message => Io.throw (js "Failed to add documents: " ++ message)).

(** [docs.map(...)] of the indexing script. *)
Definition to_chunk (doc : Page) : DocumentToChunk :=
  let source :=
    opt_or (page_source doc) (opt_or (page_loc doc) (js "unknown")) in
  {| id := source;
     doc_url := source;
     doc_content := page_content doc;
     doc_title := match page_title doc with
                  | Some t => if truthy t then Some t else None
                  | None => None
                  end |}.

(** [indexBotpress] of the indexing script. *)
Definition indexBotpress : IO unit :=
  docs <~ loadPagesFromSitemap SITEMAP_URL maxPages_default ;;
  if Nat.eqb (List.length docs) 0 then Io.ret tt
  else
    chunks <~ chunkDocuments (map to_chunk docs) ;;
    addDocuments chunks.

End Indexer.

End Indexing.

(** The batches handed to the store in a trace, in order. *)
Definition stored_batches (t : list Indexing.Call) : list (list Document) :=
  flat_map (fun c => match c with
                     | Indexing.AddDocuments batch => [batch]
                     | _ => []
                     end) t.

(** The contents handed to the splitter in a trace, in order. *)
Definition split_contents (t : list Indexing.Call) : list jsstring :=
  flat_map (fun c => match c with
                     | Indexing.CreateDocuments content _ => [content]
                     | _ => []
                     end) t.

(** The URLs loaded with Playwright in a trace, in order. *)
Definition loaded_urls (t : list Indexing.Call) : list jsstring :=
  flat_map (fun c => match c with
                     | Indexing.PlaywrightLoad url => [url]
                     | _ => []
                     end) t.

(* ================================================================== *)
(** * Scenarios for the transports and the indexer *)
(* ================================================================== *)

(** A Telegram API that rejects Markdown it cannot parse and accepts plain
    text; the agent streams one assistant message. *)
Definition markdown_rejecting_world : Telegram.World := {|
  Telegram.TELEGRAM_BOT_TOKEN := Some (js "123:abc");
  Telegram.fetch := fun _ _ body =>
    match Telegram.parse_mode body with
    | Some _ =>
        Returned {| Telegram.http_ok := false;
                    Telegram.http_text :=
                      Returned (js "Bad Request: can't parse entities") |}
    | None =>
        Returned {| Telegram.http_ok := true;
                    Telegram.http_text := Returned (js "{}") |}
    end;
  Telegram.llm_invoke := fun _ _ => Thrown (js "401 Unauthorized");
  Telegram.runs_stream := fun _ _ _ =>
    Returned [Some [{| Telegram.msg_type := Some (js "human");
                       Telegram.msg_role := None;
                       Telegram.msg_content := Some (js "Hello") |}];
              Some [{| Telegram.msg_type := Some (js "human");
                       Telegram.msg_role := None;
                       Telegram.msg_content := Some (js "Hello") |};
                    {| Telegram.msg_type := Some (js "ai");
                       Telegram.msg_role := None;
                       Telegram.msg_content := Some (js "*Hi") |}]]
|}.

(** A text of 5000 code units. *)
Definition long_text : jsstring := repeat 97%N 5000.

(** A bot whose calls all succeed and whose workflow answers with a text
    of 5000 code units. *)
Definition verbose_bot : Bot.World := {|
  Bot.sendChatAction := fun _ _ => Returned tt;
  Bot.workflow_invoke := fun _ input _ =>
    Returned {| Simple.messages := input ++ [AIMessage long_text];
                Simple.retrievedDocs := [];
                Simple.answer := long_text;
                Simple.errors := [] |};
  Bot.reply := fun _ _ _ => Returned tt
|}.

(** 250 chunks to store. *)
Definition many_chunks : list Document :=
  repeat {| pageContent := js "chunk";
            metadata := {| title := None; url := None;
                           source := Some (js "https://botpress.com/docs") |} |}
         250.

(** An indexing run in which everything works: the sitemap lists one long
    page and one short page, and the splitter cuts a text in two. *)
Definition smooth_indexing : Indexing.World := {|
  Indexing.MAX_PAGES := None;
  Indexing.SUPABASE_URL := Some (js "https://db.supabase.co");
  Indexing.SUPABASE_API_KEY := Some (js "key");
  Indexing.loader_load := fun _ _ =>
    Returned [{| Indexing.page_content := repeat 97%N 60;
                 Indexing.page_source := Some (js "https://botpress.com/a");
                 Indexing.page_loc := None;
                 Indexing.page_title := Some (js "A") |};
              {| Indexing.page_content := js "short";
                 Indexing.page_source := Some (js "https://botpress.com/b");
                 Indexing.page_loc := None;
                 Indexing.page_title := None |}];
  Indexing.sitemap_urls := fun _ _ =>
    Returned [js "https://botpress.com/a"; js "https://botpress.com/b"];
  Indexing.playwright_load := fun _ url =>
    if str_eqb url (js "https://botpress.com/a")
    then Thrown (js "Timeout 30000ms exceeded")
    else Returned [{| Indexing.page_content := js "short";
                      Indexing.page_source := Some url;
                      Indexing.page_loc := None;
                      Indexing.page_title := None |}];
  Indexing.createDocuments := fun _ content meta =>
    Returned
      (map (fun piece =>
              {| pageContent := piece;
                 metadata := {| title := Indexing.meta_title meta;
                                url := None;
                                source := Some (Indexing.meta_source meta) |} |})
           [firstn 30 content; skipn 30 content]);
  Indexing.new_embeddings := Returned tt;
  Indexing.createClient := fun _ _ _ => Returned tt;
  Indexing.store_addDocuments := fun _ _ => Returned tt
|}.

(* ================================================================== *)
(** * The recursion budget of JSON.parse *)
(* ================================================================== *)

Lemma skip_ws_length (s : jsstring) : List.length (skip_ws s) <= List.length s.
Proof.
  induction s as [|c s IH]; cbn; [lia|]. destruct (is_ws c); cbn; lia.
Qed.

Lemma take_while_length (p : N -> bool) (s a b : jsstring) :
  take_while p s = (a, b) -> List.length b <= List.length s.
Proof.
  revert a b. induction s as [|c s IH]; cbn; intros a b E.
  - inversion E. cbn. lia.
  - destruct (p c).
    + destruct (take_while p s) as [a' b'] eqn:Et. inversion E; subst.
      specialize (IH a' b eq_refl). lia.
    + inversion E. cbn. lia.
Qed.

Lemma strip_lit_length (ic : bool) (p s rest : jsstring) :
  strip_lit ic p s = Some rest -> List.length rest <= List.length s.
Proof.
  revert s. induction p as [|x p IH]; intros s E; cbn in E.
  - inversion E. lia.
  - destruct s as [|y s]; [discriminate|].
    destruct (char_eqb ic x y); [|discriminate].
    apply IH in E. cbn. lia.
Qed.

Lemma exponent_part_length (s rest : jsstring) (e : Z) :
  exponent_part s = (e, rest) -> List.length rest <= List.length s.
Proof.
  unfold exponent_part. destruct s as [|c s1]; [intro E; inversion E; lia|].
  destruct (N.eqb c 101 || N.eqb c 69); [|intro E; inversion E; lia].
  destruct s1 as [|d s2];
    [| destruct (N.eqb d 45); [| destruct (N.eqb d 43)]];
    cbv beta iota zeta;
    match goal with
    | |- context [take_while is_digit ?x] =>
        destruct (take_while is_digit x) as [ds rest0] eqn:Et
    end;
    apply take_while_length in Et;
    destruct ds; intro E; inversion E; subst; cbn in *; lia.
Qed.

Lemma parse_unsigned_length (neg : bool) (s rest : jsstring) (n : number) :
  parse_unsigned neg s = Some (n, rest) -> List.length rest <= List.length s.
Proof.
  unfold parse_unsigned.
  destruct (take_while is_digit s) as [ip s1] eqn:Ei.
  apply take_while_length in Ei.
  match goal with |- context [if ?b then _ else _] => destruct b end;
    [|discriminate].
  destruct s1 as [|c s1'].
  - destruct (exponent_part []) as [e s3] eqn:Ee.
    apply exponent_part_length in Ee.
    intro E; inversion E; subst. cbn in *. lia.
  - destruct (N.eqb c 46).
    + destruct (take_while is_digit s1') as [fp s2] eqn:Ef.
      apply take_while_length in Ef.
      destruct fp; [discriminate|].
      destruct (exponent_part s2) as [e s3] eqn:Ee.
      apply exponent_part_length in Ee.
      intro E; inversion E; subst. cbn in *. lia.
    + destruct (exponent_part (c :: s1')) as [e s3] eqn:Ee.
      apply exponent_part_length in Ee.
      intro E; inversion E; subst. cbn in *. lia.
Qed.

Lemma parse_number_length (s rest : jsstring) (n : number) :
  parse_number s = Some (n, rest) -> List.length rest <= List.length s.
Proof.
  unfold parse_number. destruct s as [|c s'].
  - apply parse_unsigned_length.
  - destruct (N.eqb c 45); intro E; apply parse_unsigned_length in E;
      cbn in *; lia.
Qed.

Lemma parse_string_length (n : nat) :
  forall s acc str rest,
    List.length s <= n ->
    parse_string s acc = Some (str, rest) ->
    List.length rest <= List.length s.
Proof.
  induction n as [|n IH]; intros s acc str rest Hn E.
  - destruct s; [discriminate | cbn in Hn; lia].
  - destruct s as [|c s1]; [discriminate|]. cbn in Hn. cbn [parse_string] in E.
    destruct (N.eqb c 34); [inversion E; subst; cbn; lia|].
    destruct (N.eqb c 92).
    + destruct s1 as [|e s2]; [discriminate|]. cbn in Hn.
      repeat match type of E with
             | (if ?b then _ else _) = _ =>
                 destruct b;
                 [try (apply IH in E; [cbn; lia | lia])|]
             end; try discriminate.
      destruct s2 as [|h1 [|h2 [|h3 [|h4 s3]]]]; try discriminate.
      destruct (forallb is_hex _); [|discriminate].
      apply IH in E; cbn in *; lia.
    + destruct (c <? 32)%N; [discriminate|].
      apply IH in E; [cbn; lia | lia].
Qed.

Lemma keyword_length (w : string) (v : json) (s : jsstring) r rest :
  keyword w v s = Some (r, rest) -> List.length rest <= List.length s.
Proof.
  unfold keyword. destruct (strip_lit false (js w) s) eqn:E; [|discriminate].
  apply strip_lit_length in E. intro H; inversion H; subst. exact E.
Qed.

(** A parse never returns more text than it was given. *)
Lemma parse_length (f : nat) :
  (forall s v rest, parse_value f s = Some (v, rest) ->
                    List.length rest <= List.length s) /\
  (forall s acc v rest, parse_elements f s acc = Some (v, rest) ->
                        List.length rest <= List.length s) /\
  (forall s acc v rest, parse_members f s acc = Some (v, rest) ->
                        List.length rest <= List.length s).
Proof.
  induction f as [|f (IHv & IHe & IHm)]; [repeat split; discriminate|].
  split; [|split].
  - intros s v rest. cbn [parse_value].
    pose proof (skip_ws_length s) as Hs.
    destruct (skip_ws s) as [|c s1]; [discriminate|]. cbn in Hs.
    destruct (N.eqb c 123).
    { pose proof (skip_ws_length s1) as Hs1.
      destruct (skip_ws s1) as [|d s2]; [discriminate|]. cbn in Hs1.
      destruct (N.eqb d 125).
      - intro E; inversion E; subst. lia.
      - intro E. apply IHm in E. lia. }
    destruct (N.eqb c 91).
    { pose proof (skip_ws_length s1) as Hs1.
      destruct (skip_ws s1) as [|d s2]; [discriminate|]. cbn in Hs1.
      destruct (N.eqb d 93).
      - intro E; inversion E; subst. lia.
      - intro E. apply IHe in E. lia. }
    destruct (N.eqb c 34).
    { destruct (parse_string s1 []) as [[str r]|] eqn:Ep; [|discriminate].
      apply (parse_string_length (List.length s1)) in Ep; [|lia].
      intro E; inversion E; subst. lia. }
    destruct (N.eqb c 116).
    { intro E. apply keyword_length in E. cbn in E. lia. }
    destruct (N.eqb c 102).
    { intro E. apply keyword_length in E. cbn in E. lia. }
    destruct (N.eqb c 110).
    { intro E. apply keyword_length in E. cbn in E. lia. }
    destruct (parse_number (c :: s1)) as [[n r]|] eqn:Ep; [|discriminate].
    apply parse_number_length in Ep. cbn in Ep.
    intro E; inversion E; subst. lia.
  - intros s acc v rest. cbn [parse_elements].
    destruct (parse_value f s) as [[v0 r0]|] eqn:Ev; [|discriminate].
    apply IHv in Ev.
    pose proof (skip_ws_length r0) as Hr.
    destruct (skip_ws r0) as [|c r1]; [discriminate|]. cbn in Hr.
    destruct (N.eqb c 44).
    + intro E. apply IHe in E. lia.
    + destruct (N.eqb c 93); [|discriminate].
      intro E; inversion E; subst. lia.
  - intros s acc v rest. cbn [parse_members].
    pose proof (skip_ws_length s) as Hs.
    destruct (skip_ws s) as [|q s1]; [discriminate|]. cbn in Hs.
    destruct (N.eqb q 34); [|discriminate].
    destruct (parse_string s1 []) as [[key s2]|] eqn:Ep; [|discriminate].
    apply (parse_string_length (List.length s1)) in Ep; [|lia].
    pose proof (skip_ws_length s2) as Hs2.
    destruct (skip_ws s2) as [|col s3]; [discriminate|]. cbn in Hs2.
    destruct (N.eqb col 58); [|discriminate].
    destruct (parse_value f s3) as [[v0 r0]|] eqn:Ev; [|discriminate].
    apply IHv in Ev.
    pose proof (skip_ws_length r0) as Hr.
    destruct (skip_ws r0) as [|c r1]; [discriminate|]. cbn in Hr.
    destruct (N.eqb c 44).
    + intro E. apply IHm in E. lia.
    + destruct (N.eqb c 125); [|discriminate].
      intro E; inversion E; subst. lia.
Qed.

(** One more unit of budget changes nothing once the budget exceeds twice
    the length of the text. *)
Lemma parse_fuel_step (f : nat) :
  (forall s, 2 * List.length s + 2 <= f ->
             parse_value (S f) s = parse_value f s) /\
  (forall s acc, 2 * List.length s + 3 <= f ->
                 parse_elements (S f) s acc = parse_elements f s acc) /\
  (forall s acc, 2 * List.length s + 3 <= f ->
                 parse_members (S f) s acc = parse_members f s acc).
Proof.
  induction f as [|f (IHv & IHe & IHm)]; [repeat split; intros; lia|].
  split; [|split].
  - intros s Hf. cbn [parse_value].
    pose proof (skip_ws_length s) as Hs.
    destruct (skip_ws s) as [|c s1]; [reflexivity|]. cbn in Hs.
    destruct (N.eqb c 123).
    { destruct (skip_ws s1) as [|d s2]; [reflexivity|].
      destruct (N.eqb d 125); [reflexivity|]. apply IHm. lia. }
    destruct (N.eqb c 91).
    { destruct (skip_ws s1) as [|d s2]; [reflexivity|].
      destruct (N.eqb d 93); [reflexivity|]. apply IHe. lia. }
    reflexivity.
  - intros s acc Hf. cbn [parse_elements].
    rewrite IHv by lia.
    destruct (parse_value f s) as [[v r0]|] eqn:Ev; [|reflexivity].
    apply (proj1 (parse_length f)) in Ev.
    pose proof (skip_ws_length r0) as Hr.
    destruct (skip_ws r0) as [|c r1]; [reflexivity|]. cbn in Hr.
    destruct (N.eqb c 44); [|reflexivity]. apply IHe. lia.
  - intros s acc Hf. cbn [parse_members].
    pose proof (skip_ws_length s) as Hs.
    destruct (skip_ws s) as [|q s1]; [reflexivity|]. cbn in Hs.
    destruct (N.eqb q 34); [|reflexivity].
    destruct (parse_string s1 []) as [[key s2]|] eqn:Ep; [|reflexivity].
    apply (parse_string_length (List.length s1)) in Ep; [|lia].
    pose proof (skip_ws_length s2) as Hs2.
    destruct (skip_ws s2) as [|col s3]; [reflexivity|]. cbn in Hs2.
    destruct (N.eqb col 58); [|reflexivity].
    assert (Hs3 : 2 * List.length s3 + 2 <= f) by lia.
    rewrite IHv by exact Hs3.
    destruct (parse_value f s3) as [[v r0]|] eqn:Ev; [|reflexivity].
    apply (proj1 (parse_length f)) in Ev.
    pose proof (skip_ws_length r0) as Hr.
    destruct (skip_ws r0) as [|c r1]; [reflexivity|]. cbn in Hr.
    destruct (N.eqb c 44); [|reflexivity]. apply IHm. lia.
Qed.

(** More budget than twice the length of the text changes nothing. *)
Lemma parse_value_budget (s : jsstring) (extra : nat) :
  parse_value (2 * List.length s + 2 + extra) s
  = parse_value (2 * List.length s + 2) s.
Proof.
  induction extra as [|k IH]; [now rewrite Nat.add_0_r|].
  rewrite Nat.add_succ_r, (proj1 (parse_fuel_step _)) by lia. exact IH.
Qed.

(** [JSON_parse] is the parse with any larger budget. *)
Lemma JSON_parse_budget (text : jsstring) (extra : nat) :
  JSON_parse text =
  match parse_value (2 * List.length text + 2 + extra) text with
  | Some (v, rest) =>
      match skip_ws rest with
      | [] => Some v
      | _ :: _ => None
      end
  | None => None
  end.
Proof. unfold JSON_parse. now rewrite parse_value_budget. Qed.

(* ================================================================== *)
(** * The runtime model on small inputs *)
(* ================================================================== *)

Example number_of_padded_decimal :
  StringToNumber (js " 7.50 ") = Fin (15 # 2).
Proof. vm_compute. reflexivity. Qed.

Example number_of_fraction : StringToNumber (js "8/10") = NaN.
Proof. vm_compute. reflexivity. Qed.

Example number_of_empty : StringToNumber [] = Fin 0.
Proof. reflexivity. Qed.

Example parse_rejects_leading_zero :
  JSON_parse (js "{" ++ quoted (js "score") ++ js ": 01}") = None.
Proof. vm_compute. reflexivity. Qed.

Example parse_nested :
  JSON_parse (js "[1, {" ++ quoted (js "a") ++ js ": [true, null]}]")
  = Some (JArr [JNum (Fin 1);
                JObj [(js "a", JArr [JBool true; JNull])]]).
Proof. vm_compute. reflexivity. Qed.

Example email_in_sentence :
  str_match emailRegex (js "reach me at a@b.com please") = Some [js "a@b.com"].
Proof. vm_compute. reflexivity. Qed.

Example email_absent : str_match emailRegex (js "thanks") = None.
Proof. vm_compute. reflexivity. Qed.

Example email_needs_two_letter_domain :
  str_match emailRegex (js "a@b.c") = None.
Proof. vm_compute. reflexivity. Qed.

Example name_after_my_name_is :
  option_map group1_trim (str_match nameRegex (js "My name is Jane"))
  = Some (js "Jane").
Proof. vm_compute. reflexivity. Qed.

Example company_before_and :
  option_map group1_trim
    (str_match companyRegex (js "I work at Acme and my email is a@b.com"))
  = Some (js "Acme").
Proof. vm_compute. reflexivity. Qed.

Example score_above_range : score_of_reply (score_reply (js "12")) = Fin 10.
Proof. vm_compute. reflexivity. Qed.

Example score_below_range : score_of_reply (score_reply (js "-3")) = Fin 0.
Proof. vm_compute. reflexivity. Qed.

Example score_fractional :
  score_of_reply (score_reply (js "7.5")) = Fin (15 # 2).
Proof. vm_compute. reflexivity. Qed.

Example score_as_digit_string :
  score_of_reply (score_reply (quoted (js "8"))) = Fin 8.
Proof. vm_compute. reflexivity. Qed.

Example score_inside_prose :
  score_of_reply (js "Sure! Here you go: " ++ score_reply (js "8")
                     ++ js " Hope it helps.") = Fin 8.
Proof. vm_compute. reflexivity. Qed.

Example score_without_json :
  score_of_reply (js "I would say 8 out of 10.") = Fin 0.
Proof. vm_compute. reflexivity. Qed.

Example score_after_other_braces :
  score_of_reply (js "{note} " ++ score_reply (js "8")) = Fin 0.
Proof. vm_compute. reflexivity. Qed.

(* ================================================================== *)
(** * Properties of the effect layer *)
(* ================================================================== *)

Lemma appends_ret {A : Type} (a : A) : appends (ret a).
Proof. intro t. unfold result, events, ret. simpl. now rewrite app_nil_r. Qed.

Lemma appends_throw {A : Type} (e : jsstring) : appends (@throw A e).
Proof. intro t. unfold result, events, throw. simpl. now rewrite app_nil_r. Qed.

Lemma appends_call {A : Type} (e : event) (o : outcome A) : appends (call e o).
Proof. intro t. reflexivity. Qed.

Lemma appends_bind {A B : Type} (m : M A) (k : A -> M B) :
  appends m -> (forall a, appends (k a)) -> appends (bind m k).
Proof.
  intros Hm Hk t. unfold result, events, bind.
  rewrite (Hm t). unfold result, events.
  destruct (m []) as [[a | e] t1]; simpl.
  - rewrite (Hk a (t ++ t1)), (Hk a t1). simpl. now rewrite app_assoc.
  - reflexivity.
Qed.

Lemma appends_try_catch {A : Type} (m : M A) (h : jsstring -> M A) :
  appends m -> (forall e, appends (h e)) -> appends (try_catch m h).
Proof.
  intros Hm Hh t. unfold result, events, try_catch.
  rewrite (Hm t). unfold result, events.
  destruct (m []) as [[a | e] t1]; simpl.
  - reflexivity.
  - rewrite (Hh e (t ++ t1)), (Hh e t1). simpl. now rewrite app_assoc.
Qed.

Lemma appends_last_content (msgs : list BaseMessage) :
  appends (last_content msgs).
Proof.
  unfold last_content. destruct (rev msgs); auto using appends_ret, appends_throw.
Qed.

Lemma appends_parse_json (text : jsstring) : appends (parse_json text).
Proof.
  unfold parse_json. destruct (JSON_parse text); auto using appends_ret, appends_throw.
Qed.

(** Solves [appends] goals on a node by following its control flow. *)
Ltac appends_tac :=
  repeat first
    [ apply appends_ret | apply appends_throw | apply appends_call
    | apply appends_last_content | apply appends_parse_json
    | apply appends_try_catch | apply appends_bind
    | match goal with
      | |- appends (if ?b then _ else _) => destruct b
      | |- appends (match ?x with _ => _ end) => destruct x
      | |- forall _, _ => intro
      end ].

Section Properties.

Variable retriever : VectorStoreRetriever.
Variable llm : ChatOpenAI.
Variable host : Host.

Local Abbreviation node_fn := (node_fn retriever llm host).
Local Abbreviation run_from := (run_from retriever llm host).
Local Abbreviation invoke := (invoke retriever llm host).
Local Abbreviation update_of := (update_of retriever llm host).
Local Abbreviation step := (step retriever llm host).
Local Abbreviation evaluated := (evaluated retriever llm host).
Local Abbreviation before_generation := (before_generation retriever llm host).
Local Abbreviation generated := (generated retriever llm host).
Local Abbreviation run_events := (run_events retriever llm host).
Local Abbreviation retrieverNode := (retrieverNode retriever).
Local Abbreviation interestEvaluatorNode := (interestEvaluatorNode llm).
Local Abbreviation generatorNode := (generatorNode llm).
Local Abbreviation slackNotifierNode := (slackNotifierNode host).

Lemma appends_node (n : Node) (s : GraphState) : appends (node_fn n s).
Proof.
  destruct n; simpl;
    unfold retrieverNode, generatorNode, interestEvaluatorNode,
      contactCollectorNode, slackNotifierNode, invoke_retriever, invoke_llm,
      post; appends_tac.
Qed.

(** Every node returns an update, whatever its external calls do. *)
Lemma node_returns (n : Node) (s : GraphState) :
  exists u, result (node_fn n s) = Returned u.
Proof.
  destruct n; simpl; unfold result.
  - unfold retrieverNode, try_catch, bind, last_content, invoke_retriever, call.
    destruct (rev (messages s)); simpl; [eexists; reflexivity|].
    destruct (retriever_invoke retriever (content b)); simpl;
      [destruct (Nat.eqb _ _)|]; eexists; reflexivity.
  - unfold generatorNode, try_catch, bind, last_content, invoke_llm, call.
    destruct (rev (messages s)); simpl; [eexists; reflexivity|].
    destruct (llm_invoke llm _); simpl; eexists; reflexivity.
  - unfold interestEvaluatorNode, try_catch, bind, invoke_llm, call, parse_json.
    destruct (collectingContact s); simpl; [eexists; reflexivity|].
    destruct (Nat.ltb _ _); simpl; [eexists; reflexivity|].
    destruct (llm_invoke llm _); simpl; [|eexists; reflexivity].
    destruct (str_match scoreRegex a); simpl; [|eexists; reflexivity].
    destruct (JSON_parse _); simpl; eexists; reflexivity.
  - unfold contactCollectorNode, try_catch.
    destruct (str_match emailRegex _); simpl; [eexists; reflexivity|].
    destruct (negb _); simpl; eexists; reflexivity.
  - unfold slackNotifierNode, try_catch, bind, post, call.
    destruct (negb (collected _)); simpl; [eexists; reflexivity|].
    destruct (negb (truthy _)); simpl; [eexists; reflexivity|].
    destruct (fetch host _ _); simpl; eexists; reflexivity.
  - eexists; reflexivity.
Qed.

Lemma node_result (n : Node) (s : GraphState) :
  result (node_fn n s) = Returned (update_of n s).
Proof.
  unfold update_of. destruct (node_returns n s) as [u ->]. reflexivity.
Qed.

Lemma node_run (n : Node) (s : GraphState) (t : list event) :
  node_fn n s t = (Returned (update_of n s), t ++ events (node_fn n s)).
Proof. rewrite (appends_node n s t), node_result. reflexivity. Qed.

Lemma run_from_step (limit : nat) (n : Node) (s : GraphState)
      (t : list event) :
  n <> END ->
  run_from (S limit) n s t =
  run_from limit (next_node n (step n s)) (step n s)
           (t ++ events (node_fn n s)).
Proof.
  intro Hn. destruct n; try congruence;
    cbn [run_from]; unfold bind; rewrite node_run; reflexivity.
Qed.

(** Unfolds a node down to the outcomes of its external calls and splits on
    every test it makes. *)
Ltac node_cases :=
  unfold step, update_of, result, events; cbn [node_fn];
  unfold retrieverNode, generatorNode, interestEvaluatorNode,
    contactCollectorNode, slackNotifierNode, try_catch, bind, last_content,
    invoke_retriever, invoke_llm, post, call, parse_json, ret, throw;
  repeat (cbv beta iota delta [fst snd];
          match goal with
          | |- context [match ?x with _ => _ end] =>
              lazymatch x with
              | context [match _ with _ => _ end] => fail
              | _ => destruct x eqn:?
              end
          end);
  cbv beta iota delta [fst snd].

(** *** Which channels a node writes *)

Lemma contactInfo_only_collector (n : Node) (s : GraphState) :
  n <> contact_collector -> upd_contactInfo (update_of n s) = None.
Proof. intro Hn. destruct n; try congruence; node_cases; reflexivity. Qed.

Lemma collectingContact_only_collector (n : Node) (s : GraphState) :
  n <> contact_collector -> upd_collectingContact (update_of n s) = None.
Proof. intro Hn. destruct n; try congruence; node_cases; reflexivity. Qed.

Lemma interestScore_only_evaluator (n : Node) (s : GraphState) :
  n <> interest_evaluator -> upd_interestScore (update_of n s) = None.
Proof. intro Hn. destruct n; try congruence; node_cases; reflexivity. Qed.

Lemma collector_contactInfo (s : GraphState) (info : ContactInfo) :
  upd_contactInfo (update_of contact_collector s) = Some info ->
  collected info = true /\
  upd_collectingContact (update_of contact_collector s) = Some false /\
  str_match emailRegex (lastUserMessage s) <> None.
Proof.
  node_cases; cbn [upd_contactInfo upd_collectingContact];
    intro H; inversion H; subst; repeat split; congruence.
Qed.

Lemma collector_no_email (s : GraphState) :
  str_match emailRegex (lastUserMessage s) = None ->
  update_of contact_collector s =
  if negb (collectingContact s) then
    contact_update None true (Some (requestMessage (messages s)))
  else no_update.
Proof. intro H. node_cases; congruence. Qed.

Lemma notifier_no_update (s : GraphState) :
  update_of slack_notifier s = no_update.
Proof. node_cases; reflexivity. Qed.

Lemma apply_no_update (s : GraphState) : apply_update s no_update = s.
Proof. destruct s; reflexivity. Qed.

Lemma step_notifier (s : GraphState) : step slack_notifier s = s.
Proof. unfold step. rewrite notifier_no_update. apply apply_no_update. Qed.

(** *** The external calls of a node *)

Lemma posts_app (a b : list event) : posts (a ++ b) = posts a + posts b.
Proof. unfold posts. now rewrite filter_app, length_app. Qed.

Lemma posts_other (n : Node) (s : GraphState) :
  n <> slack_notifier -> posts (events (node_fn n s)) = 0.
Proof. intro Hn. destruct n; try congruence; node_cases; reflexivity. Qed.

Lemma posts_notifier (s : GraphState) :
  posts (events (node_fn slack_notifier s)) =
  if collected (contactInfo s) && truthy (nullish (SLACK_WEBHOOK_URL host) [])
  then 1 else 0.
Proof.
  unfold events; cbn [node_fn].
  unfold slackNotifierNode, try_catch, bind, post, call, ret.
  destruct (collected (contactInfo s)); cbn [negb andb]; [|reflexivity].
  destruct (truthy _); cbn [negb]; [|reflexivity].
  destruct (fetch host _ _); reflexivity.
Qed.

(** *** One run, stage by stage *)

Lemma shouldCollectContact_cases (s : GraphState) :
  shouldCollectContact s = contact_collector \/
  shouldCollectContact s = generator.
Proof.
  unfold shouldCollectContact.
  destruct (_ || _); [now left|]. destruct (num_geb _ _); [now left | now right].
Qed.

(** Every run returns: it ends in the state left by Generation, after the
    calls listed by [run_events]. *)
Lemma invoke_run (input : list BaseMessage) (s : GraphState)
      (t : list event) :
  invoke input s t = (Returned (generated input s), t ++ run_events input s).
Proof.
  unfold invoke, recursionLimit, run_events, generated, before_generation,
    evaluated, collects.
  fold (entered input s). set (s0 := entered input s).
  rewrite run_from_step by discriminate. cbn [next_node].
  set (s1 := step retriever_node s0).
  rewrite run_from_step by discriminate. cbn [next_node].
  set (s2 := step interest_evaluator s1).
  destruct (shouldCollectContact_cases s2) as [-> | ->].
  - rewrite run_from_step by discriminate. cbn [next_node].
    set (s3 := step contact_collector s2).
    rewrite run_from_step by discriminate. cbn [next_node].
    set (s4 := step generator s3).
    unfold afterContactCollection.
    destruct (collected (contactInfo s4)).
    + rewrite run_from_step by discriminate. cbn [next_node run_from].
      rewrite step_notifier. unfold ret. now rewrite <- !app_assoc.
    + cbn [run_from]. unfold ret. now rewrite app_nil_r, <- !app_assoc.
  - rewrite run_from_step by discriminate. cbn [next_node].
    set (s4 := step generator s2).
    unfold afterContactCollection.
    destruct (collected (contactInfo s4)).
    + rewrite run_from_step by discriminate. cbn [next_node run_from].
      rewrite step_notifier. unfold ret. now rewrite <- !app_assoc.
    + cbn [run_from]. unfold ret. now rewrite app_nil_r, <- !app_assoc.
Qed.

(** *** Channels across a step *)

Lemma step_contactInfo (n : Node) (s : GraphState) :
  n <> contact_collector -> contactInfo (step n s) = contactInfo s.
Proof.
  intro Hn. unfold step, apply_update; cbn [contactInfo].
  now rewrite contactInfo_only_collector.
Qed.

Lemma step_collectingContact (n : Node) (s : GraphState) :
  n <> contact_collector -> collectingContact (step n s) = collectingContact s.
Proof.
  intro Hn. unfold step, apply_update; cbn [collectingContact].
  now rewrite collectingContact_only_collector.
Qed.

Lemma step_interestScore (n : Node) (s : GraphState) :
  n <> interest_evaluator -> interestScore (step n s) = interestScore s.
Proof.
  intro Hn. unfold step, apply_update; cbn [interestScore].
  now rewrite interestScore_only_evaluator.
Qed.

(** Contact Collection either captures an email, which sets [collected] and
    leaves collecting mode, or leaves [contactInfo] as it was. *)
Lemma step_collector (s : GraphState) :
  (collected (contactInfo (step contact_collector s)) = true /\
   collectingContact (step contact_collector s) = false /\
   str_match emailRegex (lastUserMessage s) <> None)
  \/
  (contactInfo (step contact_collector s) = contactInfo s /\
   str_match emailRegex (lastUserMessage s) = None /\
   collectingContact (step contact_collector s) = true).
Proof.
  unfold step, apply_update; cbn [contactInfo collectingContact].
  destruct (upd_contactInfo (update_of contact_collector s)) as [info|] eqn:Hinfo.
  - left. destruct (collector_contactInfo s info Hinfo) as (Hc & Hcc & Hm).
    rewrite Hcc. cbn. auto.
  - right. destruct (str_match emailRegex (lastUserMessage s)) eqn:Hm.
    + exfalso. revert Hinfo. node_cases; cbn; congruence.
    + rewrite (collector_no_email s Hm).
      destruct (collectingContact s) eqn:Hcc; cbn; rewrite ?Hcc; auto.
Qed.

Lemma collector_keeps_collected (s : GraphState) :
  collected (contactInfo s) = true ->
  collected (contactInfo (step contact_collector s)) = true.
Proof.
  intro H. destruct (step_collector s) as [(Hc & _) | (Hc & _)]; congruence.
Qed.

Lemma evaluated_contact (input : list BaseMessage) (s : GraphState) :
  contactInfo (evaluated input s) = contactInfo s /\
  collectingContact (evaluated input s) = collectingContact s.
Proof.
  unfold evaluated.
  rewrite !step_contactInfo, !step_collectingContact by discriminate.
  split; reflexivity.
Qed.

Lemma generated_contactInfo (input : list BaseMessage) (s : GraphState) :
  contactInfo (generated input s) = contactInfo (before_generation input s) /\
  collectingContact (generated input s) =
  collectingContact (before_generation input s).
Proof.
  unfold generated.
  rewrite step_contactInfo, step_collectingContact by discriminate. auto.
Qed.

(** A run never resets [collected]. *)
Lemma run_keeps_collected (input : list BaseMessage) (s : GraphState) :
  collected (contactInfo s) = true ->
  collected (contactInfo (generated input s)) = true.
Proof.
  intro H. destruct (generated_contactInfo input s) as [-> _].
  unfold before_generation. destruct (evaluated_contact input s) as [He _].
  destruct (collects _).
  - apply collector_keeps_collected. congruence.
  - congruence.
Qed.

(** The POSTs of a run: one when the run ends with [collected] set and a
    webhook is configured, none otherwise. *)
Lemma run_posts (input : list BaseMessage) (s : GraphState) :
  posts (run_events input s) =
  if collected (contactInfo (generated input s))
     && truthy (nullish (SLACK_WEBHOOK_URL host) [])
  then 1 else 0.
Proof.
  unfold run_events. rewrite !posts_app.
  rewrite !posts_other by discriminate.
  destruct (collects _); [rewrite posts_other by discriminate|];
    (destruct (collected (contactInfo (generated input s))) eqn:Hc;
     [rewrite posts_notifier, Hc | ]; reflexivity).
Qed.

(** *** Numbers *)

Lemma num_leb_refl (x : number) : x <> NaN -> num_leb x x = true.
Proof.
  destruct x; cbn; try congruence. intros _. apply Qle_bool_iff, Qle_refl.
Qed.

Lemma num_leb_trans (x y z : number) :
  num_leb x y = true -> num_leb y z = true -> num_leb x z = true.
Proof.
  destruct x, y, z; cbn; try congruence.
  rewrite !Qle_bool_iff. apply Qle_trans.
Qed.

Lemma num_leb_total (x y : number) :
  x <> NaN -> y <> NaN -> num_leb x y = false -> num_leb y x = true.
Proof.
  destruct x, y; cbn; try congruence. intros _ _ H.
  apply Qle_bool_iff. apply Qlt_le_weak, Qnot_le_lt.
  intro Hle. apply Qle_bool_iff in Hle. congruence.
Qed.

Lemma Math_max_NaN (a b : number) :
  Math_max a b = NaN <-> a = NaN \/ b = NaN.
Proof.
  destruct a, b; cbn; try (split; [auto | easy]);
    try (split; [intro H; destruct (Qle_bool _ _); discriminate
                | intros [H | H]; discriminate]);
    split; try discriminate; intros [H | H]; discriminate.
Qed.

(** Away from NaN, [Math.max] is one of its arguments and bounds both. *)
Lemma Math_max_upper (a b : number) :
  Math_max a b <> NaN ->
  num_leb a (Math_max a b) = true /\ num_leb b (Math_max a b) = true /\
  (Math_max a b = a \/ Math_max a b = b).
Proof.
  intro H.
  assert (Ha : a <> NaN) by (intro E; apply H, Math_max_NaN; auto).
  assert (Hb : b <> NaN) by (intro E; apply H, Math_max_NaN; auto).
  assert (E : Math_max a b = if num_leb a b then b else a)
    by (destruct a, b; try congruence; reflexivity).
  rewrite E. destruct (num_leb a b) eqn:Hab.
  - repeat split; auto using num_leb_refl.
  - repeat split; auto using num_leb_refl, num_leb_total.
Qed.

(** The clamp of the evaluator on a number that is not NaN. *)
Lemma clamp_in_range (x : number) :
  x <> NaN -> in_0_10 (Math_max (Fin 0) (Math_min (Fin 10) x)).
Proof.
  unfold in_0_10. destruct x as [| | q |]; try congruence; intros _; cbn.
  - exists 0%Q. repeat split; [apply Qle_refl | discriminate].
  - destruct (Qle_bool 10 q) eqn:H10; cbn.
    + exists 10%Q. repeat split; [discriminate | apply Qle_refl].
    + destruct (Qle_bool 0 q) eqn:H0.
      * exists q. repeat split; [now apply Qle_bool_iff |].
        apply Qlt_le_weak, Qnot_le_lt. intro Hle.
        apply Qle_bool_iff in Hle. congruence.
      * exists 0%Q. repeat split; [apply Qle_refl | discriminate].
  - exists 10%Q. repeat split; [discriminate | apply Qle_refl].
Qed.

Lemma zero_in_0_10 : in_0_10 (Fin 0).
Proof. exists 0%Q. repeat split; [apply Qle_refl | discriminate]. Qed.

(** The score derived from a reply is in range, or NaN when the [score]
    member of the parsed object has no numeric value. *)
Lemma score_of_reply_cases (reply : jsstring) :
  in_0_10 (score_of_reply reply) \/ score_of_reply reply = NaN.
Proof.
  unfold score_of_reply.
  destruct (str_match scoreRegex reply); [|left; apply zero_in_0_10].
  destruct (JSON_parse _) as [r|]; [|left; apply zero_in_0_10].
  unfold clamp_score.
  destruct (ToNumber (get_property r (js "score"))) eqn:E;
    [right; reflexivity | left; apply clamp_in_range; discriminate ..].
Qed.

(** *** The evaluator *)

Lemma evaluator_skips (s : GraphState) (t : list event) :
  collectingContact s = true ->
  interestEvaluatorNode s t = (Returned no_update, t).
Proof.
  intro H. unfold interestEvaluatorNode, try_catch. now rewrite H.
Qed.

Lemma evaluator_too_short (s : GraphState) (t : list event) :
  collectingContact s = false ->
  List.length (messages s) < 3 ->
  interestEvaluatorNode s t = (Returned (score_update (Fin 0)), t).
Proof.
  intros H Hlen. unfold interestEvaluatorNode, try_catch. rewrite H.
  apply Nat.ltb_lt in Hlen. now rewrite Hlen.
Qed.

(** With three messages or more and outside collecting mode, the evaluator
    calls the model once and scores its reply. *)
Lemma evaluator_scores (s : GraphState) (t : list event) :
  collectingContact s = false ->
  3 <= List.length (messages s) ->
  interestEvaluatorNode s t =
  (Returned
     (score_update
        match llm_invoke llm (PromptText (evaluationPrompt (conversationText s)))
        with
        | Returned reply => score_of_reply reply
        | Thrown _ => Fin 0
        end),
   t ++ [LlmInvoke (PromptText (evaluationPrompt (conversationText s)))]).
Proof.
  intros H Hlen.
  unfold interestEvaluatorNode, try_catch, bind, invoke_llm, call, parse_json,
    score_of_reply.
  rewrite H. apply Nat.ltb_ge in Hlen. rewrite Hlen.
  destruct (llm_invoke llm _) as [reply|]; [|reflexivity].
  destruct (str_match scoreRegex reply); [|reflexivity].
  destruct (JSON_parse _); reflexivity.
Qed.

(** *** The interest score across a run *)

Lemma evaluator_merges (s : GraphState) :
  interestScore (step interest_evaluator s) = interestScore s \/
  exists x,
    interestScore (step interest_evaluator s) = Math_max (interestScore s) x.
Proof.
  unfold step, apply_update; cbn [interestScore].
  destruct (upd_interestScore _) as [x|]; [right; exists x | left]; reflexivity.
Qed.

Lemma run_score (input : list BaseMessage) (s : GraphState) :
  interestScore (generated input s) = interestScore s \/
  exists x, interestScore (generated input s) = Math_max (interestScore s) x.
Proof.
  unfold generated. rewrite step_interestScore by discriminate.
  assert (E : interestScore (before_generation input s)
              = interestScore (evaluated input s)).
  { unfold before_generation. destruct (collects _); [|reflexivity].
    now rewrite step_interestScore by discriminate. }
  rewrite E. unfold evaluated.
  set (s1 := step retriever_node (entered input s)).
  assert (E1 : interestScore s1 = interestScore s)
    by (unfold s1; now rewrite step_interestScore by discriminate).
  rewrite <- E1. apply evaluator_merges.
Qed.

(** A run keeps the score or raises it, unless NaN enters. *)
Lemma run_score_monotone (input : list BaseMessage) (s : GraphState) :
  interestScore (generated input s) <> NaN ->
  interestScore s <> NaN /\
  num_leb (interestScore s) (interestScore (generated input s)) = true.
Proof.
  intro H. destruct (run_score input s) as [E | [x E]]; rewrite E in *.
  - split; [assumption | now apply num_leb_refl].
  - split.
    + intro Hs. apply H, Math_max_NaN. auto.
    + now apply Math_max_upper.
Qed.

(** *** Retrieval and Generation *)

Lemma retriever_on_empty (s : GraphState) (t : list event) :
  messages s = [] ->
  retrieverNode s t =
  (Returned (docs_update [] (Some [js "Retrieval failed: " ++ TypeError_content])),
   t).
Proof.
  intro H. unfold retrieverNode, try_catch, bind, last_content.
  rewrite H. reflexivity.
Qed.

Lemma generator_on_empty (s : GraphState) (t : list event) :
  messages s = [] ->
  generatorNode s t = (Returned (apology_update TypeError_content), t).
Proof.
  intro H. unfold generatorNode, try_catch, bind, last_content.
  rewrite H. reflexivity.
Qed.

(** With a last message, the generator calls the model once; the reply
    decides between the answer and the apology. *)
Lemma generator_calls_model (s : GraphState) (t : list event)
      (m : BaseMessage) (earlier : list BaseMessage) :
  rev (messages s) = m :: earlier ->
  generatorNode s t =
  (Returned
     match llm_invoke llm (generator_input s (content m)) with
     | Returned reply =>
         answer_update (if truthy (appendMessage s)
                        then reply ++ nl ++ nl ++ appendMessage s
                        else reply)
     | Thrown message => apology_update message
     end,
   t ++ [LlmInvoke (generator_input s (content m))]).
Proof.
  intro H. unfold generatorNode, try_catch, bind, last_content, invoke_llm, call.
  rewrite H. cbn [ret]. unfold ret.
  destruct (llm_invoke llm _); reflexivity.
Qed.

(** Generation always writes [answer] and appends the same text as an
    assistant message. *)
Lemma generator_answers (s : GraphState) :
  exists text,
    upd_answer (update_of generator s) = Some text /\
    upd_messages (update_of generator s) = Some [AIMessage text].
Proof. node_cases; eexists; split; reflexivity. Qed.

Lemma generated_answer (s : GraphState) :
  messages (step generator s) =
  messages s ++ [AIMessage (answer (step generator s))].
Proof.
  unfold step, apply_update; cbn [messages answer].
  destruct (generator_answers s) as (text & -> & ->). reflexivity.
Qed.

(** *** Messages and documents across a run *)

Lemma messages_only_generator (n : Node) (s : GraphState) :
  n <> generator -> upd_messages (update_of n s) = None.
Proof. intro Hn. destruct n; try congruence; node_cases; reflexivity. Qed.

Lemma retrievedDocs_only_retriever (n : Node) (s : GraphState) :
  n <> retriever_node -> upd_retrievedDocs (update_of n s) = None.
Proof. intro Hn. destruct n; try congruence; node_cases; reflexivity. Qed.

Lemma step_messages (n : Node) (s : GraphState) :
  n <> generator -> messages (step n s) = messages s.
Proof.
  intro Hn. unfold step, apply_update; cbn [messages].
  now rewrite messages_only_generator.
Qed.

Lemma step_retrievedDocs (n : Node) (s : GraphState) :
  n <> retriever_node -> retrievedDocs (step n s) = retrievedDocs s.
Proof.
  intro Hn. unfold step, apply_update; cbn [retrievedDocs].
  now rewrite retrievedDocs_only_retriever.
Qed.

Lemma before_generation_messages (input : list BaseMessage) (s : GraphState) :
  messages (before_generation input s) = messages s ++ input.
Proof.
  unfold before_generation, evaluated.
  destruct (collects _); rewrite !step_messages by discriminate; reflexivity.
Qed.

Lemma before_generation_docs (input : list BaseMessage) (s : GraphState) :
  retrievedDocs (before_generation input s) =
  retrievedDocs (step retriever_node (entered input s)).
Proof.
  unfold before_generation, evaluated.
  destruct (collects _); rewrite !step_retrievedDocs by discriminate;
    reflexivity.
Qed.

Lemma update_of_result (n : Node) (s : GraphState) (u : Update)
      (t t' : list event) :
  node_fn n s t = (Returned u, t') -> update_of n s = u.
Proof. rewrite node_run. intro E. now inversion E. Qed.

End Properties.

(* ================================================================== *)
(** * Conversations *)
(* ================================================================== *)

(** A relation between checkpoints that holds across one run, is reflexive
    and transitive, holds across every sequence of runs; and every
    sequence of runs returns. *)
Lemma converse_preserves (R : GraphState -> GraphState -> Prop) :
  (forall s, R s s) ->
  (forall a b c, R a b -> R b c -> R a c) ->
  (forall r l h input s, R s (generated r l h input s)) ->
  forall turns s t,
    exists s' t', converse turns s t = (Returned s', t') /\ R s s'.
Proof.
  intros Hrefl Htrans Hrun turns.
  induction turns as [|turn rest IH]; intros s t.
  - exists s, t. split; [reflexivity | apply Hrefl].
  - cbn [converse]. unfold bind. rewrite invoke_run.
    destruct (IH (generated (turn_retriever turn) (turn_llm turn)
                            (turn_host turn) (turn_input turn) s)
                 (t ++ run_events (turn_retriever turn) (turn_llm turn)
                                  (turn_host turn) (turn_input turn) s))
      as (s' & t' & E & HR).
    exists s', t'. split; [exact E|].
    eapply Htrans; [apply Hrun | exact HR].
Qed.

Lemma starts_with_app (p r : jsstring) : starts_with p (p ++ r) = true.
Proof.
  induction p as [|c p IH]; [reflexivity|].
  cbn. now rewrite N.eqb_refl, IH.
Qed.

Lemma includes_suffix (a p : jsstring) : includes (a ++ p) p = true.
Proof.
  induction a as [|c a IH].
  - cbn [app]. destruct p; cbn.
    + reflexivity.
    + rewrite N.eqb_refl. cbn.
      replace p with (p ++ []) at 2 by apply app_nil_r.
      now rewrite starts_with_app.
  - cbn [app includes]. rewrite IH. apply orb_true_r.
Qed.

(* ================================================================== *)
(** * Notification and the contact flags *)
(* ================================================================== *)

Lemma converse_keeps_collected (turns : list Turn) (s : GraphState)
      (t : list event) :
  exists s' t',
    converse turns s t = (Returned s', t') /\
    (collected (contactInfo s) = true -> collected (contactInfo s') = true).
Proof.
  apply (converse_preserves
           (fun a b => collected (contactInfo a) = true ->
                       collected (contactInfo b) = true)); cbv beta.
  - auto.
  - auto.
  - intros. now apply run_keeps_collected.
Qed.

(** C1, as stated, fails.  After the lead of [lead_conversation] has been
    captured, the follow-up message "thanks" starts a run with [collected]
    already true; the run leaves [contactInfo] as it was, and yet it POSTs
    to the webhook again: the router after Generation reads the persisted
    [contactInfo.collected]. *)
Lemma notified_again_without_new_contact :
  ~ (forall r l h input s s' t,
        collected (contactInfo s) = true ->
        invoke r l h input s [] = (Returned s', t) ->
        contactInfo s' = contactInfo s ->
        posts t = 0).
Proof.
  intro H.
  pose proof (invoke_run (turn_retriever follow_up) (turn_llm follow_up)
                (turn_host follow_up) (turn_input follow_up)
                lead_checkpoint []) as E.
  assert (P : posts ([] ++ run_events (turn_retriever follow_up)
                             (turn_llm follow_up) (turn_host follow_up)
                             (turn_input follow_up) lead_checkpoint) = 0)
    by (refine (H _ _ _ _ _ _ _ _ E _); vm_compute; reflexivity).
  vm_compute in P. discriminate.
Qed.

(** C1, amended: the Notification stage runs in every run that ends
    Generation with [contactInfo.collected] true, whether the contact was
    collected in this run or in an earlier one.  Every run returns, and it
    POSTs to the webhook exactly once when it ends with [collected] true and
    a webhook URL is configured, and not at all otherwise; a run that
    starts with [collected] true ends with it true. *)
Theorem notification_follows_collected :
  forall r l h input s t,
  exists s' calls,
    invoke r l h input s t = (Returned s', t ++ calls) /\
    posts calls =
      (if collected (contactInfo s')
          && truthy (nullish (SLACK_WEBHOOK_URL h) [])
       then 1 else 0) /\
    (collected (contactInfo s) = true -> collected (contactInfo s') = true).
Proof.
  intros r l h input s t.
  exists (generated r l h input s), (run_events r l h input s).
  split; [apply invoke_run|]. split; [apply run_posts|].
  apply run_keeps_collected.
Qed.

Lemma notification_follows_collected_witness :
  exists s' calls,
    invoke (turn_retriever follow_up) (turn_llm follow_up)
           (turn_host follow_up) (turn_input follow_up) lead_checkpoint []
    = (Returned s', [] ++ calls) /\
    posts calls = 1 /\ collected (contactInfo s') = true.
Proof.
  destruct (notification_follows_collected
              (turn_retriever follow_up) (turn_llm follow_up)
              (turn_host follow_up) (turn_input follow_up)
              lead_checkpoint [])
    as (s' & calls & E & P & K).
  assert (C : collected (contactInfo lead_checkpoint) = true)
    by (vm_compute; reflexivity).
  exists s', calls. split; [exact E|].
  rewrite (K C) in P. split; [exact P | exact (K C)].
Defined.

(** C2, as stated, fails.  The three turns of [lead_conversation] followed
    by "thanks" lead from the default state to a checkpoint with both
    [collectingContact] and [contactInfo.collected] true: the router sends a
    collected thread through Contact Collection, which finds no email in
    "thanks" and asks again. *)
Lemma collecting_and_collected_reachable :
  ~ (forall turns s t,
        converse turns default_state [] = (Returned s, t) ->
        ~ (collectingContact s = true /\ collected (contactInfo s) = true)).
Proof.
  intro H.
  eapply (H (lead_conversation ++ [follow_up])).
  - vm_compute. reflexivity.
  - vm_compute. split; reflexivity.
Qed.

(** C2, amended: a run that starts with [contactInfo.collected] false never
    ends with [collectingContact] and [collected] both true, and whenever
    Contact Collection writes [contactInfo] it sets [collectingContact] to
    false in the same update: collecting mode ends in the run that captures
    the contact.  (A later run may enter it again.) *)
Theorem collecting_ends_at_capture :
  forall r l h input s t,
    (collected (contactInfo s) = false ->
     exists s' t',
       invoke r l h input s t = (Returned s', t') /\
       ~ (collectingContact s' = true /\ collected (contactInfo s') = true))
    /\
    (forall u t' info,
        contactCollectorNode s t = (Returned u, t') ->
        upd_contactInfo u = Some info ->
        upd_collectingContact u = Some false).
Proof.
  intros r l h input s t. split.
  - intro Hs.
    exists (generated r l h input s), (t ++ run_events r l h input s).
    split; [apply invoke_run|].
    destruct (generated_contactInfo r l h input s) as [-> ->].
    unfold before_generation.
    destruct (evaluated_contact r l h input s) as [Hci Hcc].
    destruct (collects _).
    + destruct (step_collector r l h (evaluated r l h input s))
        as [(_ & Hoff & _) | (Hsame & _ & _)].
      * intros [Hon _]. congruence.
      * intros [_ Hon]. congruence.
    + intros [_ Hon]. congruence.
  - intros u t' info E Hinfo. revert E Hinfo.
    unfold contactCollectorNode, try_catch, ret.
    destruct (str_match emailRegex (lastUserMessage s)).
    + intros E. inversion E; subst. reflexivity.
    + destruct (negb (collectingContact s)); intros E; inversion E; subst;
        cbn; discriminate.
Qed.

Lemma collecting_ends_at_capture_witness :
  collectingContact (state_after (firstn 2 lead_conversation) default_state)
  = true /\
  (exists s' t',
      invoke (turn_retriever follow_up) (turn_llm follow_up)
             (turn_host follow_up) [HumanMessage lead_text]
             (state_after (firstn 2 lead_conversation) default_state) []
      = (Returned s', t') /\
      ~ (collectingContact s' = true /\ collected (contactInfo s') = true) /\
      collectingContact s' = false /\
      collected (contactInfo s') = true /\
      email (contactInfo s') = Some (js "x@y.com"))
  /\
  (exists u t' info,
      contactCollectorNode
        (evaluated (turn_retriever follow_up) (turn_llm follow_up)
                   (turn_host follow_up) [HumanMessage lead_text]
                   (state_after (firstn 2 lead_conversation) default_state))
        []
      = (Returned u, t') /\
      upd_contactInfo u = Some info /\
      email info = Some (js "x@y.com") /\
      upd_collectingContact u = Some false).
Proof.
  split; [vm_compute; reflexivity|]. split.
  - assert (Hs : collected
                   (contactInfo (state_after (firstn 2 lead_conversation)
                                             default_state)) = false)
      by (vm_compute; reflexivity).
    destruct (proj1 (collecting_ends_at_capture
                       (turn_retriever follow_up) (turn_llm follow_up)
                       (turn_host follow_up) [HumanMessage lead_text]
                       (state_after (firstn 2 lead_conversation)
                                    default_state) [])
                    Hs) as (s' & t' & E & H).
    exists s', t'. split; [exact E|]. split; [exact H|].
    rewrite invoke_run in E.
    apply (f_equal (fun p => match fst p with
                             | Returned x => x
                             | Thrown _ => default_state
                             end)) in E.
    cbv beta iota delta [fst] in E. rewrite <- E.
    vm_compute. repeat split; reflexivity.
  - eexists. eexists. eexists.
    split; [vm_compute; reflexivity|].
    split; [vm_compute; reflexivity|].
    split; [reflexivity|].
    eapply (proj2 (collecting_ends_at_capture
                     (turn_retriever follow_up) (turn_llm follow_up)
                     (turn_host follow_up) []
                     (evaluated (turn_retriever follow_up)
                                (turn_llm follow_up) (turn_host follow_up)
                                [HumanMessage lead_text]
                                (state_after (firstn 2 lead_conversation)
                                             default_state)) []));
      vm_compute; reflexivity.
Defined.

(** C6: [contactInfo.collected] is never set back to false.  A node that
    returns an update with the [contactInfo] key is the contact collector
    and the value it writes has [collected] true; hence a run, and every
    sequence of runs, that starts with [collected] true ends with it
    true. *)
Theorem collected_never_reset :
  (forall r l h n s t u t' info,
      node_fn r l h n s t = (Returned u, t') ->
      upd_contactInfo u = Some info ->
      n = contact_collector /\ collected info = true)
  /\
  (forall r l h input s t,
      collected (contactInfo s) = true ->
      exists s' t',
        invoke r l h input s t = (Returned s', t') /\
        collected (contactInfo s') = true)
  /\
  (forall turns s t,
      collected (contactInfo s) = true ->
      exists s' t',
        converse turns s t = (Returned s', t') /\
        collected (contactInfo s') = true).
Proof.
  split; [|split].
  - intros r l h n s t u t' info E Hinfo.
    rewrite node_run in E. inversion E; subst u.
    destruct n;
      try (rewrite contactInfo_only_collector in Hinfo by discriminate;
           discriminate).
    split; [reflexivity|].
    now destruct (collector_contactInfo r l h s info Hinfo).
  - intros r l h input s t H.
    exists (generated r l h input s), (t ++ run_events r l h input s).
    split; [apply invoke_run | now apply run_keeps_collected].
  - intros turns s t H.
    destruct (converse_keeps_collected turns s t) as (s' & t' & E & HR).
    exists s', t'. auto.
Qed.

Lemma collected_never_reset_witness :
  exists s' t',
    converse [follow_up; follow_up] lead_checkpoint [] = (Returned s', t') /\
    collected (contactInfo s') = true.
Proof.
  apply (proj2 (proj2 collected_never_reset)).
  vm_compute. reflexivity.
Defined.

(* ================================================================== *)
(** * The interest score *)
(* ================================================================== *)

Lemma converse_score_monotone (turns : list Turn) (s : GraphState)
      (t : list event) :
  exists s' t',
    converse turns s t = (Returned s', t') /\
    (interestScore s' <> NaN ->
     interestScore s <> NaN /\
     num_leb (interestScore s) (interestScore s') = true).
Proof.
  apply (converse_preserves
           (fun a b => interestScore b <> NaN ->
                       interestScore a <> NaN /\
                       num_leb (interestScore a) (interestScore b) = true));
    cbv beta.
  - intros a H. split; [assumption | now apply num_leb_refl].
  - intros a b c Hab Hbc Hc. destruct (Hbc Hc) as [Hb Hle2].
    destruct (Hab Hb) as [Ha Hle1]. split; [assumption|].
    eapply num_leb_trans; eassumption.
  - intros. now apply run_score_monotone.
Qed.

(** What holds away from NaN: for an existing interestScore and a newly
    computed score that are both numbers, the merged interestScore is the
    larger of the two; and across any sequence of runs that ends with a
    numeric interestScore, the interestScore never decreases. *)
Lemma interestScore_is_running_maximum :
  (forall current update,
      current <> NaN -> update <> NaN ->
      let merged := Reducer.interestScore (Some current) (Some update) in
      (merged = current \/ merged = update) /\
      num_leb current merged = true /\ num_leb update merged = true)
  /\
  (forall turns s t,
      exists s' t',
        converse turns s t = (Returned s', t') /\
        (interestScore s' <> NaN ->
         num_leb (interestScore s) (interestScore s') = true)).
Proof.
  split.
  - intros current update Hc Hu merged.
    assert (Hm : merged <> NaN).
    { unfold merged, Reducer.interestScore, nullish.
      intro E. apply Math_max_NaN in E. tauto. }
    destruct (Math_max_upper current update Hm) as (H1 & H2 & H3).
    repeat split; assumption.
  - intros turns s t.
    destruct (converse_score_monotone turns s t) as (s' & t' & E & H).
    exists s', t'. split; [exact E|]. intro Hs'. now apply H.
Qed.

(** C3: the code breaks the claim.  From the default state, the two turns
    of [browsing_conversation] reach interestScore 5.  In the next run the
    model words its score ([{"score": "high", ...}]); the evaluator returns
    NaN for it, the reducer computes [Math.max(5, NaN)], which is NaN, and
    the run ends with interestScore NaN: the merged value is not the larger
    of 5 and the new score, and [5 <= NaN] is false. *)
Theorem worded_score_erases_interestScore :
  exists s1 t1 s2 t2,
    converse browsing_conversation default_state [] = (Returned s1, t1) /\
    interestScore s1 = Fin 5 /\
    converse [worded_score_turn] s1 t1 = (Returned s2, t2) /\
    interestScore s2 = NaN /\
    Reducer.interestScore (Some (Fin 5)) (Some NaN) = NaN /\
    num_leb (interestScore s1) (interestScore s2) = false.
Proof.
  eexists; eexists; eexists; eexists.
  split; [vm_compute; reflexivity|].
  split; [vm_compute; reflexivity|].
  split; [vm_compute; reflexivity|].
  repeat split.
Qed.

(** C8: the code breaks the claim.  On the thread of
    [browsing_conversation] (five messages at Interest Evaluation, not
    collecting), the reply [{"score": "high", "reason": "..."}] matches the
    pattern and parses; its [score] member is the string "high", so
    [Math.max(0, Math.min(10, "high"))] is NaN: the stage returns
    [{ interestScore: NaN }], which is not in [0,10], and the run stores
    NaN in the state. *)
Theorem worded_score_yields_NaN :
  let s := entered (turn_input worded_score_turn) browsing_checkpoint in
  let reply := score_reply (quoted (js "high")) in
  collectingContact s = false /\
  List.length (messages s) = 5 /\
  JSON_parse reply =
    Some (JObj [(js "score", JStr (js "high"));
                (js "reason", JStr (js "asked about signing up"))]) /\
  result (interestEvaluatorNode (scripted_llm (Returned reply) (Returned [])) s)
    = Returned (score_update NaN) /\
  ~ in_0_10 NaN /\
  interestScore (state_after [worded_score_turn] browsing_checkpoint) = NaN.
Proof.
  cbv zeta. repeat split; try (vm_compute; reflexivity).
  intros (q & E & _). discriminate.
Qed.

(** C7: Interest Evaluation returns no update while [collectingContact] is
    true, and returns [interestScore = 0] when the state has fewer than
    three messages; in both cases it makes no external call (the trace is
    returned unchanged), so the result is the same for every model. *)
Theorem evaluator_skip_rules :
  forall l s t,
    (collectingContact s = true ->
     interestEvaluatorNode l s t = (Returned no_update, t)) /\
    (collectingContact s = false -> List.length (messages s) < 3 ->
     interestEvaluatorNode l s t = (Returned (score_update (Fin 0)), t)) /\
    (collectingContact s = true \/ List.length (messages s) < 3 ->
     forall l', interestEvaluatorNode l s t = interestEvaluatorNode l' s t).
Proof.
  intros l s t. split; [|split].
  - apply evaluator_skips.
  - apply evaluator_too_short.
  - intros H l'. destruct (collectingContact s) eqn:Hc.
    + now rewrite !evaluator_skips.
    + destruct H as [H | H]; [discriminate|].
      now rewrite !evaluator_too_short.
Qed.

Lemma evaluator_skip_rules_witness :
  interestEvaluatorNode failing_llm pending_state [] = (Returned no_update, [])
  /\
  interestEvaluatorNode failing_llm
    (entered [HumanMessage (js "Hello")] default_state) []
  = (Returned (score_update (Fin 0)), []).
Proof.
  split.
  - apply (proj1 (evaluator_skip_rules failing_llm pending_state [])).
    reflexivity.
  - apply (proj1 (proj2 (evaluator_skip_rules failing_llm
                           (entered [HumanMessage (js "Hello")] default_state)
                           []))).
    + reflexivity.
    + cbn. lia.
Defined.

(* ================================================================== *)
(** * Contact Collection on the lead message *)
(* ================================================================== *)

Lemma lead_text_email :
  str_match emailRegex lead_text = Some [js "x@y.com"].
Proof. vm_compute. reflexivity. Qed.

Lemma lead_text_name :
  option_map group1_trim (str_match nameRegex lead_text)
  = Some (js "Jane from Acme").
Proof. vm_compute. reflexivity. Qed.

Lemma lead_text_company :
  option_map group1_trim (str_match companyRegex lead_text)
  = Some (js "Acme").
Proof. vm_compute. reflexivity. Qed.

(** C4, as stated, fails.  On "my email is x@y.com, I'm Jane from Acme" the
    name pattern matches at "I'm" and its group [[a-z\s]+] runs over
    letters and spaces to the end of the message, so the name is
    "Jane from Acme", not "Jane". *)
Lemma lead_name_is_not_Jane :
  ~ (forall s t,
        lastUserMessage s = lead_text ->
        exists u t',
          contactCollectorNode s t = (Returned u, t') /\
          upd_contactInfo u =
            Some {| name := Some (js "Jane");
                    email := Some (js "x@y.com");
                    company := Some (js "Acme");
                    collected := true |}).
Proof.
  intro H.
  destruct (H (entered [HumanMessage lead_text] default_state) [] eq_refl)
    as (u & t' & E & Hinfo).
  vm_compute in E. inversion E; subst u. vm_compute in Hinfo. discriminate.
Qed.

(** C4, amended: on the last user message
    "my email is x@y.com, I'm Jane from Acme", Contact Collection produces
    contactInfo with email "x@y.com", name "Jane from Acme", company "Acme"
    and collected true, sets collectingContact to false and sets the
    thank-you note for that name, whatever collectingContact was. *)
Theorem lead_message_collected :
  forall s t,
    lastUserMessage s = lead_text ->
    contactCollectorNode s t =
    (Returned
       (contact_update
          (Some {| name := Some (js "Jane from Acme");
                   email := Some (js "x@y.com");
                   company := Some (js "Acme");
                   collected := true |})
          false
          (Some (thankYouMessage (Some (js "Jane from Acme"))))),
     t).
Proof.
  intros s t H. unfold contactCollectorNode, try_catch, ret.
  rewrite H, lead_text_email. cbv zeta. cbn [name nth].
  rewrite lead_text_name, lead_text_company. reflexivity.
Qed.

Lemma lead_message_collected_witness :
  contactCollectorNode (entered [HumanMessage lead_text] default_state) [] =
  (Returned
     (contact_update
        (Some {| name := Some (js "Jane from Acme");
                 email := Some (js "x@y.com");
                 company := Some (js "Acme");
                 collected := true |})
        false
        (Some (thankYouMessage (Some (js "Jane from Acme"))))),
   []).
Proof.
  apply (lead_message_collected
           (entered [HumanMessage lead_text] default_state) []).
  reflexivity.
Defined.

(* ================================================================== *)
(** * Generation and failures *)
(* ================================================================== *)

(** C5, as stated, fails.  [pending_state] enters Generation with the
    contact request pending; when the model call fails, the [catch] branch
    answers with the apology, which does not contain the pending text, and
    its update has no [appendMessage] key, so the text stays pending. *)
Lemma apology_keeps_appendMessage :
  ~ (forall l s t,
        truthy (appendMessage s) = true ->
        exists u t' text,
          generatorNode l s t = (Returned u, t') /\
          upd_answer u = Some text /\
          includes text (appendMessage s) = true /\
          appendMessage (apply_update s u) = []).
Proof.
  intro H.
  destruct (H failing_llm pending_state [] eq_refl)
    as (u & t' & text & E & Ha & Hi & Hclear).
  vm_compute in E. inversion E; subst u. vm_compute in Hclear. discriminate.
Qed.

(** C5, amended: for every run of Generation entered with a non-empty
    appendMessage in which the model call succeeds, the answer is the reply
    of the model, a blank line and the appended text, and appendMessage is
    cleared by the update; when Generation fails, the answer is the apology
    and appendMessage keeps its value. *)
Theorem appendMessage_consumed_on_success :
  forall l s t,
    truthy (appendMessage s) = true ->
    exists u t',
      generatorNode l s t = (Returned u, t') /\
      (forall m earlier reply,
          rev (messages s) = m :: earlier ->
          llm_invoke l (generator_input s (content m)) = Returned reply ->
          upd_answer u = Some (reply ++ nl ++ nl ++ appendMessage s) /\
          includes (reply ++ nl ++ nl ++ appendMessage s) (appendMessage s)
            = true /\
          appendMessage (apply_update s u) = []) /\
      (forall m earlier message,
          rev (messages s) = m :: earlier ->
          llm_invoke l (generator_input s (content m)) = Thrown message ->
          upd_answer u = Some errorAnswer /\
          appendMessage (apply_update s u) = appendMessage s) /\
      (messages s = [] ->
       upd_answer u = Some errorAnswer /\
       appendMessage (apply_update s u) = appendMessage s).
Proof.
  intros l s t Happ.
  destruct (rev (messages s)) as [|m earlier] eqn:Hrev.
  - assert (Hm : messages s = []).
    { rewrite <- (rev_involutive (messages s)), Hrev. reflexivity. }
    exists (apology_update TypeError_content), t.
    split; [now apply generator_on_empty|].
    repeat split; intros; try discriminate; reflexivity.
  - eexists; eexists. split; [apply (generator_calls_model l s t m earlier Hrev)|].
    split; [|split].
    + intros m' earlier' reply E Hl. inversion E; subst m' earlier'.
      rewrite Hl, Happ. repeat split.
      rewrite !app_assoc. apply includes_suffix.
    + intros m' earlier' message E Hl. inversion E; subst m' earlier'.
      rewrite Hl. split; reflexivity.
    + intro Hm. rewrite Hm in Hrev. discriminate.
Qed.

Lemma appendMessage_consumed_on_success_witness :
  exists u t',
    generatorNode (scripted_llm (Returned []) (Returned (js "Sure.")))
                  pending_state [] = (Returned u, t') /\
    upd_answer u = Some (js "Sure." ++ nl ++ nl ++ appendMessage pending_state)
    /\ appendMessage (apply_update pending_state u) = [].
Proof.
  destruct (appendMessage_consumed_on_success
              (scripted_llm (Returned []) (Returned (js "Sure.")))
              pending_state [] eq_refl)
    as (u & t' & E & Hok & _).
  exists u, t'. split; [exact E|].
  destruct (Hok (HumanMessage (js "Tell me more")) [] (js "Sure.")
                eq_refl eq_refl) as (Ha & _ & Hc).
  split; assumption.
Defined.

(** C9: no stage failure aborts a run.  Every node returns an update
    whatever its external calls do; a retriever that throws gives empty
    documents and an error record, a scoring call that throws gives score 0,
    and a generation call that throws gives the apology as [answer] and as
    the appended assistant message together with one error record; every
    run returns a state whose last message is the assistant message holding
    [answer]. *)
Theorem stages_never_abort :
  forall r l h,
    (forall n s t, exists u t', node_fn r l h n s t = (Returned u, t')) /\
    (forall s t m earlier message,
        rev (messages s) = m :: earlier ->
        retriever_invoke r (content m) = Thrown message ->
        retrieverNode r s t =
        (Returned (docs_update [] (Some [js "Retrieval failed: " ++ message])),
         t ++ [RetrieverInvoke (content m)])) /\
    (forall s t message,
        collectingContact s = false ->
        3 <= List.length (messages s) ->
        llm_invoke l (PromptText (evaluationPrompt (conversationText s)))
          = Thrown message ->
        interestEvaluatorNode l s t =
        (Returned (score_update (Fin 0)),
         t ++ [LlmInvoke (PromptText (evaluationPrompt (conversationText s)))]))
    /\
    (forall s t m earlier message,
        rev (messages s) = m :: earlier ->
        llm_invoke l (generator_input s (content m)) = Thrown message ->
        generatorNode l s t =
        (Returned
           {| upd_messages := Some [AIMessage errorAnswer];
              upd_retrievedDocs := None;
              upd_answer := Some errorAnswer;
              upd_errors := Some [js "Generation failed: " ++ message];
              upd_interestScore := None;
              upd_contactInfo := None;
              upd_collectingContact := None;
              upd_appendMessage := None |},
         t ++ [LlmInvoke (generator_input s (content m))])) /\
    (forall input s t,
        exists s' t' earlier,
          invoke r l h input s t = (Returned s', t') /\
          messages s' = earlier ++ [AIMessage (answer s')]).
Proof.
  intros r l h. split; [|split; [|split; [|split]]].
  - intros n s t. rewrite node_run. eauto.
  - intros s t m earlier message Hrev Hthrow.
    unfold retrieverNode, try_catch, bind, last_content, invoke_retriever, call.
    rewrite Hrev. cbn [ret]. unfold ret. now rewrite Hthrow.
  - intros s t message Hc Hlen Hthrow.
    rewrite evaluator_scores by assumption. now rewrite Hthrow.
  - intros s t m earlier message Hrev Hthrow.
    rewrite (generator_calls_model l s t m earlier Hrev), Hthrow. reflexivity.
  - intros input s t.
    exists (generated r l h input s), (t ++ run_events r l h input s),
      (messages (before_generation r l h input s)).
    split; [apply invoke_run | apply generated_answer].
Qed.

Lemma stages_never_abort_witness :
  generatorNode failing_llm pending_state [] =
  (Returned
     {| upd_messages := Some [AIMessage errorAnswer];
        upd_retrievedDocs := None;
        upd_answer := Some errorAnswer;
        upd_errors := Some [js "Generation failed: " ++ js "Connection error."];
        upd_interestScore := None;
        upd_contactInfo := None;
        upd_collectingContact := None;
        upd_appendMessage := None |},
   [] ++ [LlmInvoke (generator_input pending_state (js "Tell me more"))]).
Proof.
  apply (proj1 (proj2 (proj2 (proj2
           (stages_never_abort empty_retriever failing_llm webhook_host))))
           pending_state [] (HumanMessage (js "Tell me more")) []
           (js "Connection error.")).
  - reflexivity.
  - reflexivity.
Defined.

(** C10: with an empty message list no stage crashes.  Retrieval catches
    the access error and returns empty [retrievedDocs] with a
    "Retrieval failed: ..." error, without calling the retriever;
    Generation catches it and returns the apology as [answer] with one
    assistant message, without calling the model; every node returns; and
    a run invoked with no message on a thread without messages ends with
    empty [retrievedDocs], the apology as [answer] and that one assistant
    message. *)
Theorem empty_messages_handled :
  forall r l h s t,
    messages s = [] ->
    retrieverNode r s t =
    (Returned
       {| upd_messages := None;
          upd_retrievedDocs := Some [];
          upd_answer := None;
          upd_errors := Some [js "Retrieval failed: " ++ TypeError_content];
          upd_interestScore := None;
          upd_contactInfo := None;
          upd_collectingContact := None;
          upd_appendMessage := None |},
     t) /\
    generatorNode l s t =
    (Returned
       {| upd_messages := Some [AIMessage errorAnswer];
          upd_retrievedDocs := None;
          upd_answer := Some errorAnswer;
          upd_errors := Some [js "Generation failed: " ++ TypeError_content];
          upd_interestScore := None;
          upd_contactInfo := None;
          upd_collectingContact := None;
          upd_appendMessage := None |},
     t) /\
    (forall n, exists u t', node_fn r l h n s t = (Returned u, t')) /\
    (exists s' t',
        invoke r l h [] s t = (Returned s', t') /\
        retrievedDocs s' = [] /\
        answer s' = errorAnswer /\
        messages s' = [AIMessage errorAnswer]).
Proof.
  intros r l h s t Hm. split; [|split; [|split]].
  - now apply retriever_on_empty.
  - now apply generator_on_empty.
  - intro n. rewrite node_run. eauto.
  - exists (generated r l h [] s), (t ++ run_events r l h [] s).
    split; [apply invoke_run|].
    assert (H0 : messages (entered [] s) = []).
    { unfold entered, apply_update, input_update; cbn. rewrite Hm. reflexivity. }
    assert (H3 : messages (before_generation r l h [] s) = []).
    { rewrite before_generation_messages, Hm. reflexivity. }
    assert (Hd : retrievedDocs (before_generation r l h [] s) = []).
    { rewrite before_generation_docs. unfold step.
      rewrite (update_of_result r l h retriever_node (entered [] s) _ [] []
                 (retriever_on_empty r (entered [] s) [] H0)).
      reflexivity. }
    unfold generated, step.
    rewrite (update_of_result r l h generator
               (before_generation r l h [] s) _ [] []
               (generator_on_empty l (before_generation r l h [] s) [] H3)).
    unfold apply_update, apology_update, channel, Reducer.replace,
      Reducer.concat; cbn [retrievedDocs answer messages upd_retrievedDocs
                           upd_answer upd_messages].
    rewrite Hd, H3. repeat split.
Qed.

Lemma empty_messages_handled_witness :
  exists s' t',
    invoke empty_retriever failing_llm webhook_host [] default_state []
    = (Returned s', t') /\
    retrievedDocs s' = [] /\
    answer s' = errorAnswer /\
    messages s' = [AIMessage errorAnswer].
Proof.
  apply (proj2 (proj2 (proj2
           (empty_messages_handled empty_retriever failing_llm webhook_host
              default_state [] eq_refl)))).
Defined.

(* ================================================================== *)
(** * Soundness of the matcher *)
(* ================================================================== *)

Lemma strip_lit_sound (ic : bool) (p s rest : jsstring) :
  strip_lit ic p s = Some rest ->
  exists w, s = w ++ rest /\ lit_matches ic p w.
Proof.
  revert s. induction p as [|x p IH]; intros s E; cbn in E.
  - inversion E; subst. exists []. split; [reflexivity | constructor].
  - destruct s as [|y s]; [discriminate|].
    destruct (char_eqb ic x y) eqn:Hxy; [|discriminate].
    destruct (IH s E) as (w & -> & Hw).
    exists (y :: w). split; [reflexivity | now constructor].
Qed.

Lemma rep_greedy_sound {R : Type} (cls : N -> bool) (k : jsstring -> option R)
      (x : R) :
  forall s n,
    rep_greedy cls n s k = Some x ->
    exists w rest,
      s = w ++ rest /\ n <= List.length w /\ forallb cls w = true /\
      k rest = Some x.
Proof.
  induction s as [|c s IH]; intros n E; cbn [rep_greedy] in E.
  - destruct n; [|discriminate].
    exists [], []. repeat split; auto.
  - assert (Hstop : match n with O => k (c :: s) | S _ => None end = Some x ->
                    exists w rest,
                      c :: s = w ++ rest /\ n <= List.length w /\
                      forallb cls w = true /\ k rest = Some x).
    { destruct n; [|discriminate]. intro H.
      exists [], (c :: s). repeat split; auto. }
    destruct (cls c) eqn:Hc; [|auto].
    destruct (rep_greedy cls (pred n) s k) as [r|] eqn:Er; [|auto].
    inversion E; subst r.
    destruct (IH _ Er) as (w & rest & -> & Hn & Hall & Hk).
    exists (c :: w), rest. cbn. rewrite Hc, Hall. repeat split; auto. lia.
Qed.

Lemma rep_lazy_sound {R : Type} (cls : N -> bool) (k : jsstring -> option R)
      (x : R) :
  forall s n,
    rep_lazy cls n s k = Some x ->
    exists w rest,
      s = w ++ rest /\ n <= List.length w /\ forallb cls w = true /\
      k rest = Some x.
Proof.
  induction s as [|c s IH]; intros n E; cbn [rep_lazy] in E.
  - destruct n; [|discriminate].
    destruct (k []) eqn:Hk; [|discriminate].
    inversion E; subst. exists [], []. repeat split; auto.
  - assert (Hmore : (if cls c then rep_lazy cls (pred n) s k else None) = Some x ->
                    exists w rest,
                      c :: s = w ++ rest /\ n <= List.length w /\
                      forallb cls w = true /\ k rest = Some x).
    { destruct (cls c) eqn:Hc; [|discriminate]. intro H.
      destruct (IH _ H) as (w & rest & -> & Hn & Hall & Hk).
      exists (c :: w), rest. cbn. rewrite Hc, Hall. repeat split; auto. lia. }
    destruct n; [|auto].
    destruct (k (c :: s)) as [r|] eqn:Hk; [|auto].
    inversion E; subst r. exists [], (c :: s). repeat split; auto.
Qed.

(** A successful [exec] consumed a text that the pattern matches and
    succeeded through its continuation on what is left. *)
Lemma exec_sound {R : Type} (r : regex) :
  forall (s : jsstring) (caps : list jsstring)
         (k : jsstring -> list jsstring -> option R) (x : R),
    exec r s caps k = Some x ->
    exists w rest caps',
      s = w ++ rest /\ matches r w rest /\ k rest caps' = Some x.
Proof.
  induction r as [ic p | greedy n cls | r1 IH1 r2 IH2 | r1 IH1 r2 IH2
                  | r1 IH1 | ]; intros s caps k x E; cbn [exec] in E.
  - destruct (strip_lit ic p s) as [rest|] eqn:Es; [|discriminate].
    destruct (strip_lit_sound _ _ _ _ Es) as (w & -> & Hw).
    exists w, rest, caps. repeat split; auto. now constructor.
  - assert (H : exists w rest, s = w ++ rest /\ n <= List.length w /\
                  forallb cls w = true /\ k rest caps = Some x).
    { destruct greedy; [apply rep_greedy_sound in E | apply rep_lazy_sound in E];
        exact E. }
    destruct H as (w & rest & -> & Hn & Hall & Hk).
    exists w, rest, caps. repeat split; auto. now constructor.
  - destruct (exec r1 s caps k) as [y|] eqn:E1.
    + inversion E; subst y.
      destruct (IH1 _ _ _ _ E1) as (w & rest & caps' & -> & Hm & Hk).
      exists w, rest, caps'. repeat split; auto. now apply matches_alt_left.
    + destruct (IH2 _ _ _ _ E) as (w & rest & caps' & -> & Hm & Hk).
      exists w, rest, caps'. repeat split; auto. now apply matches_alt_right.
  - destruct (IH1 _ _ _ _ E) as (w1 & rest1 & caps1 & -> & Hm1 & Hk1).
    destruct (IH2 _ _ _ _ Hk1) as (w2 & rest & caps2 & -> & Hm2 & Hk2).
    exists (w1 ++ w2), rest, caps2. rewrite <- app_assoc.
    repeat split; auto. now constructor.
  - destruct (IH1 _ _ _ _ E) as (w & rest & caps' & -> & Hm & Hk).
    eexists w, rest, _. repeat split; [now constructor | exact Hk].
  - destruct s; [|discriminate].
    exists [], [], caps. repeat split; auto. constructor.
Qed.

Lemma firstn_consumed {A : Type} (w rest : list A) :
  firstn (List.length (w ++ rest) - List.length rest) (w ++ rest) = w.
Proof.
  rewrite length_app, Nat.add_sub.
  rewrite firstn_app, Nat.sub_diag, firstn_all. cbn. apply app_nil_r.
Qed.

Lemma match_at_sound (r : regex) (s : jsstring) (m : list jsstring) :
  match_at r s = Some m ->
  exists w rest caps, s = w ++ rest /\ matches r w rest /\ m = w :: caps.
Proof.
  unfold match_at. intro E.
  destruct (exec_sound r _ _ _ _ E) as (w & rest & caps' & -> & Hm & Hk).
  rewrite firstn_consumed in Hk. inversion Hk; subst.
  exists w, rest, caps'. auto.
Qed.

(** [s.match(r)] returns, as element 0, a contiguous piece of [s] that the
    pattern matches. *)
Lemma str_match_sound (r : regex) (s : jsstring) (m : list jsstring) :
  str_match r s = Some m ->
  exists before w rest caps,
    s = before ++ w ++ rest /\ matches r w rest /\ m = w :: caps.
Proof.
  induction s as [|c s IH]; cbn [str_match].
  - destruct (match_at r []) as [m'|] eqn:E; [|discriminate].
    intro H; inversion H; subst m'.
    destruct (match_at_sound _ _ _ E) as (w & rest & caps & Hs & Hm & ->).
    exists [], w, rest, caps. auto.
  - destruct (match_at r (c :: s)) as [m'|] eqn:E.
    + intro H; inversion H; subst m'.
      destruct (match_at_sound _ _ _ E) as (w & rest & caps & Hs & Hm & ->).
      exists [], w, rest, caps. auto.
    + intro H. destruct (IH H) as (before & w & rest & caps & -> & Hm & ->).
      exists (c :: before), w, rest, caps. auto.
Qed.

(** The only text that matches a one character literal which is not a
    letter is that character. *)
Lemma lit_matches_symbol (ic : bool) (c : N) (w : jsstring) :
  is_alpha c = false -> lit_matches ic [c] w -> w = [c].
Proof.
  intros Hc H. inversion H as [|x y p' w' Hxy Hrest]; subst.
  inversion Hrest; subst. f_equal.
  unfold char_eqb, canon in Hxy. unfold is_alpha in Hc.
  apply orb_false_iff in Hc. destruct Hc as [Hlow Hup]. rewrite Hlow in Hxy.
  destruct ic; [|now apply N.eqb_eq in Hxy].
  destruct (is_lower y) eqn:Hy; apply N.eqb_eq in Hxy; [|auto].
  exfalso. unfold is_lower, is_upper, between in *.
  apply andb_true_iff in Hy. destruct Hy as [H1 H2].
  apply N.leb_le in H1, H2.
  apply andb_false_iff in Hup.
  destruct Hup as [H3 | H3]; apply N.leb_gt in H3; lia.
Qed.

Lemma email_matches_shaped (w rest : jsstring) :
  matches emailRegex w rest -> email_shaped w.
Proof.
  unfold emailRegex. cbn [seq]. intro H.
  inversion H as [| | | | r1 r2 local w2 rest0 Hlocal H2 | |]; subst.
  inversion H2 as [| | | | r1 r2 at_ w3 rest0 Hat H3 | |]; subst.
  inversion H3 as [| | | | r1 r2 domain w4 rest0 Hdomain H4 | |]; subst.
  inversion H4 as [| | | | r1 r2 dot tld rest0 Hdot Htld | |]; subst.
  inversion Hlocal; subst. inversion Hdomain; subst. inversion Htld; subst.
  inversion Hat as [ic p w0 rest0 Hl | | | | | |]; subst.
  inversion Hdot as [ic p w0 rest0 Hl' | | | | | |]; subst.
  apply (lit_matches_symbol true 64) in Hl; [|reflexivity].
  apply (lit_matches_symbol true 46) in Hl'; [|reflexivity].
  subst. exists local, domain, tld. repeat split; auto.
Qed.

(* ================================================================== *)
(** * More on one run *)
(* ================================================================== *)

Section RunProperties.

Variable retriever : VectorStoreRetriever.
Variable llm : ChatOpenAI.
Variable host : Host.

Local Abbreviation node_fn := (node_fn retriever llm host).
Local Abbreviation invoke := (invoke retriever llm host).
Local Abbreviation update_of := (update_of retriever llm host).
Local Abbreviation step := (step retriever llm host).
Local Abbreviation evaluated := (evaluated retriever llm host).
Local Abbreviation before_generation := (before_generation retriever llm host).
Local Abbreviation generated := (generated retriever llm host).
Local Abbreviation run_events := (run_events retriever llm host).
Local Abbreviation retrieverNode := (retrieverNode retriever).
Local Abbreviation interestEvaluatorNode := (interestEvaluatorNode llm).
Local Abbreviation generatorNode := (generatorNode llm).
Local Abbreviation slackNotifierNode := (slackNotifierNode host).

(** Unfolds a node down to the outcomes of its external calls and splits on
    every test it makes, innermost first. *)
Ltac split_node :=
  unfold step, update_of, result, events; cbn [node_fn];
  unfold retrieverNode, generatorNode, interestEvaluatorNode,
    contactCollectorNode, slackNotifierNode, try_catch, bind, last_content,
    invoke_retriever, invoke_llm, post, call, parse_json, ret, throw;
  repeat (cbv beta iota delta [fst snd];
          match goal with
          | |- context [match ?x with _ => _ end] =>
              lazymatch x with
              | context [match _ with _ => _ end] => fail
              | _ => destruct x eqn:?
              end
          end);
  cbv beta iota delta [fst snd].

(** The update and the calls of a node, read off one of its runs. *)
Lemma node_outcome (n : Node) (s : GraphState) (u : Update)
      (t ev : list event) :
  node_fn n s t = (Returned u, t ++ ev) ->
  update_of n s = u /\ events (node_fn n s) = ev.
Proof.
  rewrite node_run. intro E. inversion E as [[Hu Hev]].
  apply app_inv_head in Hev. auto.
Qed.

Lemma node_outcome_silent (n : Node) (s : GraphState) (u : Update)
      (t : list event) :
  node_fn n s t = (Returned u, t) ->
  update_of n s = u /\ events (node_fn n s) = [].
Proof.
  intro E. apply (node_outcome n s u t []). now rewrite app_nil_r.
Qed.

Lemma retriever_calls_store (s : GraphState) (t : list event)
      (m : BaseMessage) (earlier : list BaseMessage) :
  rev (messages s) = m :: earlier ->
  retrieverNode s t =
  (Returned (retrieval_update (retriever_invoke retriever (content m))),
   t ++ [RetrieverInvoke (content m)]).
Proof.
  intro H. unfold retrieverNode, try_catch, bind, last_content,
    invoke_retriever, call, retrieval_update.
  rewrite H. unfold ret.
  destruct (retriever_invoke retriever (content m)) as [docs|e]; [|reflexivity].
  destruct (Nat.eqb (List.length docs) 0); reflexivity.
Qed.

Lemma retrieval_update_docs (o : outcome (list Document)) :
  upd_retrievedDocs (retrieval_update o) = Some (retrieved o).
Proof.
  destruct o as [docs|e]; cbn; [|reflexivity].
  destruct docs; reflexivity.
Qed.

Lemma retrieval_update_errors (o : outcome (list Document)) :
  nullish (upd_errors (retrieval_update o)) [] = retrieval_errors o.
Proof.
  destruct o as [docs|e]; cbn; [|reflexivity].
  destruct docs; reflexivity.
Qed.

(** *** The errors channel *)

Lemma step_errors (n : Node) (s : GraphState) :
  errors (step n s) = errors s ++ nullish (upd_errors (update_of n s)) [].
Proof.
  unfold step, apply_update; cbn [errors].
  destruct (upd_errors _); cbn; [reflexivity | now rewrite app_nil_r].
Qed.

Lemma errors_only_retriever_generator (n : Node) (s : GraphState) :
  n <> retriever_node -> n <> generator ->
  upd_errors (update_of n s) = None.
Proof.
  intros H1 H2. destruct n; try congruence; split_node; reflexivity.
Qed.

Lemma generator_errors (s : GraphState) :
  List.length (nullish (upd_errors (update_of generator s)) []) <= 1.
Proof. split_node; cbn; lia. Qed.

Lemma retriever_errors (s : GraphState) :
  List.length (nullish (upd_errors (update_of retriever_node s)) []) <= 1.
Proof. split_node; cbn; lia. Qed.

Lemma before_generation_errors (input : list BaseMessage) (s : GraphState) :
  errors (before_generation input s) =
  errors s ++
  nullish (upd_errors (update_of retriever_node (entered input s))) [].
Proof.
  unfold before_generation, evaluated.
  destruct (collects _);
    rewrite !step_errors;
    rewrite ?(errors_only_retriever_generator contact_collector),
      ?(errors_only_retriever_generator interest_evaluator) by discriminate;
    cbn [nullish]; rewrite ?app_nil_r; reflexivity.
Qed.

Lemma run_errors (input : list BaseMessage) (s : GraphState) :
  exists added,
    errors (generated input s) = errors s ++ added /\ List.length added <= 2.
Proof.
  unfold generated. rewrite step_errors, before_generation_errors.
  eexists. rewrite <- app_assoc. split; [reflexivity|].
  rewrite length_app.
  pose proof (retriever_errors (entered input s)).
  pose proof (generator_errors (before_generation input s)). lia.
Qed.

Lemma run_messages (input : list BaseMessage) (s : GraphState) :
  messages (generated input s) =
  messages s ++ input ++ [AIMessage (answer (generated input s))].
Proof.
  unfold generated at 1. rewrite generated_answer, before_generation_messages.
  now rewrite <- app_assoc.
Qed.

(** *** Channels that Retrieval and Interest Evaluation leave alone *)



Lemma evaluated_messages (input : list BaseMessage) (s : GraphState) :
  messages (evaluated input s) = messages s ++ input.
Proof. unfold evaluated. now rewrite !step_messages by discriminate. Qed.


Lemma lastUserMessage_messages (a b : GraphState) :
  messages a = messages b -> lastUserMessage a = lastUserMessage b.
Proof. unfold lastUserMessage. now intros ->. Qed.

Lemma collector_silent (s : GraphState) :
  events (node_fn contact_collector s) = [].
Proof. split_node; reflexivity. Qed.

(** Only Interest Evaluation invokes the model with a prompt text. *)
Lemma scoring_call_only_evaluator (n : Node) (s : GraphState) :
  n <> interest_evaluator ->
  filter is_scoring_call (events (node_fn n s)) = [].
Proof.
  intro Hn. destruct n; try congruence; split_node; reflexivity.
Qed.

Lemma step_retriever_docs (s : GraphState) (m : BaseMessage)
      (earlier : list BaseMessage) :
  rev (messages s) = m :: earlier ->
  update_of retriever_node s
  = retrieval_update (retriever_invoke retriever (content m)) /\
  events (node_fn retriever_node s) = [RetrieverInvoke (content m)].
Proof.
  intro H. apply (node_outcome retriever_node s _ []).
  cbn [node_fn]. now apply (retriever_calls_store s [] m earlier).
Qed.

End RunProperties.


(** X1: every run appends to the history exactly the messages it was given
    followed by one assistant message, which holds the answer of the
    run. *)
Theorem run_appends_input_and_answer :
  forall r l h input s t,
  exists s' t',
    invoke r l h input s t = (Returned s', t') /\
    messages s' = messages s ++ input ++ [AIMessage (answer s')].
Proof.
  intros r l h input s t.
  exists (generated r l h input s), (t ++ run_events r l h input s).
  split; [apply invoke_run | apply run_messages].
Qed.

(** X2: the history and the error log are append-only.  Across any
    sequence of runs the messages and the errors of the starting checkpoint
    stay in place at the front; the history grows by the messages given to
    the runs plus one answer per run, the error log by at most two records
    per run. *)
Theorem history_is_append_only :
  forall turns s t,
  exists s' t' later_messages later_errors,
    converse turns s t = (Returned s', t') /\
    messages s' = messages s ++ later_messages /\
    List.length later_messages = input_count turns + List.length turns /\
    errors s' = errors s ++ later_errors /\
    List.length later_errors <= 2 * List.length turns.
Proof.
  induction turns as [|turn rest IH]; intros s t.
  - exists s, t, [], []. unfold input_count. cbn. rewrite !app_nil_r.
    repeat split; lia.
  - cbn [converse]. unfold bind. rewrite invoke_run.
    set (s1 := generated (turn_retriever turn) (turn_llm turn)
                         (turn_host turn) (turn_input turn) s).
    destruct (IH s1 (t ++ run_events (turn_retriever turn) (turn_llm turn)
                                     (turn_host turn) (turn_input turn) s))
      as (s' & t' & lm & le & E & Hm & Hlm & He & Hle).
    destruct (run_errors (turn_retriever turn) (turn_llm turn)
                (turn_host turn) (turn_input turn) s) as (added & Ha & Hla).
    fold s1 in Ha.
    exists s', t', (turn_input turn ++ [AIMessage (answer s1)] ++ lm),
      (added ++ le).
    split; [exact E|]. split; [|split; [|split]].
    + rewrite Hm. unfold s1 at 1. rewrite run_messages. fold s1.
      now rewrite <- !app_assoc.
    + unfold input_count, list_sum in *. rewrite !length_app, Hlm.
      cbn [map fold_right List.length]. lia.
    + rewrite He, Ha. now rewrite <- app_assoc.
    + rewrite length_app. cbn [List.length]. lia.
Qed.

(** X3: [retrievedDocs] and the retrieval error reflect the current run
    only.  When the history ends with a message, the run ends with
    [retrievedDocs] equal to what the retriever returned for the text of
    that message (empty when it threw), whatever the checkpoint held, and
    the error log gains the retrieval record (none when documents were
    found) followed by at most one generation record. *)
Theorem retrieval_reflects_current_query :
  forall r l h input s t m earlier,
    rev (messages s ++ input) = m :: earlier ->
    exists s' t' generation_errors,
      invoke r l h input s t = (Returned s', t') /\
      retrievedDocs s' = retrieved (retriever_invoke r (content m)) /\
      errors s' =
        errors s ++ retrieval_errors (retriever_invoke r (content m))
                 ++ generation_errors /\
      List.length generation_errors <= 1.
Proof.
  intros r l h input s t m earlier Hrev.
  assert (H0 : rev (messages (entered input s)) = m :: earlier) by exact Hrev.
  destruct (step_retriever_docs r l h _ _ _ H0) as [Hu _].
  exists (generated r l h input s), (t ++ run_events r l h input s),
    (nullish (upd_errors (update_of r l h generator
                            (before_generation r l h input s))) []).
  split; [apply invoke_run|]. split; [|split].
  - unfold generated. rewrite step_retrievedDocs by discriminate.
    rewrite before_generation_docs. unfold step, apply_update.
    cbn [retrievedDocs]. rewrite Hu, retrieval_update_docs. reflexivity.
  - unfold generated. rewrite step_errors, before_generation_errors.
    rewrite Hu, retrieval_update_errors. now rewrite <- app_assoc.
  - apply generator_errors.
Qed.

Lemma retrieval_reflects_current_query_witness :
  exists s' t' generation_errors,
    invoke empty_retriever failing_llm webhook_host
           [HumanMessage (js "Hello")] lead_checkpoint []
    = (Returned s', t') /\
    retrievedDocs s' = [] /\
    errors s' =
      errors lead_checkpoint ++ [js "No relevant documents found"]
        ++ generation_errors /\
    List.length generation_errors <= 1.
Proof.
  destruct (retrieval_reflects_current_query
              empty_retriever failing_llm webhook_host
              [HumanMessage (js "Hello")] lead_checkpoint []
              (HumanMessage (js "Hello")) (rev (messages lead_checkpoint)))
    as (s' & t' & ge & E & Hd & He & Hl).
  - rewrite rev_app_distr. reflexivity.
  - exists s', t', ge. auto.
Defined.


(** A property of checkpoints kept by every run, together with a property
    of call traces that holds of every run and is closed under
    concatenation, holds across every sequence of runs. *)
Lemma converse_invariant (P : GraphState -> Prop) (Q : list event -> Prop) :
  Q [] ->
  (forall a b, Q a -> Q b -> Q (a ++ b)) ->
  (forall r l h input s,
      P s -> P (generated r l h input s) /\ Q (run_events r l h input s)) ->
  forall turns s t,
    P s ->
    exists s' calls,
      converse turns s t = (Returned s', t ++ calls) /\ P s' /\ Q calls.
Proof.
  intros Hnil Happ Hrun turns.
  induction turns as [|turn rest IH]; intros s t HP.
  - exists s, []. rewrite app_nil_r. repeat split; auto.
  - cbn [converse]. unfold bind. rewrite invoke_run.
    destruct (Hrun (turn_retriever turn) (turn_llm turn) (turn_host turn)
                   (turn_input turn) s HP) as [HP1 HQ1].
    destruct (IH _ (t ++ run_events (turn_retriever turn) (turn_llm turn)
                                    (turn_host turn) (turn_input turn) s) HP1)
      as (s' & calls & E & HP' & HQ').
    exists s', (run_events (turn_retriever turn) (turn_llm turn)
                           (turn_host turn) (turn_input turn) s ++ calls).
    rewrite app_assoc. repeat split; auto.
Qed.

Lemma generated_score (r : VectorStoreRetriever) (l : ChatOpenAI)
      (h : Host) (input : list BaseMessage) (s : GraphState) :
  interestScore (generated r l h input s)
  = interestScore (evaluated r l h input s).
Proof.
  unfold generated. rewrite step_interestScore by discriminate.
  unfold before_generation. destruct (collects _); [|reflexivity].
  now rewrite step_interestScore by discriminate.
Qed.



Lemma collects_true (s : GraphState) :
  collectingContact s = true \/ collected (contactInfo s) = true \/
  num_geb (interestScore s) (Fin 7) = true ->
  collects s = true.
Proof.
  unfold collects, shouldCollectContact.
  intros [H | [H | H]]; rewrite H; rewrite ?orb_true_r; try reflexivity.
  destruct (_ || _); reflexivity.
Qed.


Lemma apply_retrieval_update (s : GraphState) (o : outcome (list Document)) :
  apply_update s (retrieval_update o) =
  {| messages := messages s;
     retrievedDocs := retrieved o;
     answer := answer s;
     errors := errors s ++ retrieval_errors o;
     interestScore := interestScore s;
     contactInfo := contactInfo s;
     collectingContact := collectingContact s;
     appendMessage := appendMessage s |}.
Proof.
  destruct o as [[|d docs]|e]; cbn; unfold apply_update; cbn;
    rewrite ?app_nil_r; reflexivity.
Qed.

(** X5: the first message of a thread.  From the default state, a run
    given one user message asks the retriever for that text, then asks the
    model once, with the context built from the retrieved documents, no
    earlier history and that text as the query; it makes no scoring call and
    no POST.  The run ends with the reply of the model (the apology when the
    call failed) as answer and as the assistant message after the user
    message, interestScore 0 and both contact flags false. *)
Theorem first_message_run :
  forall r l h text t,
    let docs := retrieved (retriever_invoke r text) in
    let question :=
      ChatMessages (format_prompt (format_context docs) [] text) in
    exists s',
      invoke r l h [HumanMessage text] default_state t
      = (Returned s', t ++ [RetrieverInvoke text; LlmInvoke question]) /\
      answer s' = match llm_invoke l question with
                  | Returned reply => reply
                  | Thrown _ => errorAnswer
                  end /\
      messages s' = [HumanMessage text; AIMessage (answer s')] /\
      retrievedDocs s' = docs /\
      interestScore s' = Fin 0 /\
      collectingContact s' = false /\
      collected (contactInfo s') = false.
Proof.
  intros r l h text t docs question.
  exists (generated r l h [HumanMessage text] default_state).
  rewrite invoke_run.
  set (s0 := entered [HumanMessage text] default_state).
  assert (H0 : rev (messages s0) = [HumanMessage text]) by reflexivity.
  destruct (step_retriever_docs r l h s0 _ _ H0) as [Hu0 He0].
  cbn [content HumanMessage] in Hu0, He0.
  set (s1 := step r l h retriever_node s0).
  assert (Hs1 : s1 = apply_update s0 (retrieval_update (retriever_invoke r text)))
    by (unfold s1, step; now rewrite Hu0).
  rewrite apply_retrieval_update in Hs1. cbn in Hs1. fold docs in Hs1.
  assert (Hev : interestEvaluatorNode l s1 [] = (Returned (score_update (Fin 0)), [])).
  { apply evaluator_too_short; rewrite Hs1; cbn; [reflexivity | lia]. }
  destruct (node_outcome_silent r l h interest_evaluator s1 _ [] Hev)
    as [Hu1 He1].
  set (s2 := step r l h interest_evaluator s1).
  assert (Hs2 : s2 = apply_update s1 (score_update (Fin 0)))
    by (unfold s2, step; now rewrite Hu1).
  rewrite Hs1 in Hs2. cbn in Hs2.
  assert (Hev2 : evaluated r l h [HumanMessage text] default_state = s2)
    by reflexivity.
  assert (Hcol : collects s2 = false) by (rewrite Hs2; reflexivity).
  assert (Hbg : before_generation r l h [HumanMessage text] default_state = s2).
  { unfold before_generation. now rewrite Hev2, Hcol. }
  assert (Hgen : generatorNode l s2 [] =
                 (Returned
                    match llm_invoke l question with
                    | Returned reply => answer_update reply
                    | Thrown message => apology_update message
                    end,
                  [] ++ [LlmInvoke question])).
  { rewrite (generator_calls_model l s2 [] (HumanMessage text) []);
      rewrite Hs2; reflexivity. }
  destruct (node_outcome r l h generator s2 _ [] _ Hgen) as [Hu3 He3].
  assert (Hfin : generated r l h [HumanMessage text] default_state
                 = apply_update s2
                     match llm_invoke l question with
                     | Returned reply => answer_update reply
                     | Thrown message => apology_update message
                     end).
  { unfold generated. rewrite Hbg. unfold step. now rewrite Hu3. }
  split.
  - f_equal. f_equal. unfold run_events. rewrite Hev2, Hbg, Hcol.
    fold s0. fold s1. rewrite He0, He1, He3.
    rewrite Hfin, Hs2. destruct (llm_invoke l question); reflexivity.
  - rewrite Hfin, Hs2.
    destruct (llm_invoke l question); cbn; repeat split; reflexivity.
Qed.

(** [a.slice(0, -1)] of a list given by its reverse. *)
Lemma slice_but_last_rev {A : Type} (a : list A) (m : A) (earlier : list A) :
  rev a = m :: earlier -> slice_but_last a = rev earlier.
Proof.
  intro H.
  assert (E : a = rev earlier ++ [m])
    by (rewrite <- (rev_involutive a), H; reflexivity).
  unfold slice_but_last. rewrite E, length_app. cbn [List.length].
  replace (List.length (rev earlier) + 1 - 1)
    with (List.length (rev earlier) + 0) by lia.
  rewrite firstn_app_2. cbn. now rewrite app_nil_r.
Qed.

Section GenerationCases.

Variable retriever : VectorStoreRetriever.
Variable llm : ChatOpenAI.
Variable host : Host.

Local Abbreviation node_fn := (node_fn retriever llm host).
Local Abbreviation update_of := (update_of retriever llm host).
Local Abbreviation step := (step retriever llm host).


(** The notifier, on a collected state with a webhook, POSTs one body
    built from the state. *)
Lemma notifier_posts (s : GraphState) :
  collected (contactInfo s) = true ->
  truthy (nullish (SLACK_WEBHOOK_URL host) []) = true ->
  events (node_fn slack_notifier s) =
  [FetchPost (nullish (SLACK_WEBHOOK_URL host) [])
     {| field_name := opt_or (name (contactInfo s)) (js "Not provided");
        field_email := email (contactInfo s);
        field_company := opt_or (company (contactInfo s)) (js "Not provided");
        field_interestScore := interestScore s;
        captured_at := toLocaleString host |}].
Proof.
  intros Hc Hu. unfold events. cbn [node_fn].
  unfold slackNotifierNode, try_catch, bind, post, call, ret.
  rewrite Hc, Hu. cbn [negb].
  destruct (fetch host _ _); reflexivity.
Qed.

Lemma notifier_silent (s : GraphState) :
  collected (contactInfo s) = false \/
  truthy (nullish (SLACK_WEBHOOK_URL host) []) = false ->
  events (node_fn slack_notifier s) = [].
Proof.
  intro H. unfold events. cbn [node_fn].
  unfold slackNotifierNode, try_catch, bind, post, call, ret.
  destruct (collected (contactInfo s)); cbn [negb]; [|reflexivity].
  destruct H as [H | H]; [discriminate|]. rewrite H. reflexivity.
Qed.

End GenerationCases.




(** X7: an email given in collecting mode ends it.  When the run starts
    in collecting mode and the last user message holds an email, the run
    makes no scoring call and ends collected with that email, out of
    collecting mode and with the interestScore it started with; it POSTs to
    the webhook once when one is configured (not at all otherwise), and the
    body carries that email and that score. *)
Theorem email_ends_collecting_mode :
  forall r l h input s t e caps,
    collectingContact s = true ->
    str_match emailRegex (lastUserMessage (entered input s))
    = Some (e :: caps) ->
    exists s' calls,
      invoke r l h input s t = (Returned s', t ++ calls) /\
      collected (contactInfo s') = true /\
      email (contactInfo s') = Some e /\
      collectingContact s' = false /\
      interestScore s' = interestScore s /\
      posts calls =
        (if truthy (nullish (SLACK_WEBHOOK_URL h) []) then 1 else 0) /\
      (truthy (nullish (SLACK_WEBHOOK_URL h) []) = true ->
       exists body,
         In (FetchPost (nullish (SLACK_WEBHOOK_URL h) []) body) calls /\
         field_email body = Some e /\
         field_interestScore body = interestScore s) /\
      filter is_scoring_call calls = [].
Proof.
  intros r l h input s t e caps Hcc Hmail.
  exists (generated r l h input s), (run_events r l h input s).
  split; [apply invoke_run|].
  set (s1 := step r l h retriever_node (entered input s)).
  assert (Hcc1 : collectingContact s1 = true)
    by (unfold s1; now rewrite step_collectingContact by discriminate).
  pose proof (evaluator_skips l s1 [] Hcc1) as Hev.
  destruct (node_outcome_silent r l h interest_evaluator s1 _ [] Hev)
    as [Hu1 Hev1].
  set (s2 := evaluated r l h input s).
  assert (Hs2 : s2 = s1).
  { unfold s2, evaluated. fold s1. unfold step. rewrite Hu1.
    apply apply_no_update. }
  assert (Hsc2 : interestScore s2 = interestScore s).
  { rewrite Hs2. unfold s1. now rewrite step_interestScore by discriminate. }
  assert (Hm2 : messages s2 = messages s ++ input) by apply evaluated_messages.
  assert (Hcol : collects s2 = true)
    by (apply collects_true; left; now rewrite Hs2).
  assert (Hmail2 : str_match emailRegex (lastUserMessage s2) = Some (e :: caps)).
  { rewrite (lastUserMessage_messages s2 (entered input s)); [exact Hmail|].
    exact Hm2. }
  set (s3 := step r l h contact_collector s2).
  assert (Hbg : before_generation r l h input s = s3).
  { unfold before_generation. fold s2. now rewrite Hcol. }
  assert (Hu3 : upd_contactInfo (update_of r l h contact_collector s2) <> None
                /\ forall info,
                    upd_contactInfo (update_of r l h contact_collector s2)
                    = Some info -> email info = Some e).
  { unfold update_of, result. cbn [node_fn].
    unfold contactCollectorNode, try_catch, ret. rewrite Hmail2.
    cbn. split; [discriminate|]. intros info H. now inversion H. }
  destruct (upd_contactInfo (update_of r l h contact_collector s2))
    as [info|] eqn:Hinfo; [|now destruct Hu3].
  destruct (collector_contactInfo r l h s2 info Hinfo) as (Hcol1 & Hcc3 & _).
  assert (Hs3ci : contactInfo s3 = info).
  { unfold s3, step, apply_update; cbn [contactInfo]. now rewrite Hinfo. }
  assert (Hs3cc : collectingContact s3 = false).
  { unfold s3, step, apply_update; cbn [collectingContact]. now rewrite Hcc3. }
  assert (Hs3sc : interestScore s3 = interestScore s).
  { unfold s3. now rewrite step_interestScore by discriminate. }
  destruct (generated_contactInfo r l h input s) as [Hgci Hgcc].
  rewrite Hbg in Hgci, Hgcc.
  assert (Hgsc : interestScore (generated r l h input s) = interestScore s).
  { unfold generated. rewrite Hbg.
    now rewrite step_interestScore by discriminate. }
  assert (Hgcol : collected (contactInfo (generated r l h input s)) = true)
    by congruence.
  repeat split.
  - exact Hgcol.
  - rewrite Hgci, Hs3ci. now apply (proj2 Hu3).
  - congruence.
  - exact Hgsc.
  - rewrite run_posts, Hgcol. reflexivity.
  - intro Hurl. eexists. split.
    + unfold run_events. rewrite Hgcol.
      rewrite (notifier_posts r l h _ Hgcol Hurl).
      rewrite !in_app_iff. right. right. right. right. left. reflexivity.
    + cbn [field_email field_interestScore].
      rewrite Hgci, Hs3ci, Hgsc.
      split; [now apply (proj2 Hu3) | reflexivity].
  - unfold run_events. fold s1. rewrite Hev1. cbn [app].
    rewrite !filter_app.
    rewrite (scoring_call_only_evaluator r l h retriever_node)
      by discriminate.
    rewrite (scoring_call_only_evaluator r l h generator) by discriminate.
    destruct (collects (evaluated r l h input s));
      destruct (collected (contactInfo (generated r l h input s)));
      rewrite ?(scoring_call_only_evaluator r l h contact_collector)
        by discriminate;
      rewrite ?(scoring_call_only_evaluator r l h slack_notifier)
        by discriminate;
      reflexivity.
Qed.

Lemma email_ends_collecting_mode_witness :
  exists s' calls,
    invoke empty_retriever failing_llm webhook_host
           [HumanMessage lead_text] pending_state []
    = (Returned s', [] ++ calls) /\
    collected (contactInfo s') = true /\
    email (contactInfo s') = Some (js "x@y.com") /\
    collectingContact s' = false /\
    posts calls = 1 /\
    filter is_scoring_call calls = [].
Proof.
  destruct (email_ends_collecting_mode
              empty_retriever failing_llm webhook_host
              [HumanMessage lead_text] pending_state [] (js "x@y.com") [])
    as (s' & calls & E & H1 & H2 & H3 & _ & H5 & _ & H7).
  - reflexivity.
  - vm_compute. reflexivity.
  - exists s', calls. repeat split; assumption.
Defined.



(** The state the evaluator runs on. *)
Lemma retrieved_state (r : VectorStoreRetriever) (l : ChatOpenAI) (h : Host)
      (input : list BaseMessage) (s : GraphState) :
  let s1 := step r l h retriever_node (entered input s) in
  messages s1 = messages s ++ input /\
  collectingContact s1 = collectingContact s /\
  interestScore s1 = interestScore s.
Proof.
  cbv zeta.
  rewrite step_messages, step_collectingContact, step_interestScore
    by discriminate.
  repeat split; reflexivity.
Qed.



Lemma Math_max_in_range (a b : number) :
  in_0_10 a -> in_0_10 b -> in_0_10 (Math_max a b).
Proof.
  intros Ha Hb.
  assert (Hn : Math_max a b <> NaN).
  { intro E. apply Math_max_NaN in E.
    destruct Ha as (x & -> & _), Hb as (y & -> & _).
    destruct E; discriminate. }
  destruct (Math_max_upper a b Hn) as (_ & _ & [-> | ->]); assumption.
Qed.

Lemma in_0_10_number (x : number) : in_0_10 x -> x <> NaN.
Proof. intros (q & -> & _). discriminate. Qed.

Lemma merge_in_range (a b : number) :
  in_0_10 a -> in_0_10 b ->
  in_0_10 (Math_max a b) /\ num_leb a (Math_max a b) = true.
Proof.
  intros Ha Hb. pose proof (Math_max_in_range a b Ha Hb) as Hm.
  split; [exact Hm|].
  now apply Math_max_upper, in_0_10_number.
Qed.

Lemma conversationText_messages (a b : GraphState) :
  messages a = messages b -> conversationText a = conversationText b.
Proof. unfold conversationText. now intros ->. Qed.

(** The update of Interest Evaluation when the model answers the scoring
    prompt of a run. *)
Lemma scored_update (r : VectorStoreRetriever) (l : ChatOpenAI) (h : Host)
      (input : list BaseMessage) (s : GraphState) :
  collectingContact s = false ->
  3 <= List.length (messages s ++ input) ->
  let s1 := step r l h retriever_node (entered input s) in
  let prompt :=
    PromptText (evaluationPrompt (conversationText (entered input s))) in
  update_of r l h interest_evaluator s1 =
  score_update match llm_invoke l prompt with
               | Returned reply => score_of_reply reply
               | Thrown _ => Fin 0
               end /\
  events (node_fn r l h interest_evaluator s1) = [LlmInvoke prompt].
Proof.
  intros Hcc Hlen s1 prompt.
  destruct (retrieved_state r l h input s) as (Hm1 & Hc1 & _).
  fold s1 in Hm1, Hc1.
  assert (Hp : PromptText (evaluationPrompt (conversationText s1)) = prompt).
  { unfold prompt. f_equal. f_equal. apply conversationText_messages.
    rewrite Hm1. reflexivity. }
  rewrite Hcc in Hc1. rewrite <- Hm1 in Hlen.
  pose proof (evaluator_scores l s1 [] Hc1 Hlen) as E. rewrite Hp in E.
  exact (node_outcome r l h interest_evaluator s1 _ [] _ E).
Qed.



(** X9: within a run the interestScore stays in range, never decreases,
    or becomes NaN.  A run that starts with interestScore between 0 and 10
    ends with interestScore between 0 and 10 and at least what it was; or
    it ends with NaN, and then the run was outside collecting mode, had
    three messages or more, and the reply of the model to its scoring
    prompt yields NaN.  No reply stores a score below 0 or above 10. *)
Theorem score_stays_in_range_within_a_run :
  forall r l h input s t,
    in_0_10 (interestScore s) ->
    exists s' calls,
      invoke r l h input s t = (Returned s', t ++ calls) /\
      ((in_0_10 (interestScore s') /\
        num_leb (interestScore s) (interestScore s') = true)
       \/
       (interestScore s' = NaN /\
        collectingContact s = false /\
        3 <= List.length (messages s ++ input) /\
        exists reply,
          llm_invoke l (PromptText
                          (evaluationPrompt
                             (conversationText (entered input s))))
          = Returned reply /\
          score_of_reply reply = NaN)).
Proof.
  intros r l h input s t Hs.
  exists (generated r l h input s), (run_events r l h input s).
  split; [apply invoke_run|].
  rewrite generated_score.
  destruct (retrieved_state r l h input s) as (Hm1 & Hc1 & Hs1).
  unfold evaluated.
  set (s1 := step r l h retriever_node (entered input s)) in *.
  assert (Hmerge : forall x,
             update_of r l h interest_evaluator s1 = score_update x ->
             in_0_10 x ->
             in_0_10 (interestScore (step r l h interest_evaluator s1)) /\
             num_leb (interestScore s)
                     (interestScore (step r l h interest_evaluator s1))
             = true).
  { intros x Hu Hx. unfold step. rewrite Hu. unfold apply_update.
    cbn [interestScore score_update upd_interestScore channel].
    unfold Reducer.interestScore. cbn [nullish]. rewrite Hs1.
    now apply merge_in_range. }
  destruct (collectingContact s) eqn:Hcc.
  - left. try rewrite Hcc in Hc1.
    pose proof (evaluator_skips l s1 [] Hc1) as E.
    destruct (node_outcome_silent r l h interest_evaluator s1 _ [] E)
      as [Hu _].
    unfold step. rewrite Hu, apply_no_update, Hs1.
    split; [exact Hs | now apply num_leb_refl, in_0_10_number].
  - destruct (Nat.ltb (List.length (messages s ++ input)) 3) eqn:Hlen.
    + left. apply Nat.ltb_lt in Hlen. try rewrite Hcc in Hc1.
      rewrite <- Hm1 in Hlen.
      pose proof (evaluator_too_short l s1 [] Hc1 Hlen) as E.
      destruct (node_outcome_silent r l h interest_evaluator s1 _ [] E)
        as [Hu _].
      apply (Hmerge (Fin 0) Hu zero_in_0_10).
    + apply Nat.ltb_ge in Hlen.
      destruct (scored_update r l h input s Hcc Hlen) as [Hu _].
      cbv zeta in Hu. fold s1 in Hu.
      destruct (llm_invoke l _) as [reply|e] eqn:Hreply.
      * destruct (score_of_reply_cases reply) as [Hx | Hx].
        -- left. apply (Hmerge _ Hu Hx).
        -- right. split; [|split; [reflexivity|split; [exact Hlen|]]].
           ++ unfold step. rewrite Hu, Hx. unfold apply_update.
              cbn [interestScore score_update upd_interestScore channel].
              apply Math_max_NaN. now right.
           ++ exists reply. auto.
      * left. apply (Hmerge _ Hu zero_in_0_10).
Qed.

Lemma score_stays_in_range_within_a_run_witness :
  exists s' calls,
    invoke empty_retriever
           (scripted_llm (Returned (score_reply (js "9")))
                         (Returned (js "Happy to hear that.")))
           webhook_host [HumanMessage (js "I would like to sign up")]
           browsing_checkpoint []
    = (Returned s', [] ++ calls) /\
    in_0_10 (interestScore s') /\
    num_leb (interestScore browsing_checkpoint) (interestScore s') = true.
Proof.
  assert (H5 : in_0_10 (interestScore browsing_checkpoint)).
  { unfold in_0_10. eexists. split; [vm_compute; reflexivity|].
    split; apply Qle_bool_iff; vm_compute; reflexivity. }
  destruct (score_stays_in_range_within_a_run
              empty_retriever
              (scripted_llm (Returned (score_reply (js "9")))
                            (Returned (js "Happy to hear that.")))
              webhook_host [HumanMessage (js "I would like to sign up")]
              browsing_checkpoint [] H5)
    as (s' & calls & E & [[Hr Hle] | [Hn _]]).
  - exists s', calls. auto.
  - exfalso. rewrite invoke_run in E.
    apply (f_equal (fun p => match fst p with
                             | Returned x => interestScore x
                             | Thrown _ => Fin 0
                             end)) in E.
    cbv beta iota delta [fst] in E. rewrite Hn in E.
    vm_compute in E. discriminate.
Defined.

(** The context is the placeholder exactly when there is no document. *)
Lemma format_context_placeholder (docs : list Document) :
  format_context docs = noContext <-> docs = [].
Proof.
  split.
  - destruct docs as [|d ds]; [reflexivity|].
    unfold format_context. cbn [map].
    assert (E : exists rest,
               join (nl ++ nl ++ js "---" ++ nl ++ nl)
                    (format_doc d :: map format_doc ds) = 91%N :: rest).
    { destruct (map format_doc ds); cbn [join]; unfold format_doc;
        eexists; reflexivity. }
    destruct E as (rest & ->). cbn. discriminate.
  - intros ->. reflexivity.
Qed.

(** X10: what Generation asks the model.  When the history (with the
    messages of the run) ends with a message, the run calls the model with
    the system prompt over the context of the documents retrieved in this
    run, the history without its last message, and the text of the last
    message as the question; and the context is the fixed placeholder
    exactly when no document was retrieved. *)
Theorem generation_question :
  forall r l h input s t m earlier,
    rev (messages s ++ input) = m :: earlier ->
    let docs := retrieved (retriever_invoke r (content m)) in
    exists s' calls,
      invoke r l h input s t = (Returned s', t ++ calls) /\
      In (LlmInvoke
            (ChatMessages
               (format_prompt (format_context docs) (rev earlier) (content m))))
         calls /\
      (format_context docs = noContext <-> docs = []).
Proof.
  intros r l h input s t m earlier Hrev docs.
  exists (generated r l h input s), (run_events r l h input s).
  split; [apply invoke_run|]. split; [|apply format_context_placeholder].
  set (s3 := before_generation r l h input s).
  assert (Hm3 : messages s3 = messages s ++ input)
    by apply before_generation_messages.
  assert (Hd3 : retrievedDocs s3 = docs).
  { unfold s3. rewrite before_generation_docs.
    destruct (step_retriever_docs r l h (entered input s) m earlier Hrev)
      as [Hu _].
    unfold step, apply_update. cbn [retrievedDocs].
    rewrite Hu, retrieval_update_docs. reflexivity. }
  assert (Hrev3 : rev (messages s3) = m :: earlier) by now rewrite Hm3.
  pose proof (generator_calls_model l s3 [] m earlier Hrev3) as E.
  destruct (node_outcome r l h generator s3 _ [] _ E) as [_ He].
  unfold run_events. fold s3. rewrite He.
  unfold generator_input.
  rewrite Hd3, (slice_but_last_rev (messages s3) m earlier Hrev3).
  rewrite !in_app_iff. right. right. right. left. left. reflexivity.
Qed.

Lemma generation_question_witness :
  exists s' calls,
    invoke empty_retriever failing_llm webhook_host
           [HumanMessage (js "Hello")] default_state []
    = (Returned s', [] ++ calls) /\
    In (LlmInvoke
          (ChatMessages (format_prompt noContext [] (js "Hello")))) calls.
Proof.
  destruct (generation_question
              empty_retriever failing_llm webhook_host
              [HumanMessage (js "Hello")] default_state []
              (HumanMessage (js "Hello")) [] eq_refl)
    as (s' & calls & E & H & _).
  exists s', calls. split; [exact E | exact H].
Defined.

(* ================================================================== *)
(** * The email of a lead *)
(* ================================================================== *)

(** A written contactInfo holds the first match of the email pattern in
    the last user message. *)
Lemma collector_email (r : VectorStoreRetriever) (l : ChatOpenAI) (h : Host)
      (s : GraphState) (info : ContactInfo) :
  upd_contactInfo (update_of r l h contact_collector s) = Some info ->
  exists m,
    str_match emailRegex (lastUserMessage s) = Some m /\
    email info = Some (nth 0 m []).
Proof.
  unfold update_of, result. cbn [node_fn].
  unfold contactCollectorNode, try_catch, ret.
  destruct (str_match emailRegex (lastUserMessage s)) as [m|] eqn:Hm.
  - cbn. intro H. inversion H; subst; clear H. exists m. auto.
  - destruct (negb (collectingContact s)); cbn; discriminate.
Qed.

(** X11: the email Contact Collection records is taken from the message.
    Whenever the stage writes contactInfo, its email is a contiguous piece of
    the last user message and has the shape local@domain.tld of the
    pattern: one or more address characters, the at sign, one or more
    domain characters, a dot and two or more letters. *)
Theorem collector_email_from_message :
  forall r l h s info,
    upd_contactInfo (update_of r l h contact_collector s) = Some info ->
    exists e before rest,
      email info = Some e /\
      lastUserMessage s = before ++ e ++ rest /\
      email_shaped e.
Proof.
  intros r l h s info Hinfo.
  destruct (collector_email r l h s info Hinfo) as (m & Hm & He).
  destruct (str_match_sound _ _ _ Hm)
    as (before & w & rest & caps & Hs & Hw & ->).
  exists w, before, rest. cbn [nth] in He.
  split; [exact He|]. split; [exact Hs|].
  now apply (email_matches_shaped w rest).
Qed.

Lemma collector_email_from_message_witness :
  exists e before rest,
    js "x@y.com" = e /\
    lastUserMessage (entered [HumanMessage lead_text] pending_state)
    = before ++ e ++ rest /\
    email_shaped e.
Proof.
  assert (H : upd_contactInfo
                (update_of empty_retriever failing_llm webhook_host
                   contact_collector
                   (entered [HumanMessage lead_text] pending_state))
              = Some {| email := Some (js "x@y.com");
                        name := Some (js "Jane from Acme");
                        company := Some (js "Acme");
                        collected := true |})
    by (vm_compute; reflexivity).
  destruct (collector_email_from_message _ _ _ _ _ H)
    as (e & before & rest & He & Hm & Hs).
  exists e, before, rest. split; [|split; assumption].
  cbn [email] in He. now inversion He.
Defined.

Lemma no_posts_Forall (Q : event -> Prop) (t : list event) :
  (forall ev, is_post ev = false -> Q ev) ->
  posts t = 0 -> Forall Q t.
Proof.
  intros HQ. induction t as [|ev t IH]; intro H; [constructor|].
  unfold posts in H. cbn [filter] in H.
  destruct (is_post ev) eqn:E; [discriminate|].
  constructor; [now apply HQ | now apply IH].
Qed.

Lemma lead_post_other (ev : event) : is_post ev = false -> lead_post ev.
Proof. destruct ev; cbn; [trivial | trivial | discriminate]. Qed.

(** One run keeps the recorded email well formed, and its POSTs carry
    it. *)
Lemma run_lead (r : VectorStoreRetriever) (l : ChatOpenAI) (h : Host)
      (input : list BaseMessage) (s : GraphState) :
  (collected (contactInfo s) = true -> email_recorded (contactInfo s)) ->
  (collected (contactInfo (generated r l h input s)) = true ->
   email_recorded (contactInfo (generated r l h input s))) /\
  Forall lead_post (run_events r l h input s).
Proof.
  intro Hs.
  assert (Hg : collected (contactInfo (generated r l h input s)) = true ->
               email_recorded (contactInfo (generated r l h input s))).
  { destruct (generated_contactInfo r l h input s) as [-> _].
    destruct (evaluated_contact r l h input s) as [Hci _].
    unfold before_generation.
    destruct (collects _); [|now rewrite Hci].
    unfold step, apply_update. cbn [contactInfo].
    destruct (upd_contactInfo _) as [info|] eqn:Hinfo; [|now rewrite Hci].
    intros _. cbn [channel]. unfold Reducer.replace.
    destruct (collector_email _ _ _ _ _ Hinfo) as (m & Hm & He).
    destruct (str_match_sound _ _ _ Hm)
      as (before & w & rest & caps & _ & Hw & ->).
    exists w. split; [exact He|].
    now apply (email_matches_shaped w rest). }
  split; [exact Hg|].
  assert (Hother : forall n a,
             n <> slack_notifier ->
             Forall lead_post (events (node_fn r l h n a))).
  { intros n a Hn. apply no_posts_Forall;
      [apply lead_post_other | now apply posts_other]. }
  unfold run_events.
  apply Forall_app; split; [now apply Hother|].
  apply Forall_app; split; [now apply Hother|].
  apply Forall_app; split;
    [destruct (collects _); [now apply Hother | constructor]|].
  apply Forall_app; split; [now apply Hother|].
  - destruct (collected (contactInfo (generated r l h input s))) eqn:Hc;
      [|constructor].
    destruct (truthy (nullish (SLACK_WEBHOOK_URL h) [])) eqn:Hurl.
    + rewrite (notifier_posts r l h _ Hc Hurl).
      constructor; [|constructor]. cbn [lead_post field_email].
      now apply Hg.
    + rewrite (notifier_silent r l h); [constructor | now right].
Qed.

(** X12: every lead sent to the webhook carries a well-formed email.
    Across any sequence of runs on a thread whose recorded contact (if any)
    holds an email of the shape local@domain.tld, as the default state
    trivially does, every POST to the webhook carries such an email, and
    the thread ends with such an email whenever it ends collected. *)
Theorem leads_carry_an_email :
  forall turns s t,
    (collected (contactInfo s) = true -> email_recorded (contactInfo s)) ->
    exists s' calls,
      converse turns s t = (Returned s', t ++ calls) /\
      (collected (contactInfo s') = true -> email_recorded (contactInfo s')) /\
      Forall lead_post calls.
Proof.
  intros turns s t Hs.
  apply (converse_invariant
           (fun a => collected (contactInfo a) = true ->
                     email_recorded (contactInfo a))
           (Forall lead_post)); auto.
  - intros a b Ha Hb. apply Forall_app. auto.
  - intros r l h input a Ha. now apply run_lead.
Qed.

Lemma leads_carry_an_email_witness :
  exists s' calls,
    converse [follow_up] lead_checkpoint [] = (Returned s', [] ++ calls) /\
    (collected (contactInfo s') = true -> email_recorded (contactInfo s')) /\
    Forall lead_post calls.
Proof.
  apply (leads_carry_an_email [follow_up] lead_checkpoint []).
  intros _. exists (js "x@y.com"). split; [vm_compute; reflexivity|].
  exists (js "x"), (js "y"), (js "com").
  repeat split; try (vm_compute; reflexivity); cbn; lia.
Defined.

(* ================================================================== *)
(** * The plain workflow and the lead workflow *)
(* ================================================================== *)

(** The reply and the error record of Generation on a question. *)
Lemma plain_invoke_on_message (r : VectorStoreRetriever) (l : ChatOpenAI)
      (input : list BaseMessage) (p : Simple.GraphState) (t : list event)
      (m : BaseMessage) (earlier : list BaseMessage) :
  rev (Simple.messages p ++ input) = m :: earlier ->
  let o := retriever_invoke r (content m) in
  let q := ChatMessages
             (format_prompt (format_context (retrieved o)) (rev earlier)
                            (content m)) in
  Simple.invoke r l input p t =
  (Returned
     {| Simple.messages :=
          (Simple.messages p ++ input)
            ++ [AIMessage match llm_invoke l q with
                          | Returned reply => reply
                          | Thrown _ => errorAnswer
                          end];
        Simple.retrievedDocs := retrieved o;
        Simple.answer := match llm_invoke l q with
                         | Returned reply => reply
                         | Thrown _ => errorAnswer
                         end;
        Simple.errors :=
          (Simple.errors p ++ retrieval_errors o)
            ++ match llm_invoke l q with
               | Returned _ => []
               | Thrown e => [js "Generation failed: " ++ e]
               end |},
   t ++ [RetrieverInvoke (content m); LlmInvoke q]).
Proof.
  intros Hrev o q.
  assert (Hsl : slice_but_last (Simple.messages p ++ input) = rev earlier)
    by now apply (slice_but_last_rev _ m).
  unfold Simple.invoke, recursionLimit. cbn [Simple.run_from Simple.next_node].
  unfold bind at 1. cbn [Simple.node_fn].
  unfold Simple.retrieverNode, try_catch, bind, last_content, invoke_retriever,
    call.
  cbn [Simple.apply_update Simple.input_update Simple.messages
       Simple.upd_messages channel]. unfold Reducer.concat.
  rewrite Hrev. cbn [ret]. unfold ret at 1.
  fold o.
  unfold Simple.generatorNode, try_catch, bind, last_content, invoke_llm, call.
  set (s0 := {| Simple.messages := Simple.messages p ++ input;
                Simple.retrievedDocs := Simple.retrievedDocs p;
                Simple.answer := Simple.answer p;
                Simple.errors := Simple.errors p |}).
  assert (Hgen :
    forall docs errs,
      retrieved o = docs -> retrieval_errors o = nullish errs [] ->
      (u <- Simple.generatorNode l
              (Simple.apply_update s0 (Simple.docs_update docs errs)) ;;
       ret (Simple.apply_update
              (Simple.apply_update s0 (Simple.docs_update docs errs)) u))
        (t ++ [RetrieverInvoke (content m)]) =
      (Returned
         {| Simple.messages :=
              (Simple.messages p ++ input)
                ++ [AIMessage match llm_invoke l q with
                              | Returned reply => reply
                              | Thrown _ => errorAnswer
                              end];
            Simple.retrievedDocs := retrieved o;
            Simple.answer := match llm_invoke l q with
                             | Returned reply => reply
                             | Thrown _ => errorAnswer
                             end;
            Simple.errors :=
              (Simple.errors p ++ retrieval_errors o)
                ++ match llm_invoke l q with
                   | Returned _ => []
                   | Thrown e => [js "Generation failed: " ++ e]
                   end |},
       t ++ [RetrieverInvoke (content m); LlmInvoke q])).
  { intros docs errs Hd He.
    unfold Simple.generatorNode, try_catch, bind, last_content, invoke_llm,
      call, ret.
    cbn [Simple.apply_update Simple.docs_update Simple.messages
         Simple.retrievedDocs Simple.upd_messages Simple.upd_retrievedDocs
         channel s0].
    unfold Reducer.replace. rewrite Hrev, Hsl, <- Hd. fold q.
    rewrite <- app_assoc. cbn [app].
    destruct (llm_invoke l q) as [reply|e];
      unfold Simple.apply_update;
      cbn [Simple.answer_update Simple.docs_update Simple.messages
           Simple.retrievedDocs Simple.answer Simple.errors
           Simple.upd_messages Simple.upd_retrievedDocs Simple.upd_answer
           Simple.upd_errors channel s0];
      unfold Reducer.replace, Reducer.concat; rewrite He;
      destruct errs; cbn [nullish channel]; unfold Reducer.concat;
      rewrite ?app_nil_r; reflexivity. }
  destruct o as [docs|e] eqn:Ho.
  - destruct docs as [|d docs].
    + cbn [List.length Nat.eqb ret]. unfold ret at 1 2.
      apply (Hgen [] (Some [js "No relevant documents found"]));
        reflexivity.
    + cbn [List.length Nat.eqb ret]. unfold ret at 1 2.
      apply (Hgen (d :: docs) None); reflexivity.
  - unfold ret at 1.
    apply (Hgen [] (Some [js "Retrieval failed: " ++ e])); reflexivity.
Qed.

Lemma plain_invoke_on_empty (r : VectorStoreRetriever) (l : ChatOpenAI)
      (p : Simple.GraphState) (t : list event) :
  Simple.messages p = [] ->
  Simple.invoke r l [] p t =
  (Returned
     {| Simple.messages := [AIMessage errorAnswer];
        Simple.retrievedDocs := [];
        Simple.answer := errorAnswer;
        Simple.errors :=
          Simple.errors p
            ++ [js "Retrieval failed: " ++ TypeError_content;
                js "Generation failed: " ++ TypeError_content] |},
   t).
Proof.
  intro Hm.
  unfold Simple.invoke, recursionLimit. cbn [Simple.run_from Simple.next_node].
  unfold bind, Simple.node_fn, Simple.retrieverNode, Simple.generatorNode,
    try_catch, bind, last_content, ret, throw.
  cbn [Simple.apply_update Simple.input_update Simple.docs_update
       Simple.messages Simple.upd_messages channel].
  unfold Reducer.concat. rewrite Hm. cbn [app rev].
  unfold Simple.apply_update.
  cbn [Simple.answer_update Simple.docs_update Simple.messages
       Simple.retrievedDocs Simple.answer Simple.errors
       Simple.upd_messages Simple.upd_retrievedDocs Simple.upd_answer
       Simple.upd_errors Simple.input_update channel].
  unfold Reducer.replace, Reducer.concat. rewrite Hm.
  cbn [rev app Simple.answer_update Simple.upd_messages
       Simple.upd_retrievedDocs Simple.upd_answer Simple.upd_errors channel].
  now rewrite <- app_assoc.
Qed.

Section PlainCalls.

Variable retriever : VectorStoreRetriever.
Variable llm : ChatOpenAI.
Variable host : Host.

Local Abbreviation node_fn := (node_fn retriever llm host).
Local Abbreviation update_of := (update_of retriever llm host).
Local Abbreviation step := (step retriever llm host).
Local Abbreviation retrieverNode := (retrieverNode retriever).
Local Abbreviation interestEvaluatorNode := (interestEvaluatorNode llm).
Local Abbreviation generatorNode := (generatorNode llm).
Local Abbreviation slackNotifierNode := (slackNotifierNode host).

Ltac open_node :=
  unfold step, update_of, result, events; cbn [node_fn];
  unfold retrieverNode, generatorNode, interestEvaluatorNode,
    contactCollectorNode, slackNotifierNode, try_catch, bind, last_content,
    invoke_retriever, invoke_llm, post, call, parse_json, ret, throw;
  repeat (cbv beta iota delta [fst snd];
          match goal with
          | |- context [match ?x with _ => _ end] =>
              lazymatch x with
              | context [match _ with _ => _ end] => fail
              | _ => destruct x eqn:?
              end
          end);
  cbv beta iota delta [fst snd].

(** Interest Evaluation, Contact Collection and Notification make none of
    the calls of the plain workflow. *)
Lemma no_plain_calls (n : Node) (s : GraphState) :
  n <> retriever_node -> n <> generator ->
  filter is_plain_call (events (node_fn n s)) = [].
Proof.
  intros H1 H2. destruct n; try congruence; open_node; reflexivity.
Qed.

End PlainCalls.


(** X13: the lead workflow extends the plain workflow.  On the same
    checkpoint (its four shared channels), input, retriever and model, both
    workflows return; the plain workflow makes exactly the retrieval and
    chat calls of the lead workflow, in the same order; both end with the
    same retrievedDocs and errors; and the answer of the lead workflow is
    the answer of the plain one, or that answer followed by a blank line and
    a non-empty note. *)
Theorem lead_workflow_extends_plain :
  forall r l h input s t,
  exists s' calls p' plain_calls,
    invoke r l h input s t = (Returned s', t ++ calls) /\
    Simple.invoke r l input (plain s) t = (Returned p', t ++ plain_calls) /\
    plain_calls = filter is_plain_call calls /\
    retrievedDocs s' = Simple.retrievedDocs p' /\
    errors s' = Simple.errors p' /\
    (answer s' = Simple.answer p' \/
     exists note, truthy note = true /\
                  answer s' = Simple.answer p' ++ nl ++ nl ++ note) /\
    (answer s' = Simple.answer p' -> messages s' = Simple.messages p').
Proof.
  intros r l h input s t.
  set (s0 := entered input s).
  set (s3 := before_generation r l h input s).
  assert (F1 : errors (generated r l h input s) =
               errors s
                 ++ nullish (upd_errors (update_of r l h retriever_node s0)) []
                 ++ nullish (upd_errors (update_of r l h generator s3)) []).
  { unfold generated. rewrite step_errors, before_generation_errors.
    now rewrite <- app_assoc. }
  assert (F2 : retrievedDocs (generated r l h input s) =
               channel Reducer.replace (retrievedDocs s)
                 (upd_retrievedDocs (update_of r l h retriever_node s0))).
  { unfold generated. rewrite step_retrievedDocs by discriminate.
    rewrite before_generation_docs. reflexivity. }
  pose proof (run_messages r l h input s) as F3.
  assert (F4 : filter is_plain_call (run_events r l h input s) =
               filter is_plain_call (events (node_fn r l h retriever_node s0))
                 ++ filter is_plain_call (events (node_fn r l h generator s3))).
  { unfold run_events. rewrite !filter_app.
    rewrite (no_plain_calls r l h interest_evaluator) by discriminate.
    replace (filter is_plain_call
               (if collects (evaluated r l h input s)
                then events (node_fn r l h contact_collector
                                     (evaluated r l h input s))
                else [])) with (@nil event)
      by (destruct (collects _);
          [now rewrite no_plain_calls by discriminate | reflexivity]).
    replace (filter is_plain_call
               (if collected (contactInfo (generated r l h input s))
                then events (node_fn r l h slack_notifier
                                     (generated r l h input s))
                else [])) with (@nil event)
      by (destruct (collected _);
          [now rewrite no_plain_calls by discriminate | reflexivity]).
    cbn [app]. now rewrite app_nil_r. }
  assert (F5 : answer (generated r l h input s) =
               nullish (upd_answer (update_of r l h generator s3)) (answer s3)).
  { unfold generated. fold s3. unfold step, apply_update. cbn [answer].
    destruct (upd_answer _); reflexivity. }
  assert (Hm3 : messages s3 = messages s ++ input)
    by apply before_generation_messages.
  exists (generated r l h input s), (run_events r l h input s).
  destruct (rev (messages s ++ input)) as [|m earlier] eqn:Hrev.
  - assert (Hnil : messages s ++ input = [])
      by (rewrite <- (rev_involutive (messages s ++ input)), Hrev;
          reflexivity).
    apply app_eq_nil in Hnil. destruct Hnil as [Hms Hin]. subst input.
    eexists. exists [].
    split; [apply invoke_run|].
    split; [rewrite app_nil_r; now apply plain_invoke_on_empty|].
    assert (H0 : messages s0 = []) by (unfold s0; cbn; now rewrite Hms).
    destruct (node_outcome_silent r l h retriever_node s0 _ []
                (retriever_on_empty r s0 [] H0)) as [Hu0 He0].
    assert (H3 : messages s3 = []) by (rewrite Hm3, Hms; reflexivity).
    destruct (node_outcome_silent r l h generator s3 _ []
                (generator_on_empty l s3 [] H3)) as [Hu3 He3].
    rewrite F1, F2, F4, F5, Hu0, Hu3, He0, He3.
    cbn [filter app Simple.retrievedDocs Simple.errors Simple.answer
         Simple.messages plain docs_update apology_update upd_errors
         upd_retrievedDocs upd_answer nullish channel].
    repeat split.
    + left. reflexivity.
    + intros _. rewrite F3, F5, Hu3, Hms. reflexivity.
  - pose proof (plain_invoke_on_message r l input (plain s) t m earlier Hrev)
      as Hplain. cbv zeta in Hplain.
    set (o := retriever_invoke r (content m)) in *.
    set (q := ChatMessages
                (format_prompt (format_context (retrieved o)) (rev earlier)
                               (content m))) in *.
    eexists. exists [RetrieverInvoke (content m); LlmInvoke q].
    split; [apply invoke_run|]. split; [exact Hplain|].
    destruct (step_retriever_docs r l h s0 m earlier Hrev) as [Hu0 He0].
    fold o in Hu0.
    assert (Hd3 : retrievedDocs s3 = retrieved o).
    { unfold s3. rewrite before_generation_docs. fold s0.
      unfold step, apply_update. cbn [retrievedDocs].
      rewrite Hu0, retrieval_update_docs. reflexivity. }
    assert (Hrev3 : rev (messages s3) = m :: earlier) by now rewrite Hm3.
    assert (Hq : generator_input s3 (content m) = q).
    { unfold generator_input, q.
      now rewrite Hd3, (slice_but_last_rev (messages s3) m earlier Hrev3). }
    pose proof (generator_calls_model l s3 [] m earlier Hrev3) as Eg.
    rewrite Hq in Eg.
    destruct (node_outcome r l h generator s3 _ [] _ Eg) as [Hu3 He3].
    rewrite F1, F2, F4, F5, Hu0, Hu3, He0, He3, retrieval_update_docs,
      retrieval_update_errors.
    cbn [Simple.retrievedDocs Simple.errors Simple.answer Simple.messages
         plain channel]. unfold Reducer.replace.
    split; [reflexivity|]. split; [reflexivity|].
    destruct (llm_invoke l q) as [reply|e].
    + cbn [answer_update upd_errors upd_answer nullish].
      split; [now rewrite app_assoc|]. split.
      * destruct (truthy (appendMessage s3)) eqn:Ht; [right | left; reflexivity].
        exists (appendMessage s3). auto.
      * intro Ha. rewrite F3, F5, Hu3. cbn [answer_update upd_answer nullish].
        rewrite Ha. now rewrite app_assoc.
    + cbn [apology_update upd_errors upd_answer nullish].
      split; [now rewrite app_assoc|]. split; [left; reflexivity|].
      intros _. rewrite F3, F5, Hu3. cbn [apology_update upd_answer nullish].
      now rewrite app_assoc.
Qed.

(* ================================================================== *)
(** * Delivery to Telegram *)
(* ================================================================== *)

Lemma truncated_length (text : jsstring) : List.length (truncated text) <= 4096.
Proof.
  unfold truncated. destruct (Nat.ltb 4096 (List.length text)) eqn:H.
  - apply Nat.ltb_lt in H. rewrite length_app, firstn_length_le by lia.
    cbn. lia.
  - apply Nat.ltb_ge in H. exact H.
Qed.

Lemma truncated_short (text : jsstring) :
  List.length text <= 4096 -> truncated text = text.
Proof.
  intro H. unfold truncated. apply Nat.ltb_ge in H. now rewrite H.
Qed.

Lemma truncated_long (text : jsstring) :
  4096 < List.length text ->
  truncated text = firstn 4093 text ++ js "..." /\
  List.length (truncated text) = 4096.
Proof.
  intro H. unfold truncated. pose proof H as H'. apply Nat.ltb_lt in H'.
  rewrite H'. split; [reflexivity|].
  rewrite length_app, firstn_length_le by lia. reflexivity.
Qed.

Section RoutesProperties.

Import Telegram.

Variable world : World.


(** The two requests of [sendTelegramMessage] of routes.ts. *)
Lemma routes_send_cases (chatId : Z) (text : jsstring) (t : list Call) :
  let botToken := nullish (TELEGRAM_BOT_TOKEN world) [] in
  let url := sendMessageUrl botToken in
  let first := {| chat_id := chatId; text := truncated text;
                  parse_mode := Some (js "Markdown") |} in
  let retry := {| chat_id := chatId; text := truncated text;
                  parse_mode := None |} in
  let retried :=
    match fetch world t url first with
    | Returned response =>
        negb (http_ok response) &&
        match http_text response with
        | Returned errorText =>
            includes errorText (js "parse")
            || includes errorText (js "markdown")
        | Thrown _ => false
        end
    | Thrown _ => false
    end in
  Routes.sendTelegramMessage world chatId text t =
  (Returned tt,
   t ++ (if truthy botToken
         then Post url first :: (if retried then [Post url retry] else [])
         else [])).
Proof.
  cbv zeta. unfold Routes.sendTelegramMessage, Routes.post.
  fold (truncated text).
  destruct (truthy (nullish (TELEGRAM_BOT_TOKEN world) [])) eqn:Htok;
    cbn [negb]; [|unfold Io.ret; now rewrite app_nil_r].
  unfold Io.try_catch, Io.bind, Io.call, Io.await, Io.ret.
  destruct (fetch world t _ _) as [response|e]; [|reflexivity].
  destruct (http_ok response); cbn [negb andb]; [reflexivity|].
  destruct (http_text response) as [errorText|e]; [|reflexivity].
  destruct (includes errorText (js "parse") || includes errorText (js "markdown"));
    [|reflexivity].
  rewrite <- app_assoc. cbn [app].
  destruct (fetch world _ _ _) as [retryResponse|e]; [|reflexivity].
  destruct (http_ok retryResponse); [reflexivity|].
  destruct (http_text retryResponse); reflexivity.
Qed.

End RoutesProperties.

(** X14: a message to Telegram is cut to the limit and sending never
    fails the caller.  [sendTelegramMessage] of routes.ts always returns;
    it makes at most two POSTs, none without a bot token; every POST goes to
    the sendMessage URL of the token, for the given chat, with the same
    text of at most 4096 code units: the given text when it fits, else its
    first 4093 code units followed by three dots. *)
Theorem telegram_message_is_cut_to_limit :
  forall world chatId text t,
  exists calls,
    Routes.sendTelegramMessage world chatId text t = (Returned tt, t ++ calls) /\
    List.length calls <= 2 /\
    (truthy (nullish (Telegram.TELEGRAM_BOT_TOKEN world) []) = false ->
     calls = []) /\
    Forall (fun c =>
              exists mode,
                c = Telegram.Post
                      (Telegram.sendMessageUrl
                         (nullish (Telegram.TELEGRAM_BOT_TOKEN world) []))
                      {| Telegram.chat_id := chatId;
                         Telegram.text := truncated text;
                         Telegram.parse_mode := mode |}) calls /\
    List.length (truncated text) <= 4096 /\
    (List.length text <= 4096 -> truncated text = text) /\
    (4096 < List.length text ->
     truncated text = firstn 4093 text ++ js "...").
Proof.
  intros world chatId text t.
  pose proof (routes_send_cases world chatId text t) as E. cbv zeta in E.
  eexists. split; [exact E|].
  split; [|split; [|split; [|split; [|split]]]].
  - destruct (truthy _); [|cbn; lia].
    match goal with |- context [if ?b then [_] else []] => destruct b end;
      cbn; lia.
  - intros ->. reflexivity.
  - destruct (truthy _); [|constructor].
    constructor; [eexists; reflexivity|].
    match goal with |- context [if ?b then [_] else []] => destruct b end;
      [|constructor].
    constructor; [eexists; reflexivity | constructor].
  - apply truncated_length.
  - apply truncated_short.
  - intro H. now apply truncated_long.
Qed.

(** X15: the retry without Markdown.  With a bot token, the first POST
    asks for Markdown; a second POST follows exactly when the first
    response is not ok and its text includes parse or markdown (lower
    case), and it is the same message without parse_mode; the outcome of
    the retry is not acted on. *)
Theorem markdown_retry_rule :
  forall world chatId text t,
    truthy (nullish (Telegram.TELEGRAM_BOT_TOKEN world) []) = true ->
    let url := Telegram.sendMessageUrl
                 (nullish (Telegram.TELEGRAM_BOT_TOKEN world) []) in
    let first := {| Telegram.chat_id := chatId;
                    Telegram.text := truncated text;
                    Telegram.parse_mode := Some (js "Markdown") |} in
    let retry := {| Telegram.chat_id := chatId;
                    Telegram.text := truncated text;
                    Telegram.parse_mode := None |} in
    let parse_failure :=
      exists response errorText,
        Telegram.fetch world t url first = Returned response /\
        Telegram.http_ok response = false /\
        Telegram.http_text response = Returned errorText /\
        (includes errorText (js "parse")
         || includes errorText (js "markdown")) = true in
    (parse_failure /\
     Routes.sendTelegramMessage world chatId text t =
     (Returned tt, t ++ [Telegram.Post url first; Telegram.Post url retry]))
    \/
    (~ parse_failure /\
     Routes.sendTelegramMessage world chatId text t =
     (Returned tt, t ++ [Telegram.Post url first])).
Proof.
  intros world chatId text t Htok url first retry parse_failure.
  pose proof (routes_send_cases world chatId text t) as E. cbv zeta in E.
  rewrite Htok in E. fold url first retry in E. rewrite E.
  unfold parse_failure.
  destruct (Telegram.fetch world t url first) as [response|e] eqn:Hf.
  - destruct (Telegram.http_ok response) eqn:Hok; cbn [negb andb].
    + right. split; [|reflexivity].
      intros (r & x & Hr & Hk & _). inversion Hr; subst. congruence.
    + destruct (Telegram.http_text response) as [errorText|e] eqn:Ht.
      * destruct (includes errorText (js "parse")
                  || includes errorText (js "markdown")) eqn:Hi.
        -- left. split; [|reflexivity]. exists response, errorText. auto.
        -- right. split; [|reflexivity].
           intros (r & x & Hr & _ & Hx & Hy). inversion Hr; subst.
           rewrite Ht in Hx. inversion Hx; subst. congruence.
      * right. split; [|reflexivity].
        intros (r & x & Hr & _ & Hx & _). inversion Hr; subst.
        rewrite Ht in Hx. discriminate.
  - right. split; [|reflexivity].
    intros (r & x & Hr & _). discriminate.
Qed.


Lemma markdown_retry_rule_witness :
  Routes.sendTelegramMessage markdown_rejecting_world 7 (js "*Hi") [] =
  (Returned tt,
   [] ++ [Telegram.Post (js "https://api.telegram.org/bot123:abc/sendMessage")
            {| Telegram.chat_id := 7; Telegram.text := js "*Hi";
               Telegram.parse_mode := Some (js "Markdown") |};
          Telegram.Post (js "https://api.telegram.org/bot123:abc/sendMessage")
            {| Telegram.chat_id := 7; Telegram.text := js "*Hi";
               Telegram.parse_mode := None |}]).
Proof.
  destruct (markdown_retry_rule markdown_rejecting_world 7 (js "*Hi") []
              eq_refl) as [[_ E] | [H _]].
  - exact E.
  - exfalso. apply H. eexists. eexists.
    split; [reflexivity|]. split; [reflexivity|]. split; reflexivity.
Defined.

Section PlatformProperties.

Import Telegram.

Variable world : World.

Lemma condensed_length (s : jsstring) :
  List.length (firstn 4090 s ++ js "...") <= 4096.
Proof.
  rewrite length_app. pose proof (firstn_le_length 4090 s).
  assert (H3 : List.length (js "...") = 3) by reflexivity. lia.
Qed.

(** [condenseMessage] calls the model once and settles on a text. *)
Lemma condense_cases (text : jsstring) (t : list Call) :
  PlatformRoutes.condenseMessage world text t =
  (Returned
     match llm_invoke world t (PlatformRoutes.condensePrompt text) with
     | Returned condensed =>
         if Nat.ltb 4096 (List.length condensed)
         then firstn 4090 condensed ++ js "..." else condensed
     | Thrown _ => firstn 4090 text ++ js "..."
     end,
   t ++ [Condense (PlatformRoutes.condensePrompt text)]).
Proof.
  unfold PlatformRoutes.condenseMessage, Io.try_catch, Io.bind, Io.call,
    Io.ret.
  destruct (llm_invoke world t _) as [condensed|e]; [|reflexivity].
  destruct (Nat.ltb 4096 (List.length condensed)); reflexivity.
Qed.

End PlatformProperties.

(** X16: condensing always yields a text that fits.  [condenseMessage]
    calls the model once and always returns a text of at most 4096 code
    units: the reply of the model when it fits, the first 4090 code units of
    the reply and three dots when it does not, and the first 4090 code units
    of the original text and three dots when the model fails. *)
Theorem condensed_text_fits :
  forall world text t,
  exists condensed,
    PlatformRoutes.condenseMessage world text t =
    (Returned condensed,
     t ++ [Telegram.Condense (PlatformRoutes.condensePrompt text)]) /\
    List.length condensed <= 4096 /\
    (forall reply,
        Telegram.llm_invoke world t (PlatformRoutes.condensePrompt text)
        = Returned reply ->
        condensed = if Nat.ltb 4096 (List.length reply)
                    then firstn 4090 reply ++ js "..." else reply) /\
    (forall e,
        Telegram.llm_invoke world t (PlatformRoutes.condensePrompt text)
        = Thrown e ->
        condensed = firstn 4090 text ++ js "...").
Proof.
  intros world text t. eexists. split; [apply condense_cases|].
  destruct (Telegram.llm_invoke world t _) as [reply|e].
  - split; [|split; [intros r H; now inversion H | intros x H; discriminate]].
    destruct (Nat.ltb 4096 (List.length reply)) eqn:H.
    + apply condensed_length.
    + now apply Nat.ltb_ge in H.
  - split; [apply condensed_length|].
    split; [intros r H; discriminate | reflexivity].
Qed.

(** X17: the platform routes never post more than the limit.
    [sendTelegramMessage] of the platform routes always returns; it makes at
    most one POST, with a text of at most 4096 code units, which is the
    given text when that fits; a longer text costs one call to the model
    first, and a text that fits costs none. *)
Theorem platform_message_fits :
  forall world chatId text t,
  exists calls,
    PlatformRoutes.sendTelegramMessage world chatId text t
    = (Returned tt, t ++ calls) /\
    List.length (posted_texts calls) <= 1 /\
    Forall (fun x => List.length x <= 4096) (posted_texts calls) /\
    (List.length text <= 4096 ->
     Forall (fun x => x = text) (posted_texts calls) /\
     Forall (fun c => match c with Telegram.Condense _ => False | _ => True end)
            calls).
Proof.
  intros world chatId text t.
  unfold PlatformRoutes.sendTelegramMessage.
  destruct (truthy (nullish (Telegram.TELEGRAM_BOT_TOKEN world) []));
    cbn [negb].
  2:{ exists []. unfold Io.ret. rewrite app_nil_r.
      cbn [posted_texts flat_map List.length].
      repeat split; auto. }
  destruct (Nat.ltb 4096 (List.length text)) eqn:Hlen.
  - unfold Io.bind at 1. rewrite condense_cases.
    set (c := match Telegram.llm_invoke world t
                      (PlatformRoutes.condensePrompt text) with
              | Returned condensed =>
                  if Nat.ltb 4096 (List.length condensed)
                  then firstn 4090 condensed ++ js "..." else condensed
              | Thrown _ => firstn 4090 text ++ js "..."
              end).
    assert (Hc : List.length c <= 4096).
    { unfold c. destruct (Telegram.llm_invoke world t _) as [reply|e];
        [|apply condensed_length].
      destruct (Nat.ltb 4096 (List.length reply)) eqn:H;
        [apply condensed_length | now apply Nat.ltb_ge in H]. }
    clearbody c.
    unfold PlatformRoutes.post, Io.try_catch, Io.bind, Io.call, Io.await,
      Io.ret.
    eexists.
    split.
    + destruct (Telegram.fetch world _ _ _) as [response|e];
        [destruct (Telegram.http_ok response); cbn [negb];
         [|destruct (Telegram.http_text response)]|];
        rewrite <- app_assoc; reflexivity.
    + cbn [posted_texts flat_map app List.length Telegram.text].
      split; [lia|].
      split; [constructor; [exact Hc | constructor]|].
      intro Hle. apply Nat.ltb_lt in Hlen. lia.
  - unfold Io.bind at 1. unfold Io.ret at 1.
    unfold PlatformRoutes.post, Io.try_catch, Io.bind, Io.call, Io.await,
      Io.ret.
    apply Nat.ltb_ge in Hlen.
    eexists. split.
    + destruct (Telegram.fetch world _ _ _) as [response|e];
        [destruct (Telegram.http_ok response); cbn [negb];
         [|destruct (Telegram.http_text response)]|];
        reflexivity.
    + cbn [posted_texts flat_map app List.length Telegram.text].
      split; [lia|].
      split; [constructor; [exact Hlen | constructor]|].
      intros _. split; repeat constructor.
Qed.


(** The loop over the stream keeps the content of the last chunk that
    ends with an assistant message. *)
Lemma last_assistant_chunk (before after : list Telegram.Chunk)
      (msgs : list Telegram.StreamMessage) (m : Telegram.StreamMessage)
      (acc : jsstring) :
  Telegram.is_assistant m = true ->
  Forall (fun chunk =>
            match chunk with
            | Some ms =>
                match rev ms with
                | lastMsg :: _ => Telegram.is_assistant lastMsg = false
                | [] => True
                end
            | None => True
            end) after ->
  fold_left Telegram.on_chunk (before ++ Some (msgs ++ [m]) :: after) acc
  = opt_or (Telegram.msg_content m) [].
Proof.
  intros Hm Hafter. rewrite fold_left_app. cbn [fold_left].
  set (x := fold_left Telegram.on_chunk before acc). clearbody x.
  assert (E : Telegram.on_chunk x (Some (msgs ++ [m]))
              = opt_or (Telegram.msg_content m) []).
  { unfold Telegram.on_chunk. rewrite rev_app_distr. cbn [rev app].
    now rewrite Hm. }
  rewrite E. clear E x.
  generalize (opt_or (Telegram.msg_content m) []) as y.
  induction Hafter as [|chunk after Hc _ IH]; intro y; [reflexivity|].
  cbn [fold_left].
  assert (E : Telegram.on_chunk y chunk = y).
  { unfold Telegram.on_chunk. destruct chunk as [ms|]; [|reflexivity].
    destruct (rev ms) as [|lastMsg ?]; [reflexivity|]. now rewrite Hc. }
  rewrite E. apply IH.
Qed.

Lemma posted_texts_routes (world : Telegram.World) (chatId : Z)
      (text : jsstring) (t : list Telegram.Call) :
  exists calls,
    Routes.sendTelegramMessage world chatId text t = (Returned tt, t ++ calls) /\
    List.length calls <= 2 /\
    Forall (fun x => x = truncated text) (posted_texts calls) /\
    (truthy (nullish (Telegram.TELEGRAM_BOT_TOKEN world) []) = true ->
     posted_texts calls <> []).
Proof.
  pose proof (routes_send_cases world chatId text t) as E. cbv zeta in E.
  eexists. split; [exact E|].
  destruct (truthy _).
  - match goal with |- context [if ?b then [_] else []] => destruct b end;
      cbn [posted_texts flat_map app List.length Telegram.text];
      (split; [lia|]); (split; [repeat constructor | discriminate]).
  - cbn [posted_texts flat_map List.length].
    split; [lia|]. split; [constructor | discriminate].
Qed.

(** X18: the user is sent the last assistant message of the run.  When
    the stream of the run ends normally and its last chunk ending with an
    assistant message ends with the message [m], every POST of [respond]
    carries the content of [m], cut to the limit; with a bot token and a
    non-empty content there is such a POST, and with an empty content
    nothing is sent. *)
Theorem respond_sends_last_assistant_message :
  forall world chatId threadId messageText t before msgs m after,
    Telegram.runs_stream world t threadId messageText
    = Returned (before ++ Some (msgs ++ [m]) :: after) ->
    Telegram.is_assistant m = true ->
    Forall (fun chunk =>
              match chunk with
              | Some ms =>
                  match rev ms with
                  | lastMsg :: _ => Telegram.is_assistant lastMsg = false
                  | [] => True
                  end
              | None => True
              end) after ->
    let content := opt_or (Telegram.msg_content m) [] in
    exists calls,
      Routes.respond world chatId threadId messageText t
      = (Returned tt, t ++ Telegram.Stream threadId messageText :: calls) /\
      Forall (fun x => x = truncated content) (posted_texts calls) /\
      (content = [] -> calls = []) /\
      (content <> [] ->
       truthy (nullish (Telegram.TELEGRAM_BOT_TOKEN world) []) = true ->
       posted_texts calls <> []).
Proof.
  intros world chatId threadId messageText t before msgs m after Hs Hm Hafter
         content.
  unfold Routes.respond, Telegram.respond, Io.try_catch, Io.bind, Io.call.
  rewrite Hs. cbv beta iota zeta.
  pose proof (last_assistant_chunk before after msgs m [] Hm Hafter) as Hl.
  unfold Telegram.Chunk, jsstring in *. rewrite Hl.
  fold content.
  destruct content as [|c content'] eqn:Hc.
  - exists []. cbn [truthy]. unfold Io.ret.
    cbn [app posted_texts flat_map].
    repeat split; auto.
  - cbn [truthy].
    destruct (posted_texts_routes world chatId (c :: content')
                (t ++ [Telegram.Stream threadId messageText]))
      as (calls & E & _ & Hall & Hsome).
    exists calls. rewrite E, <- app_assoc. cbn [app].
    repeat split; auto. discriminate.
Qed.

Lemma respond_sends_last_assistant_message_witness :
  exists calls,
    Routes.respond markdown_rejecting_world 7 (js "thread-1") (js "Hello") []
    = (Returned tt,
       [] ++ Telegram.Stream (js "thread-1") (js "Hello") :: calls) /\
    Forall (fun x => x = truncated (js "*Hi")) (posted_texts calls) /\
    posted_texts calls <> [].
Proof.
  destruct (respond_sends_last_assistant_message
              markdown_rejecting_world 7 (js "thread-1") (js "Hello") []
              [Some [{| Telegram.msg_type := Some (js "human");
                        Telegram.msg_role := None;
                        Telegram.msg_content := Some (js "Hello") |}]]
              [{| Telegram.msg_type := Some (js "human");
                  Telegram.msg_role := None;
                  Telegram.msg_content := Some (js "Hello") |}]
              {| Telegram.msg_type := Some (js "ai");
                 Telegram.msg_role := None;
                 Telegram.msg_content := Some (js "*Hi") |}
              [] eq_refl eq_refl (Forall_nil _))
    as (calls & E & Hall & _ & Hsome).
  exists calls. split; [exact E|]. split; [exact Hall|].
  apply Hsome; [discriminate | reflexivity].
Defined.

(** X19: an update is answered or apologised for, never both.
    [respond] always returns after at most two POSTs; when the stream of the
    run ends normally every POST carries the text read from the stream (cut
    to the limit) and nothing is sent when that text is empty; when the
    stream fails every POST carries the apology.  A failure to send is never
    followed by the apology. *)
Theorem respond_answers_or_apologises :
  forall world chatId threadId messageText t,
  exists calls,
    Routes.respond world chatId threadId messageText t
    = (Returned tt, t ++ Telegram.Stream threadId messageText :: calls) /\
    List.length calls <= 2 /\
    match Telegram.runs_stream world t threadId messageText with
    | Returned chunks =>
        let aiResponse := fold_left Telegram.on_chunk chunks [] in
        Forall (fun x => x = truncated aiResponse) (posted_texts calls) /\
        (aiResponse = [] -> calls = [])
    | Thrown _ =>
        Forall (fun x => x = Telegram.sorry) (posted_texts calls)
    end.
Proof.
  intros world chatId threadId messageText t.
  unfold Routes.respond, Telegram.respond, Io.try_catch, Io.bind, Io.call.
  destruct (Telegram.runs_stream world t threadId messageText)
    as [chunks|e].
  - cbv zeta.
    destruct (fold_left Telegram.on_chunk chunks []) as [|c rest] eqn:Hai.
    + exists []. cbn [truthy]. unfold Io.ret.
      cbn [app posted_texts flat_map List.length]. repeat split; auto.
    + cbn [truthy].
      destruct (posted_texts_routes world chatId (c :: rest)
                  (t ++ [Telegram.Stream threadId messageText]))
        as (calls & E & Hlen & Hall & _).
      exists calls. rewrite E, <- app_assoc. cbn [app].
      repeat split; auto. discriminate.
  - destruct (posted_texts_routes world chatId Telegram.sorry
                (t ++ [Telegram.Stream threadId messageText]))
      as (calls & E & Hlen & Hall & _).
    exists calls. rewrite E, <- app_assoc. cbn [app].
    repeat split; auto.
Qed.

(* ================================================================== *)
(** * Loops of calls *)
(* ================================================================== *)

(** A loop of calls makes the calls of a front part of its items, in
    order: all of them when it returns, and up to the call that failed when
    it throws. *)
Lemma for_each_call {E A : Type} (ev : A -> E)
      (ans : A -> list E -> outcome unit) (items : list A) (t : list E) :
  exists o sent rest,
    Io.for_each (fun x => Io.call (ev x) (ans x)) items t
    = (o, t ++ map ev sent) /\
    items = sent ++ rest /\
    (o = Returned tt /\ rest = []
     \/
     exists e, o = Thrown e /\ sent <> [] /\
               exists earlier x,
                 sent = earlier ++ [x] /\
                 ans x (t ++ map ev earlier) = Thrown e).
Proof.
  revert t. induction items as [|x items IH]; intro t.
  - exists (Returned tt), [], []. cbn. unfold Io.ret. rewrite app_nil_r. auto.
  - cbn [Io.for_each]. unfold Io.bind, Io.call at 1.
    destruct (ans x t) as [[]|e] eqn:Hx.
    + destruct (IH (t ++ [ev x])) as (o & sent & rest & Hrun & Hi & Ho).
      exists o, (x :: sent), rest. rewrite Hrun, <- app_assoc. cbn [map app].
      split; [reflexivity|]. split; [now rewrite Hi|].
      destruct Ho as [Ho | (e & Ho & _ & earlier & y & Hs & Hy)];
        [left; exact Ho|].
      right. exists e. split; [exact Ho|]. split; [discriminate|].
      exists (x :: earlier), y. split; [now rewrite Hs|].
      cbn [map]. rewrite <- app_assoc in Hy. exact Hy.
    + exists (Thrown e), [x], items. cbn [map app].
      split; [reflexivity|]. split; [reflexivity|].
      right. exists e. split; [reflexivity|]. split; [discriminate|].
      exists [], x. cbn [map app]. rewrite app_nil_r. auto.
Qed.

Lemma for_each_call_ok {E A : Type} (ev : A -> E)
      (ans : A -> list E -> outcome unit) (items : list A) (t : list E) :
  (forall x t', ans x t' = Returned tt) ->
  Io.for_each (fun x => Io.call (ev x) (ans x)) items t
  = (Returned tt, t ++ map ev items).
Proof.
  intro Hok. revert t. induction items as [|x items IH]; intro t.
  - cbn. unfold Io.ret. now rewrite app_nil_r.
  - cbn [Io.for_each]. unfold Io.bind, Io.call at 1. rewrite Hok.
    rewrite IH, <- app_assoc. reflexivity.
Qed.

(* ================================================================== *)
(** * The text handler of the bot *)
(* ================================================================== *)

Lemma chunks_of_concat (n fuel : nat) (s : jsstring) :
  1 <= n -> List.length s <= fuel ->
  concat (Bot.chunks_of fuel n s) = s.
Proof.
  intro Hn. revert s. induction fuel as [|fuel IH]; intros s Hlen.
  - destruct s; [reflexivity | cbn in Hlen; lia].
  - cbn [Bot.chunks_of]. destruct s as [|c s]; [reflexivity|].
    cbn [concat]. rewrite IH.
    + apply firstn_skipn.
    + rewrite length_skipn. cbn [List.length] in *. lia.
Qed.

(** The pieces are full, except the last one, which is not empty. *)
Lemma chunks_of_shape (n fuel : nat) (s : jsstring) :
  1 <= n -> List.length s <= fuel -> s <> [] ->
  exists full last,
    Bot.chunks_of fuel n s = full ++ [last] /\
    Forall (fun c => List.length c = n) full /\
    1 <= List.length last <= n.
Proof.
  intro Hn. revert s. induction fuel as [|fuel IH]; intros s Hlen Hs.
  - destruct s; [congruence | cbn in Hlen; lia].
  - cbn [Bot.chunks_of]. destruct s as [|c s]; [congruence|].
    destruct (skipn n (c :: s)) as [|c' s'] eqn:Hsk.
    + exists [], (firstn n (c :: s)).
      destruct fuel; cbn [Bot.chunks_of app]; (split; [reflexivity|]);
        (split; [constructor|]);
        (assert (Hl : List.length (c :: s) <= n)
           by (destruct (Nat.le_gt_cases (List.length (c :: s)) n) as [H|H];
               [exact H|];
               assert (List.length (skipn n (c :: s)) > 0)
                 by (rewrite length_skipn; lia);
               rewrite Hsk in *; cbn in *; lia));
        rewrite firstn_all2 by exact Hl; cbn [List.length] in *; lia.
    + destruct (IH (c' :: s')) as (full & last & E & Hfull & Hlast).
      * rewrite <- Hsk, length_skipn. cbn [List.length] in *. lia.
      * discriminate.
      * exists (firstn n (c :: s) :: full), last. rewrite E.
        split; [reflexivity|]. split; [|exact Hlast].
        constructor; [|exact Hfull].
        apply firstn_length_le.
        assert (List.length (skipn n (c :: s)) > 0)
          by (rewrite Hsk; cbn; lia).
        rewrite length_skipn in *. lia.
Qed.

(** X20: a long answer is split without loss.  The pieces
    [match(/.{1,4000}/gs)] makes of a text, joined in order, are the text;
    every piece but the last has exactly 4000 code units and the last has
    between 1 and 4000. *)
Theorem long_answer_is_split_without_loss :
  forall s chunks,
    Bot.match_chunks s = Some chunks ->
    concat chunks = s /\
    exists full last,
      chunks = full ++ [last] /\
      Forall (fun c => List.length c = 4000) full /\
      1 <= List.length last <= 4000.
Proof.
  intros s chunks H. unfold Bot.match_chunks in H.
  destruct s as [|c s]; [discriminate|].
  apply (f_equal (fun o => nullish o [])) in H. cbn [nullish] in H.
  subst chunks. split.
  - apply chunks_of_concat; [lia | apply Nat.le_refl].
  - apply chunks_of_shape; [lia | apply Nat.le_refl | discriminate].
Qed.

Lemma long_answer_is_split_without_loss_witness :
  concat [repeat 97%N 4000; repeat 97%N 1000] = long_text.
Proof.
  apply (long_answer_is_split_without_loss
           long_text [repeat 97%N 4000; repeat 97%N 1000]).
  vm_compute. reflexivity.
Defined.


(** The pieces the handler replies with for an answer. *)
Lemma answer_pieces (a : jsstring) :
  let pieces :=
    if Nat.ltb 4000 (List.length a)
    then nullish (Bot.match_chunks a) [] else [a] in
  concat pieces = a /\
  Forall (fun c => List.length c <= 4000) pieces /\
  pieces <> [].
Proof.
  cbv zeta. destruct (Nat.ltb 4000 (List.length a)) eqn:Hlen.
  - apply Nat.ltb_lt in Hlen.
    destruct a as [|c a]; [cbn in Hlen; lia|].
    unfold Bot.match_chunks. cbn [nullish].
    destruct (chunks_of_shape 4000 (List.length (c :: a)) (c :: a))
      as (full & last & E & Hfull & Hlast);
      [lia | apply Nat.le_refl | discriminate|].
    split; [apply chunks_of_concat; [lia | apply Nat.le_refl]|].
    rewrite E. split.
    + apply Forall_app. split.
      * eapply Forall_impl; [|exact Hfull]. cbv beta. intros x Hx. lia.
      * constructor; [lia | constructor].
    + destruct full; discriminate.
  - apply Nat.ltb_ge in Hlen. cbn [concat]. rewrite app_nil_r.
    split; [reflexivity|]. split; [|discriminate].
    constructor; [exact Hlen | constructor].
Qed.

(** X21: the answer reaches the user whole.  For a message that is not a
    command, when the typing action and the workflow succeed and every
    reply is accepted, the handler returns after the typing action, one run
    of the workflow on the thread named after the chat, and one or more
    Markdown replies of at most 4000 code units each whose texts, joined in
    order, are the answer of the workflow. *)
Theorem bot_delivers_whole_answer :
  forall world chat userMessage t result,
    starts_with (js "/") userMessage = false ->
    Bot.sendChatAction world t (js "typing") = Returned tt ->
    Bot.workflow_invoke world (t ++ [Bot.SendChatAction (js "typing")])
                        [HumanMessage userMessage] (Z_toString chat)
    = Returned result ->
    (forall t' text mode, Bot.reply world t' text mode = Returned tt) ->
    exists pieces,
      Bot.on_text world chat userMessage t =
      (Returned tt,
       t ++ [Bot.SendChatAction (js "typing");
             Bot.WorkflowInvoke [HumanMessage userMessage] (Z_toString chat)]
         ++ map (fun c => Bot.Reply c (Some (js "Markdown"))) pieces) /\
      concat pieces = Simple.answer result /\
      Forall (fun c => List.length c <= 4000) pieces /\
      pieces <> [].
Proof.
  intros world chat userMessage t result Hcmd Htyping Hrun Hreply.
  destruct (answer_pieces (Simple.answer result)) as (Hc & Hall & Hne).
  eexists. split; [|split; [exact Hc | split; [exact Hall | exact Hne]]].
  unfold Bot.on_text. rewrite Hcmd.
  unfold Io.try_catch, Io.bind, Io.call at 1 2.
  rewrite Htyping, Hrun.
  destruct (Nat.ltb 4000 (List.length (Simple.answer result))).
  - unfold Bot.ctx_reply.
    rewrite (for_each_call_ok
               (fun c => Bot.Reply c (Some (js "Markdown")))
               (fun c t' => Bot.reply world t' c (Some (js "Markdown"))))
      by (intros; apply Hreply).
    now rewrite <- !app_assoc.
  - unfold Bot.ctx_reply, Io.call. rewrite Hreply.
    now rewrite <- !app_assoc.
Qed.

Lemma bot_delivers_whole_answer_witness :
  exists pieces,
    Bot.on_text verbose_bot 42 (js "Tell me everything") [] =
    (Returned tt,
     [] ++ [Bot.SendChatAction (js "typing");
            Bot.WorkflowInvoke [HumanMessage (js "Tell me everything")]
                               (js "42")]
        ++ map (fun c => Bot.Reply c (Some (js "Markdown"))) pieces) /\
    concat pieces = long_text /\
    Forall (fun c => List.length c <= 4000) pieces /\
    pieces <> [].
Proof.
  apply (bot_delivers_whole_answer
           verbose_bot 42 (js "Tell me everything") []
           {| Simple.messages :=
                [HumanMessage (js "Tell me everything")]
                  ++ [AIMessage long_text];
              Simple.retrievedDocs := [];
              Simple.answer := long_text;
              Simple.errors := [] |});
    reflexivity.
Defined.

(** X22: what the text handler may send.  In every world the handler
    makes no call at all for a message that starts with a slash; otherwise
    every reply it sends is a Markdown reply of at most 4000 code units,
    or the fixed error text without parse mode, which is sent at most once,
    as the last call, and only when the call made just before it failed. *)
Theorem bot_replies_fit_or_apologise :
  forall world chat userMessage t,
  exists o calls,
    Bot.on_text world chat userMessage t = (o, t ++ calls) /\
    (starts_with (js "/") userMessage = true ->
     o = Returned tt /\ calls = []) /\
    ((Forall (fun r => snd r = Some (js "Markdown")
                       /\ List.length (fst r) <= 4000) (replies calls)
      /\ o = Returned tt)
     \/
     (exists before,
         calls = before ++ [Bot.Reply Bot.errorReply None] /\
         before <> [] /\
         Forall (fun r => snd r = Some (js "Markdown")
                          /\ List.length (fst r) <= 4000) (replies before) /\
         exists earlier failed,
           before = earlier ++ [failed] /\
           call_failed world (t ++ earlier) failed = true)).
Proof.
  intros world chat userMessage t.
  unfold Bot.on_text.
  destruct (starts_with (js "/") userMessage) eqn:Hcmd.
  { exists (Returned tt), []. unfold Io.ret. rewrite app_nil_r.
    split; [reflexivity|]. split; [auto|]. left. split; [constructor|reflexivity]. }
  set (typing := Bot.SendChatAction (js "typing")).
  set (run := Bot.WorkflowInvoke [HumanMessage userMessage] (Z_toString chat)).
  assert (Hfail : forall earlier failed,
             call_failed world (t ++ earlier) failed = true ->
             Forall (fun r => snd r = Some (js "Markdown")
                              /\ List.length (fst r) <= 4000)
                    (replies (earlier ++ [failed])) ->
             exists o calls,
               Bot.ctx_reply world Bot.errorReply None
                             (t ++ earlier ++ [failed])
               = (o, t ++ calls) /\
               (false = true -> o = Returned tt /\ calls = []) /\
               ((Forall (fun r => snd r = Some (js "Markdown")
                                  /\ List.length (fst r) <= 4000)
                        (replies calls) /\ o = Returned tt)
                \/
                (exists before0,
                    calls = before0 ++ [Bot.Reply Bot.errorReply None] /\
                    before0 <> [] /\
                    Forall (fun r => snd r = Some (js "Markdown")
                                     /\ List.length (fst r) <= 4000)
                           (replies before0) /\
                    exists earlier0 failed0,
                      before0 = earlier0 ++ [failed0] /\
                      call_failed world (t ++ earlier0) failed0 = true))).
  { intros earlier failed Hthrown Hall. unfold Bot.ctx_reply, Io.call.
    eexists. exists ((earlier ++ [failed]) ++ [Bot.Reply Bot.errorReply None]).
    rewrite !app_assoc. split; [reflexivity|].
    split; [congruence|]. right. exists (earlier ++ [failed]).
    split; [reflexivity|].
    split; [intro H; now apply app_eq_nil in H as [_ H]|].
    split; [exact Hall|]. exists earlier, failed. auto. }
  unfold Io.try_catch, Io.bind, Io.call at 1 2.
  destruct (Bot.sendChatAction world t (js "typing")) as [[]|e] eqn:Htyping.
  2:{ apply (Hfail [] typing); [|constructor].
      unfold typing, call_failed. now rewrite app_nil_r, Htyping. }
  destruct (Bot.workflow_invoke world _ _ _) as [result|e] eqn:Hinvoke.
  2:{ rewrite <- app_assoc.
      apply (Hfail [typing] run); [|constructor].
      unfold run, call_failed. now rewrite Hinvoke. }
  destruct (answer_pieces (Simple.answer result)) as (_ & Hall & _).
  destruct (Nat.ltb 4000 (List.length (Simple.answer result))).
  - unfold Bot.ctx_reply at 1.
    destruct (for_each_call
                (fun c => Bot.Reply c (Some (js "Markdown")))
                (fun c t' => Bot.reply world t' c (Some (js "Markdown")))
                (nullish (Bot.match_chunks (Simple.answer result)) [])
                ((t ++ [typing]) ++ [run]))
      as (o & sent & rest & Hrun & Hitems & Ho).
    rewrite Hrun.
    assert (Hsent : Forall (fun r => snd r = Some (js "Markdown")
                                     /\ List.length (fst r) <= 4000)
                           (replies ([typing; run]
                                       ++ map (fun c => Bot.Reply c
                                                 (Some (js "Markdown")))
                                              sent))).
    { rewrite Hitems in Hall. apply Forall_app in Hall.
      destruct Hall as [Hall _]. cbn [app replies flat_map].
      clear - Hall. induction Hall as [|c sent Hc _ IH]; [constructor|].
      cbn [map flat_map app]. constructor; [|exact IH]. cbn. auto. }
    destruct Ho as [[-> _] | (e & -> & _ & before & c & Hlast & Hc)].
    + exists (Returned tt). eexists.
      rewrite <- !app_assoc. split; [reflexivity|].
      split; [congruence|]. left. split; [exact Hsent | reflexivity].
    + rewrite Hlast, map_app in Hsent |- *. cbn [map] in Hsent |- *.
      rewrite <- !app_assoc in Hc.
      rewrite <- !app_assoc.
      apply (Hfail ([typing] ++ [run]
                      ++ map (fun c => Bot.Reply c (Some (js "Markdown")))
                             before)
                   (Bot.Reply c (Some (js "Markdown")))).
      * unfold call_failed. now rewrite Hc.
      * rewrite <- !app_assoc. exact Hsent.
  - unfold Bot.ctx_reply at 1. unfold Io.call at 1.
    assert (Hone : Forall (fun r => snd r = Some (js "Markdown")
                                    /\ List.length (fst r) <= 4000)
                          (replies [typing; run;
                                    Bot.Reply (Simple.answer result)
                                              (Some (js "Markdown"))])).
    { cbn [replies flat_map app]. inversion Hall; subst.
      constructor; [cbn; auto | constructor]. }
    destruct (Bot.reply world _ _ _) as [[]|e] eqn:Hreply.
    + exists (Returned tt). eexists.
      rewrite <- !app_assoc. split; [reflexivity|].
      split; [congruence|]. left. split; [exact Hone | reflexivity].
    + rewrite <- !app_assoc.
      apply (Hfail ([typing] ++ [run])
                   (Bot.Reply (Simple.answer result) (Some (js "Markdown")))).
      * unfold call_failed. rewrite <- !app_assoc in Hreply.
        now rewrite Hreply.
      * exact Hone.
Qed.

(* ================================================================== *)
(** * Batches for the vector store *)
(* ================================================================== *)

Lemma firstn_add {A : Type} (a d : nat) (l : list A) :
  firstn (a + d) l = firstn a l ++ firstn d (skipn a l).
Proof.
  revert l. induction a as [|a IH]; intro l; [reflexivity|].
  destruct l as [|x l]; cbn [Nat.add firstn skipn app].
  - now rewrite firstn_nil.
  - now rewrite IH.
Qed.

Lemma firstn_min_length {A : Type} (m : nat) (l : list A) :
  firstn (Nat.min m (List.length l)) l = firstn m l.
Proof.
  destruct (Nat.le_gt_cases m (List.length l)) as [H | H].
  - now rewrite Nat.min_l.
  - rewrite Nat.min_r by lia. now rewrite !firstn_all2 by lia.
Qed.

(** The batch at index [i], for any batch size. *)
Lemma slice_batch {A : Type} (b i : nat) (l : list A) :
  slice (i * b) (Nat.min ((i + 1) * b) (List.length l)) l
  = firstn b (skipn (i * b) l).
Proof.
  unfold slice.
  rewrite <- (firstn_min_length b (skipn (i * b) l)), length_skipn.
  f_equal. lia.
Qed.

Lemma concat_batches {A : Type} (b k : nat) (l : list A) :
  concat (map (fun i => slice (i * b)
                              (Nat.min ((i + 1) * b) (List.length l)) l)
              (List.seq 0 k))
  = firstn (k * b) l.
Proof.
  induction k as [|k IH]; [reflexivity|].
  rewrite seq_S, map_app, concat_app, IH. cbn [Nat.add map concat].
  rewrite app_nil_r, slice_batch.
  replace (S k * b) with (k * b + b) by lia. now rewrite firstn_add.
Qed.

Lemma ceil_div_covers (n b : nat) : 1 <= b -> n <= Indexing.ceil_div n b * b.
Proof.
  intro Hb. unfold Indexing.ceil_div.
  pose proof (Nat.div_mod_eq (n + (b - 1)) b) as E.
  pose proof (Nat.mod_upper_bound (n + (b - 1)) b ltac:(lia)) as Hr.
  nia.
Qed.

Lemma ceil_div_tight (n b i : nat) :
  1 <= b -> i < Indexing.ceil_div n b -> i * b < n.
Proof.
  intros Hb Hi. unfold Indexing.ceil_div in Hi.
  pose proof (Nat.Div0.mul_div_le (n + (b - 1)) b) as E. nia.
Qed.

(** The batches of the loop of [addDocuments]. *)
Lemma batches_partition (docs : list Document) :
  let batches :=
    map (Indexing.batch_at docs)
        (List.seq 0 (Indexing.ceil_div (List.length docs) Indexing.BATCH_SIZE))
  in
  concat batches = docs /\
  Forall (fun batch => 1 <= List.length batch <= 100) batches.
Proof.
  cbv zeta. unfold Indexing.batch_at.
  assert (Hb : Indexing.BATCH_SIZE = 100) by reflexivity.
  generalize dependent Indexing.BATCH_SIZE. intros b Hb.
  split.
  - rewrite concat_batches. apply firstn_all2.
    apply ceil_div_covers. lia.
  - apply Forall_forall. intros batch Hin.
    apply in_map_iff in Hin. destruct Hin as (i & <- & Hi).
    apply in_seq in Hi.
    assert (i * b < List.length docs) by (apply ceil_div_tight; lia).
    rewrite slice_batch, length_firstn, length_skipn. lia.
Qed.

(** The loop over the batches: what is stored is a front part of the
    batches, all of them when the loop returns. *)
Lemma stored_batches_map (batches : list (list Document)) :
  stored_batches (map Indexing.AddDocuments batches) = batches.
Proof.
  induction batches as [|b bs IH]; [reflexivity|].
  cbn [map stored_batches flat_map app]. f_equal. exact IH.
Qed.

Lemma Thrown_inj {A : Type} (a b : jsstring) :
  @Thrown A a = Thrown b -> a = b.
Proof. congruence. Qed.

Lemma initialize_cases (world : Indexing.World) (t : list Indexing.Call) :
  let url := nullish (Indexing.SUPABASE_URL world) [] in
  let key := nullish (Indexing.SUPABASE_API_KEY world) [] in
  Indexing.initializeVectorStore world t =
  if truthy url && truthy key then
    (match Indexing.createClient world t url key with
     | Returned u => Returned u
     | Thrown e => Thrown (js "Failed to initialize pgvector: " ++ e)
     end,
     t ++ [Indexing.CreateClient url key])
  else
    (Thrown (js "Failed to initialize pgvector: "
               ++ js "SUPABASE_URL and SUPABASE_API_KEY must be set"),
     t).
Proof.
  cbv zeta. unfold Indexing.initializeVectorStore, Io.try_catch, Io.call,
    Io.throw.
  destruct (truthy (nullish (Indexing.SUPABASE_URL world) []));
    destruct (truthy (nullish (Indexing.SUPABASE_API_KEY world) []));
    cbn [negb orb andb]; try reflexivity.
  destruct (Indexing.createClient world t _ _); reflexivity.
Qed.

(** The store, when everything works: one client, then every batch. *)
Lemma addDocuments_run (world : Indexing.World) (docs : list Document)
      (t : list Indexing.Call) :
  let url := nullish (Indexing.SUPABASE_URL world) [] in
  let key := nullish (Indexing.SUPABASE_API_KEY world) [] in
  Indexing.new_embeddings world = Returned tt ->
  truthy url = true -> truthy key = true ->
  Indexing.createClient world t url key = Returned tt ->
  (forall t' batch, Indexing.store_addDocuments world t' batch = Returned tt) ->
  Indexing.addDocuments world docs t =
  (Returned tt,
   t ++ Indexing.CreateClient url key
     :: map Indexing.AddDocuments
          (map (Indexing.batch_at docs)
               (List.seq 0 (Indexing.ceil_div (List.length docs)
                                              Indexing.BATCH_SIZE)))).
Proof.
  intros url key Hemb Hurl Hkey Hclient Hstore.
  unfold Indexing.addDocuments, Io.try_catch. unfold Io.bind at 1.
  unfold Io.await. rewrite Hemb. unfold Io.bind at 1.
  rewrite initialize_cases. cbv zeta. fold url key.
  rewrite Hurl, Hkey, Hclient. cbn [andb].
  rewrite (for_each_call_ok
             (fun i => Indexing.AddDocuments (Indexing.batch_at docs i))
             (fun i t' => Indexing.store_addDocuments world t'
                            (Indexing.batch_at docs i)))
    by (intros; apply Hstore).
  rewrite <- app_assoc, map_map. reflexivity.
Qed.

(** X23: every chunk is stored once, in batches of at most 100.  With an
    embeddings object, the two Supabase settings, a client that can be
    created and a store that accepts every batch, [addDocuments] returns after creating the
    client once and handing the store batches of between 1 and 100
    documents which, joined in order, are the documents it was given (no
    batch at all for an empty list). *)
Theorem documents_stored_in_batches :
  forall world docs t,
    let url := nullish (Indexing.SUPABASE_URL world) [] in
    let key := nullish (Indexing.SUPABASE_API_KEY world) [] in
    Indexing.new_embeddings world = Returned tt ->
    truthy url = true -> truthy key = true ->
    Indexing.createClient world t url key = Returned tt ->
    (forall t' batch, Indexing.store_addDocuments world t' batch = Returned tt) ->
    exists batches,
      Indexing.addDocuments world docs t =
      (Returned tt,
       t ++ Indexing.CreateClient url key
         :: map Indexing.AddDocuments batches) /\
      concat batches = docs /\
      Forall (fun batch => 1 <= List.length batch <= 100) batches.
Proof.
  intros world docs t url key Hemb Hurl Hkey Hclient Hstore.
  destruct (batches_partition docs) as [Hc Hall]. cbv zeta in Hc, Hall.
  eexists. split; [|split; [exact Hc | exact Hall]].
  now apply addDocuments_run.
Qed.

(** X24: a failed indexing run stores a front part, never a wrong batch.
    In every world [addDocuments] hands the store batches of between 1 and
    100 documents that, joined in order, are a front part of the documents
    (all of them when it returns); when it throws, the message starts with
    the fixed prefix; and with a Supabase setting missing it throws before
    any call (when the embeddings object could be built). *)
Theorem failed_store_keeps_a_front_part :
  forall world docs t,
  exists o calls,
    Indexing.addDocuments world docs t = (o, t ++ calls) /\
    (exists rest, concat (stored_batches calls) ++ rest = docs) /\
    Forall (fun batch => 1 <= List.length batch <= 100)
           (stored_batches calls) /\
    (o = Returned tt -> concat (stored_batches calls) = docs) /\
    (forall e, o = Thrown e ->
               starts_with (js "Failed to add documents: ") e = true) /\
    (Indexing.new_embeddings world = Returned tt ->
     truthy (nullish (Indexing.SUPABASE_URL world) [])
     && truthy (nullish (Indexing.SUPABASE_API_KEY world) []) = false ->
     calls = [] /\
     o = Thrown (js "Failed to add documents: "
                   ++ js "Failed to initialize pgvector: "
                   ++ js "SUPABASE_URL and SUPABASE_API_KEY must be set")).
Proof.
  intros world docs t.
  destruct (batches_partition docs) as [Hc Hall]. cbv zeta in Hc, Hall.
  unfold Indexing.addDocuments, Io.try_catch. unfold Io.bind at 1.
  unfold Io.await.
  destruct (Indexing.new_embeddings world) as [[]|e0].
  2:{ eexists. exists []. unfold Io.throw. rewrite app_nil_r.
      split; [reflexivity|]. cbn [stored_batches flat_map concat app].
      split; [exists docs; reflexivity|]. split; [constructor|].
      split; [discriminate|]. split; [|discriminate].
      intros e He. apply Thrown_inj in He. subst. apply starts_with_app. }
  unfold Io.bind at 1.
  rewrite initialize_cases. cbv zeta.
  set (url := nullish (Indexing.SUPABASE_URL world) []).
  set (key := nullish (Indexing.SUPABASE_API_KEY world) []).
  destruct (truthy url && truthy key) eqn:Hcfg.
  2:{ eexists. exists []. unfold Io.throw. rewrite app_nil_r.
      split; [reflexivity|]. cbn [stored_batches flat_map concat app].
      split; [exists docs; reflexivity|]. split; [constructor|].
      split; [discriminate|]. split; [|auto].
      intros e He. apply Thrown_inj in He. subst. apply starts_with_app. }
  destruct (Indexing.createClient world t url key) as [[]|e].
  2:{ eexists. exists [Indexing.CreateClient url key]. unfold Io.throw.
      split; [reflexivity|]. cbn [stored_batches flat_map concat app].
      split; [exists docs; reflexivity|]. split; [constructor|].
      split; [discriminate|]. split; [|intros _; discriminate].
      intros e' He. apply Thrown_inj in He. subst. apply starts_with_app. }
  destruct (for_each_call
              (fun i => Indexing.AddDocuments (Indexing.batch_at docs i))
              (fun i t' => Indexing.store_addDocuments world t'
                             (Indexing.batch_at docs i))
              (List.seq 0 (Indexing.ceil_div (List.length docs)
                                             Indexing.BATCH_SIZE))
              (t ++ [Indexing.CreateClient url key]))
    as (o & sent & rest & Hrun & Hitems & Ho).
  rewrite Hrun. rewrite Hitems, map_app, concat_app in Hc.
  rewrite Hitems, map_app in Hall. apply Forall_app in Hall.
  destruct Hall as [Hsent _].
  assert (Hst : stored_batches
                  ([Indexing.CreateClient url key]
                     ++ map (fun i => Indexing.AddDocuments
                                        (Indexing.batch_at docs i)) sent)
                = map (Indexing.batch_at docs) sent).
  { cbn [app stored_batches flat_map].
    rewrite <- (stored_batches_map (map (Indexing.batch_at docs) sent)).
    now rewrite map_map. }
  destruct Ho as [[-> ->] | (e & -> & _)].
  - exists (Returned tt). eexists. rewrite <- app_assoc.
    split; [reflexivity|]. rewrite Hst.
    cbn [map concat] in Hc. rewrite app_nil_r in Hc.
    split; [exists []; now rewrite app_nil_r|]. split; [exact Hsent|].
    split; [auto|]. split; [discriminate | discriminate].
  - eexists. eexists. unfold Io.throw. rewrite <- app_assoc.
    split; [reflexivity|]. rewrite Hst.
    split; [eexists; exact Hc|]. split; [exact Hsent|].
    split; [discriminate|]. split; [|discriminate].
    intros e' He. apply Thrown_inj in He. subst. apply starts_with_app.
Qed.


Lemma documents_stored_in_batches_witness :
  exists batches,
    Indexing.addDocuments smooth_indexing many_chunks [] =
    (Returned tt,
     [] ++ Indexing.CreateClient (js "https://db.supabase.co") (js "key")
        :: map Indexing.AddDocuments batches) /\
    concat batches = many_chunks /\
    Forall (fun batch => 1 <= List.length batch <= 100) batches.
Proof.
  apply (documents_stored_in_batches smooth_indexing many_chunks []);
    intros; reflexivity.
Defined.

(* ================================================================== *)
(** * The chunker *)
(* ================================================================== *)

Lemma split_contents_app (a b : list Indexing.Call) :
  split_contents (a ++ b) = split_contents a ++ split_contents b.
Proof. unfold split_contents. now rewrite flat_map_app. Qed.

(** X25: short pages never reach the splitter, and the first failure
    stops the chunking.  In every world the contents [chunkDocuments] hands
    to the splitter all have 50 code units or more and are, in order, a
    front part of the contents of the documents that have that many: all of
    them when it returns; when it throws, the failure is that of the
    splitter on the last content handed over, with its message
    unchanged. *)
Theorem short_pages_are_not_chunked :
  forall world documents t,
  exists o calls,
    Indexing.chunkDocuments world documents t = (o, t ++ calls) /\
    Forall (fun content => 50 <= List.length content) (split_contents calls) /\
    (exists rest,
        split_contents calls ++ rest =
        map Indexing.doc_content (filter Indexing.long_enough documents) /\
        forall chunks, o = Returned chunks -> rest = []) /\
    (forall e,
        o = Thrown e ->
        exists before content meta,
          calls = before ++ [Indexing.CreateDocuments content meta] /\
          Indexing.createDocuments world (t ++ before) content meta
          = Thrown e).
Proof.
  intros world documents. induction documents as [|doc rest IH]; intro t.
  - exists (Returned []), []. cbn. unfold Io.ret. rewrite app_nil_r.
    split; [reflexivity|]. split; [constructor|].
    split; [exists []; auto | discriminate].
  - cbn [Indexing.chunkDocuments filter]. unfold Io.bind at 1.
    unfold Indexing.chunkDocument, Indexing.long_enough at 1.
    destruct (Nat.ltb (List.length (Indexing.doc_content doc)) 50) eqn:Hlen;
      cbn [negb].
    + unfold Io.ret at 1.
      destruct (IH t) as (o & calls & E & Hall & (r & Hr & Hret) & Hthrow).
      unfold Io.bind. rewrite E.
      destruct o as [chunks|e].
      * eexists. exists calls. unfold Io.ret.
        split; [reflexivity|]. split; [exact Hall|].
        split; [|discriminate].
        exists r. split; [exact Hr|]. intros ? _. now apply (Hret chunks).
      * eexists. exists calls.
        split; [reflexivity|]. split; [exact Hall|].
        split; [exists r; split; [exact Hr | discriminate]|].
        exact Hthrow.
    + apply Nat.ltb_ge in Hlen. unfold Io.call at 1.
      set (content := Indexing.doc_content doc).
      set (meta := Indexing.chunk_metadata (Indexing.id doc)
                     (Indexing.doc_url doc) (Indexing.doc_title doc)).
      destruct (Indexing.createDocuments world t content meta)
        as [chunks|e] eqn:Hsplit.
      * destruct (IH (t ++ [Indexing.CreateDocuments content meta]))
          as (o & calls & E & Hall & (r & Hr & Hret) & Hthrow).
        unfold Io.bind. rewrite E.
        exists (match o with
                | Returned all => Returned (chunks ++ all)
                | Thrown e => Thrown e
                end), (Indexing.CreateDocuments content meta :: calls).
        split; [destruct o; unfold Io.ret; rewrite <- app_assoc; reflexivity|].
        cbn [split_contents flat_map app]. fold (split_contents calls).
        split; [constructor; [exact Hlen | exact Hall]|].
        split.
        -- exists r. cbn [map]. fold content. rewrite <- Hr.
           split; [reflexivity|].
           intros all Ho. destruct o as [x|]; [|discriminate].
           now apply (Hret x).
        -- intros e Ho. destruct o as [|e']; [discriminate|].
           apply Thrown_inj in Ho. subst e'.
           destruct (Hthrow e eq_refl) as (before & c & m & -> & Hc).
           exists (Indexing.CreateDocuments content meta :: before), c, m.
           split; [reflexivity|].
           rewrite <- Hc. now rewrite <- app_assoc.
      * exists (Thrown e), [Indexing.CreateDocuments content meta].
        split; [reflexivity|].
        cbn [split_contents flat_map app].
        split; [constructor; [exact Hlen | constructor]|].
        split.
        -- eexists. cbn [map app]. fold content.
           split; [reflexivity | discriminate].
        -- intros e' He. apply Thrown_inj in He. subst e'.
           exists [], content, meta. rewrite app_nil_r. auto.
Qed.

(* ================================================================== *)
(** * The scraper: the text of a page *)
(* ================================================================== *)

Lemma space_is_space : is_space 32%N = true.
Proof. reflexivity. Qed.

Lemma trim_start_split (s : jsstring) :
  exists a, s = a ++ trim_start s /\ forallb is_space a = true.
Proof.
  induction s as [|c s (a & Ha & Hsp)]; [exists []; auto|].
  cbn [trim_start]. destruct (is_space c) eqn:Hc.
  - exists (c :: a). cbn [app forallb]. rewrite Hc, Hsp. split; [|reflexivity].
    now rewrite <- Ha.
  - exists []. auto.
Qed.

Lemma trim_start_head (s : jsstring) :
  match trim_start s with
  | c :: _ => is_space c = false
  | [] => True
  end.
Proof.
  induction s as [|c s IH]; [exact I|].
  cbn [trim_start]. destruct (is_space c) eqn:Hc; [exact IH | exact Hc].
Qed.

Lemma trim_start_fixed (s : jsstring) :
  match s with c :: _ => is_space c = false | [] => True end ->
  trim_start s = s.
Proof. destruct s as [|c s]; [reflexivity|]. cbn. now intros ->. Qed.

Lemma trim_start_all_spaces (s : jsstring) :
  forallb is_space s = true -> trim_start s = [].
Proof.
  induction s as [|c s IH]; [reflexivity|]. cbn.
  destruct (is_space c); [exact IH | discriminate].
Qed.

Lemma forallb_rev_spaces (b : jsstring) :
  forallb is_space b = true -> forallb is_space (rev b) = true.
Proof.
  intro H. apply forallb_forall. intros x Hx. apply in_rev in Hx.
  rewrite forallb_forall in H. now apply H.
Qed.

(** [trim] takes white space off both ends and leaves a text that does
    not start or end with white space. *)
Lemma trim_split (s : jsstring) :
  exists a b,
    s = a ++ trim s ++ b /\
    forallb is_space a = true /\ forallb is_space b = true /\
    trim_start (trim s) = trim s /\
    trim_start (rev (trim s)) = rev (trim s).
Proof.
  unfold trim.
  destruct (trim_start_split s) as (a & Ha & Hsa).
  set (s1 := trim_start s) in *.
  destruct (trim_start_split (rev s1)) as (b & Hb & Hsb).
  set (y := trim_start (rev s1)) in *.
  exists a, (rev b).
  assert (Hs1 : s1 = rev y ++ rev b).
  { rewrite <- rev_app_distr, <- Hb. now rewrite rev_involutive. }
  split; [now rewrite <- Hs1|]. split; [exact Hsa|].
  split; [now apply forallb_rev_spaces|].
  rewrite rev_involutive.
  split; [|apply trim_start_fixed; apply trim_start_head].
  apply trim_start_fixed.
  pose proof (trim_start_head s) as Hh. fold s1 in Hh.
  pose proof (trim_start_head (rev s1)) as Hy. fold y in Hy.
  destruct (rev y) as [|c r] eqn:Hry; [exact I|].
  rewrite Hs1 in Hh. cbn [app] in Hh. exact Hh.
Qed.

Lemma trim_trim (s : jsstring) :
  trim_start s = s -> trim_start (rev s) = rev s -> trim s = s.
Proof.
  intros H1 H2. unfold trim. rewrite H1, H2. apply rev_involutive.
Qed.

Lemma filter_spaces (a : jsstring) :
  forallb is_space a = true ->
  filter (fun c => negb (is_space c)) a = [].
Proof.
  induction a as [|c a IH]; [reflexivity|]. cbn.
  destruct (is_space c); cbn; [exact IH | discriminate].
Qed.

Lemma trim_visible (s : jsstring) :
  filter (fun c => negb (is_space c)) (trim s)
  = filter (fun c => negb (is_space c)) s.
Proof.
  destruct (trim_split s) as (a & b & Hs & Ha & Hb & _).
  rewrite Hs at 2. rewrite !filter_app, (filter_spaces a Ha),
    (filter_spaces b Hb). now rewrite app_nil_r.
Qed.

Lemma replace_spaces_visible (in_run : bool) (s : jsstring) :
  filter (fun c => negb (is_space c)) (Indexing.replace_spaces in_run s)
  = filter (fun c => negb (is_space c)) s.
Proof.
  revert in_run. induction s as [|c s IH]; intro in_run; [reflexivity|].
  cbn [Indexing.replace_spaces filter]. destruct (is_space c) eqn:Hc.
  - destruct in_run; cbn [filter negb]; rewrite ?space_is_space;
      cbn [negb]; apply IH.
  - cbn [filter]. rewrite Hc. cbn [negb]. now rewrite IH.
Qed.

Lemma replace_spaces_only_space (in_run : bool) (s : jsstring) :
  Forall (fun c => is_space c = true -> c = 32%N)
         (Indexing.replace_spaces in_run s).
Proof.
  revert in_run. induction s as [|c s IH]; intro in_run; [constructor|].
  cbn [Indexing.replace_spaces]. destruct (is_space c) eqn:Hc.
  - destruct in_run; [apply IH|]. constructor; [reflexivity | apply IH].
  - constructor; [congruence | apply IH].
Qed.

Lemma replace_spaces_run_head (s : jsstring) :
  match Indexing.replace_spaces true s with
  | c :: _ => is_space c = false
  | [] => True
  end.
Proof.
  induction s as [|c s IH]; [exact I|].
  cbn [Indexing.replace_spaces]. destruct (is_space c) eqn:Hc;
    [exact IH | exact Hc].
Qed.

Lemma replace_spaces_no_double (in_run : bool) (s : jsstring) :
  includes (Indexing.replace_spaces in_run s) (js "  ") = false.
Proof.
  revert in_run. induction s as [|c s IH]; intro in_run; [reflexivity|].
  cbn [Indexing.replace_spaces]. destruct (is_space c) eqn:Hc.
  - destruct in_run; [apply IH|].
    cbn [includes]. rewrite IH, orb_false_r.
    pose proof (replace_spaces_run_head s) as Hh.
    destruct (Indexing.replace_spaces true s) as [|c' r]; [reflexivity|].
    change (js "  ") with [32%N; 32%N]. cbn [starts_with].
    destruct (N.eqb_spec 32 c') as [<- | Hne]; [|reflexivity].
    rewrite space_is_space in Hh. discriminate.
  - cbn [includes]. rewrite IH, orb_false_r.
    change (js "  ") with [32%N; 32%N]. cbn [starts_with].
    destruct (N.eqb_spec 32 c) as [<- | Hne]; [|reflexivity].
    rewrite space_is_space in Hc. discriminate.
Qed.

Lemma starts_with_grows (p s b : jsstring) :
  starts_with p s = true -> starts_with p (s ++ b) = true.
Proof.
  revert s. induction p as [|x p IH]; intros s H; [reflexivity|].
  destruct s as [|y s]; [discriminate|]. cbn in *.
  apply andb_true_iff in H. destruct H as [-> H]. now rewrite IH.
Qed.

(** A text that does not include [p] has no piece that does. *)
Lemma includes_piece (a y b p : jsstring) :
  includes (a ++ y ++ b) p = false -> includes y p = false.
Proof.
  induction a as [|c a IH]; cbn [app].
  - revert b. induction y as [|c y IH]; intros b H.
    + cbn [app] in H. destruct p as [|x p]; [|reflexivity].
      destruct b; cbn in H; discriminate.
    + cbn [app includes] in *. apply orb_false_iff in H.
      destruct H as [H1 H2]. rewrite (IH b H2), orb_false_r.
      destruct (starts_with p (c :: y)) eqn:Hs; [|reflexivity].
      apply (starts_with_grows p (c :: y) b) in Hs. cbn [app] in Hs.
      congruence.
  - cbn [includes]. intro H. apply orb_false_iff in H. now apply IH.
Qed.

Lemma Forall_piece {A : Type} (P : A -> Prop) (a y b : list A) :
  Forall P (a ++ y ++ b) -> Forall P y.
Proof.
  intro H. apply Forall_app in H. destruct H as [_ H].
  apply Forall_app in H. tauto.
Qed.

(** A text whose only white space is single spaces is left as it is. *)
Lemma replace_spaces_fixed (s : jsstring) :
  Forall (fun c => is_space c = true -> c = 32%N) s ->
  includes s (js "  ") = false ->
  Indexing.replace_spaces false s = s /\
  (match s with c :: _ => is_space c = false | [] => True end ->
   Indexing.replace_spaces true s = s).
Proof.
  induction s as [|c s IH]; intros Hall Hinc; [auto|].
  inversion Hall as [|? ? Hc Hs]; subst.
  cbn [includes] in Hinc. apply orb_false_iff in Hinc.
  destruct Hinc as [Hst Hinc].
  destruct (IH Hs Hinc) as [IH1 IH2].
  cbn [Indexing.replace_spaces]. destruct (is_space c) eqn:Hsp.
  - rewrite (Hc eq_refl) in *. split; [|discriminate].
    f_equal. apply IH2.
    destruct s as [|c' s']; [exact I|].
    change (js "  ") with [32%N; 32%N] in Hst. cbn [starts_with] in Hst.
    rewrite N.eqb_refl in Hst. cbn in Hst. rewrite andb_true_r in Hst.
    destruct (is_space c') eqn:Hc'; [|reflexivity].
    inversion Hs as [|? ? Hc'' _]; subst. rewrite (Hc'' Hc') in Hst.
    discriminate.
  - split; [now rewrite IH1 | intros _; now rewrite IH1].
Qed.

(** X26: the text kept of a page is normalised.  Whatever text is
    extracted from the page, [parseHtml] returns it with the same visible
    characters in the same order, with no white space other than the space
    character, never two spaces in a row and none at either end; cleaning
    such a text again changes nothing. *)
Theorem scraped_text_is_normalised :
  forall main_text html,
    let text := main_text html in
    let clean := Indexing.parseHtml main_text html in
    filter (fun c => negb (is_space c)) clean
    = filter (fun c => negb (is_space c)) text /\
    Forall (fun c => is_space c = true -> c = 32%N) clean /\
    includes clean (js "  ") = false /\
    trim clean = clean /\
    Indexing.parseHtml (fun x => x) clean = clean.
Proof.
  intros main_text html text clean.
  unfold clean, Indexing.parseHtml. fold text.
  set (r := Indexing.replace_spaces false text).
  destruct (trim_split r) as (a & b & Hr & Ha & Hb & H1 & H2).
  assert (Hall : Forall (fun c => is_space c = true -> c = 32%N) (trim r)).
  { apply (Forall_piece _ a (trim r) b). rewrite <- Hr.
    apply replace_spaces_only_space. }
  assert (Hinc : includes (trim r) (js "  ") = false).
  { apply (includes_piece a (trim r) b). rewrite <- Hr.
    apply replace_spaces_no_double. }
  assert (Hfix : trim (trim r) = trim r) by now apply trim_trim.
  split; [unfold r; now rewrite trim_visible, replace_spaces_visible|].
  split; [exact Hall|]. split; [exact Hinc|]. split; [exact Hfix|].
  destruct (replace_spaces_fixed (trim r) Hall Hinc) as [-> _]. exact Hfix.
Qed.

(* ================================================================== *)
(** * The scraper: the page limit *)
(* ================================================================== *)

Lemma truncate_Z (k : Z) : truncate (inject_Z k) = k.
Proof.
  unfold truncate. destruct (Qle_bool 0 (inject_Z k));
    [apply Qfloor_Z | apply Qceiling_Z].
Qed.

Lemma num_gtb_Z (a b : Z) :
  num_gtb (num_of_Z a) (num_of_Z b) = (b <? a)%Z.
Proof.
  unfold num_gtb, num_of_Z, num_leb.
  destruct (Z.ltb_spec b a) as [H | H].
  - assert (H1 : Qle_bool (inject_Z b) (inject_Z a) = true)
      by (apply Qle_bool_iff; rewrite <- Zle_Qle; lia).
    assert (H2 : Qle_bool (inject_Z a) (inject_Z b) = false).
    { destruct (Qle_bool (inject_Z a) (inject_Z b)) eqn:E; [|reflexivity].
      apply Qle_bool_iff in E. rewrite <- Zle_Qle in E. lia. }
    now rewrite H1, H2.
  - assert (H2 : Qle_bool (inject_Z a) (inject_Z b) = true)
      by (apply Qle_bool_iff; rewrite <- Zle_Qle; lia).
    rewrite H2. cbn. apply andb_false_r.
Qed.

Lemma slice_to_count {A : Type} (k : Z) (a : list A) :
  (0 <= k)%Z -> slice_to (num_of_Z k) a = firstn (Z.to_nat k) a.
Proof.
  intro Hk. unfold slice_to, num_of_Z. rewrite truncate_Z.
  destruct (Z.ltb_spec k 0) as [H | _]; [lia|].
  rewrite <- (firstn_min_length (Z.to_nat k) a). f_equal. lia.
Qed.

Lemma slice_to_negative {A : Type} (k : Z) (a : list A) :
  (k < 0)%Z ->
  slice_to (num_of_Z k) a = firstn (List.length a - Z.to_nat (- k)) a.
Proof.
  intro Hk. unfold slice_to, num_of_Z. rewrite truncate_Z.
  destruct (Z.ltb_spec k 0) as [_ | H]; [|lia]. f_equal. lia.
Qed.

(** The sitemap scraper, when the loader returns. *)
Lemma load_pages_run (world : Indexing.World) (sitemapUrl : jsstring)
      (maxPages : number) (t : list Indexing.Call) (docs : list Indexing.Page) :
  Indexing.loader_load world t sitemapUrl = Returned docs ->
  Indexing.loadPagesFromSitemap world sitemapUrl maxPages t =
  (Returned
     (if num_gtb (num_of_Z (Z.of_nat (List.length docs))) maxPages
      then slice_to maxPages docs else docs),
   t ++ [Indexing.LoaderLoad sitemapUrl]).
Proof.
  intro Hload.
  unfold Indexing.loadPagesFromSitemap, Io.try_catch, Io.bind, Io.call.
  rewrite Hload.
  destruct (num_gtb (num_of_Z (Z.of_nat (List.length docs))) maxPages);
    reflexivity.
Qed.

(** X27: the page limit of the sitemap scraper.  When the loader returns
    pages, [loadPagesFromSitemap] returns a front part of them after that
    one call: the first k pages for a limit k that is a natural number, all
    the pages when the limit is NaN (a MAX_PAGES setting that is not a
    number), and all but the last k pages for the limit -k. *)
Theorem sitemap_page_limit :
  forall world sitemapUrl maxPages t docs,
    Indexing.loader_load world t sitemapUrl = Returned docs ->
    exists pages,
      Indexing.loadPagesFromSitemap world sitemapUrl maxPages t
      = (Returned pages, t ++ [Indexing.LoaderLoad sitemapUrl]) /\
      (exists rest, pages ++ rest = docs) /\
      (maxPages = NaN -> pages = docs) /\
      (forall k, (0 <= k)%Z -> maxPages = num_of_Z k ->
                 pages = firstn (Z.to_nat k) docs) /\
      (forall k, (k < 0)%Z -> maxPages = num_of_Z k ->
                 pages = firstn (List.length docs - Z.to_nat (- k)) docs).
Proof.
  intros world sitemapUrl maxPages t docs Hload.
  eexists.
  split; [apply (load_pages_run world sitemapUrl maxPages t docs Hload)|].
  destruct (num_gtb (num_of_Z (Z.of_nat (List.length docs))) maxPages)
    eqn:Hgt.
  - split; [|split; [|split]].
    + destruct maxPages as [| | q |]; cbn [slice_to].
      * exists docs. reflexivity.
      * exists docs. reflexivity.
      * destruct (truncate q <? 0)%Z;
          eexists; apply firstn_skipn.
      * exists []. apply app_nil_r.
    + intros ->. discriminate.
    + intros k Hk ->. now apply slice_to_count.
    + intros k Hk ->. now apply slice_to_negative.
  - split; [exists []; apply app_nil_r|]. split; [reflexivity|]. split.
    + intros k Hk ->. rewrite num_gtb_Z in Hgt.
      apply Z.ltb_ge in Hgt. symmetry. apply firstn_all2. lia.
    + intros k Hk ->. rewrite num_gtb_Z in Hgt.
      apply Z.ltb_ge in Hgt. lia.
Qed.

Lemma sitemap_page_limit_witness :
  exists pages,
    Indexing.loadPagesFromSitemap smooth_indexing Indexing.SITEMAP_URL
                                  (num_of_Z 1) []
    = (Returned pages, [] ++ [Indexing.LoaderLoad Indexing.SITEMAP_URL]) /\
    List.length pages = 1.
Proof.
  destruct (sitemap_page_limit smooth_indexing Indexing.SITEMAP_URL
              (num_of_Z 1) [] _ eq_refl)
    as (pages & E & _ & _ & Hk & _).
  exists pages. split; [exact E|].
  rewrite (Hk 1%Z); [reflexivity | lia | reflexivity].
Defined.

Lemma loaded_urls_map (urls : list jsstring) :
  loaded_urls (map Indexing.PlaywrightLoad urls) = urls.
Proof.
  induction urls as [|u urls IH]; [reflexivity|].
  cbn [map loaded_urls flat_map app]. f_equal. exact IH.
Qed.

(** The scraping loop tries every URL once, in order, and returns. *)
Lemma scrape_all_calls (world : Indexing.World) (urls : list jsstring)
      (t : list Indexing.Call) :
  exists pages,
    Indexing.Playwright.scrape_all world urls t
    = (Returned pages, t ++ map Indexing.PlaywrightLoad urls) /\
    ((forall t' url, exists e,
         Indexing.playwright_load world t' url = Thrown e) ->
     pages = []).
Proof.
  revert t. induction urls as [|url urls IH]; intro t.
  - exists []. cbn. unfold Io.ret. rewrite app_nil_r. auto.
  - cbn [Indexing.Playwright.scrape_all map]. unfold Io.bind at 1.
    unfold Indexing.Playwright.scrape_url, Io.try_catch, Io.call.
    destruct (IH (t ++ [Indexing.PlaywrightLoad url])) as (rest & E & Hnone).
    destruct (Indexing.playwright_load world t url) as [pageDocs|e] eqn:Hl.
    + exists (pageDocs ++ rest). unfold Io.bind. rewrite E. unfold Io.ret.
      rewrite <- app_assoc. split; [reflexivity|].
      intro Hfail. destruct (Hfail t url) as (e & He). congruence.
    + exists rest. unfold Io.ret at 1. unfold Io.bind. rewrite E.
      unfold Io.ret. rewrite <- app_assoc. split; [reflexivity|].
      intro Hfail. cbn [app]. now apply Hnone.
Qed.

(** X28: the Playwright scraper skips failed pages, and a limit that is
    not a number scrapes nothing.  When the sitemap is read, the scraper
    returns after trying each of the URLs within the limit exactly once, in
    order, whatever fails on the way: the first k URLs for a limit k that
    is a natural number, and no URL at all when the limit is NaN, in which
    case it returns no page. *)
Theorem playwright_skips_failed_pages :
  forall world sitemapUrl maxPages t urls,
    Indexing.sitemap_urls world t sitemapUrl = Returned urls ->
    exists pages calls,
      Indexing.Playwright.loadPagesFromSitemap world sitemapUrl maxPages t
      = (Returned pages, t ++ Indexing.AxiosGet sitemapUrl :: calls) /\
      calls = map Indexing.PlaywrightLoad (loaded_urls calls) /\
      (forall k, (0 <= k)%Z -> maxPages = num_of_Z k ->
                 loaded_urls calls = firstn (Z.to_nat k) urls) /\
      (maxPages = NaN -> calls = [] /\ pages = []).
Proof.
  intros world sitemapUrl maxPages t urls Hurls.
  unfold Indexing.Playwright.loadPagesFromSitemap, Io.try_catch, Io.bind, Io.call.
  rewrite Hurls.
  destruct (scrape_all_calls world (slice_to maxPages urls)
              (t ++ [Indexing.AxiosGet sitemapUrl])) as (pages & E & _).
  rewrite E. exists pages. eexists.
  rewrite <- app_assoc. split; [reflexivity|].
  rewrite loaded_urls_map. split; [reflexivity|]. split.
  - intros k Hk ->. now apply slice_to_count.
  - intros ->. cbn [slice_to map]. split; [reflexivity|].
    cbn [slice_to Indexing.Playwright.scrape_all] in E. unfold Io.ret in E.
    congruence.
Qed.

Lemma playwright_skips_failed_pages_witness :
  exists pages calls,
    Indexing.Playwright.loadPagesFromSitemap smooth_indexing Indexing.SITEMAP_URL
                                     (num_of_Z 5) []
    = (Returned pages, [] ++ Indexing.AxiosGet Indexing.SITEMAP_URL :: calls) /\
    loaded_urls calls
    = [js "https://botpress.com/a"; js "https://botpress.com/b"].
Proof.
  destruct (playwright_skips_failed_pages smooth_indexing
              Indexing.SITEMAP_URL (num_of_Z 5) [] _ eq_refl)
    as (pages & calls & E & _ & Hk & _).
  exists pages, calls. split; [exact E|].
  rewrite (Hk 5%Z); [reflexivity | lia | reflexivity].
Defined.

(* ================================================================== *)
(** * The indexing script *)
(* ================================================================== *)

Lemma chunkDocuments_pure (world : Indexing.World)
      (split : jsstring -> Indexing.ChunkMetadata -> list Document)
      (documents : list Indexing.DocumentToChunk) (t : list Indexing.Call) :
  (forall t' content meta,
      Indexing.createDocuments world t' content meta
      = Returned (split content meta)) ->
  Indexing.chunkDocuments world documents t =
  (Returned
     (flat_map (fun d => split (Indexing.doc_content d) (Indexing.metadata_of d))
               (filter Indexing.long_enough documents)),
   t ++ map (fun d => Indexing.CreateDocuments (Indexing.doc_content d)
                                               (Indexing.metadata_of d))
            (filter Indexing.long_enough documents)).
Proof.
  intro Hsplit. revert t.
  induction documents as [|doc rest IH]; intro t.
  - cbn. unfold Io.ret. now rewrite app_nil_r.
  - cbn [Indexing.chunkDocuments filter]. unfold Io.bind at 1.
    assert (Hl : Nat.ltb (List.length (Indexing.doc_content doc)) 50
                 = negb (Indexing.long_enough doc))
      by (unfold Indexing.long_enough; now rewrite negb_involutive).
    unfold Indexing.chunkDocument. rewrite Hl.
    destruct (Indexing.long_enough doc); cbn [negb].
    + unfold Io.call at 1. rewrite Hsplit. unfold Io.bind. rewrite IH.
      unfold Io.ret. cbn [flat_map map]. rewrite <- app_assoc.
      reflexivity.
    + unfold Io.ret at 1. unfold Io.bind. rewrite IH. reflexivity.
Qed.

Lemma split_contents_created (documents : list Indexing.DocumentToChunk) :
  split_contents
    (map (fun d => Indexing.CreateDocuments (Indexing.doc_content d)
                                            (Indexing.metadata_of d))
         documents)
  = map Indexing.doc_content documents.
Proof.
  induction documents as [|d ds IH]; [reflexivity|].
  cbn [map split_contents flat_map app]. f_equal. exact IH.
Qed.

Lemma stored_batches_created (documents : list Indexing.DocumentToChunk) :
  stored_batches
    (map (fun d => Indexing.CreateDocuments (Indexing.doc_content d)
                                            (Indexing.metadata_of d))
         documents)
  = [].
Proof.
  induction documents as [|d ds IH]; [reflexivity|].
  cbn [map stored_batches flat_map app]. exact IH.
Qed.

Lemma split_contents_stored (batches : list (list Document)) :
  split_contents (map Indexing.AddDocuments batches) = [].
Proof.
  induction batches as [|b bs IH]; [reflexivity|].
  cbn [map split_contents flat_map app]. exact IH.
Qed.

Lemma stored_batches_app (a b : list Indexing.Call) :
  stored_batches (a ++ b) = stored_batches a ++ stored_batches b.
Proof. unfold stored_batches. now rewrite flat_map_app. Qed.

(** X29: what an indexing run stores.  With MAX_PAGES unset, at most 500
    pages loaded, a splitter that returns, an embeddings object, the
    Supabase settings and a store that accepts every batch, [indexBotpress] returns; it hands
    the splitter the contents of the pages of 50 code units or more, in
    order, and the store batches of at most 100 documents which, joined in
    order, are the chunks of those pages.  With no page loaded it makes no
    further call. *)
Theorem indexing_stores_the_chunks_of_long_pages :
  forall world t pages split,
    let url := nullish (Indexing.SUPABASE_URL world) [] in
    let key := nullish (Indexing.SUPABASE_API_KEY world) [] in
    Indexing.MAX_PAGES world = None ->
    Indexing.loader_load world t Indexing.SITEMAP_URL = Returned pages ->
    List.length pages <= 500 ->
    (forall t' content meta,
        Indexing.createDocuments world t' content meta
        = Returned (split content meta)) ->
    Indexing.new_embeddings world = Returned tt ->
    truthy url = true -> truthy key = true ->
    (forall t', Indexing.createClient world t' url key = Returned tt) ->
    (forall t' batch,
        Indexing.store_addDocuments world t' batch = Returned tt) ->
    let documents :=
      filter Indexing.long_enough (map (Indexing.to_chunk) pages) in
    let chunks :=
      flat_map (fun d => split (Indexing.doc_content d)
                               (Indexing.metadata_of d)) documents in
    exists calls,
      Indexing.indexBotpress world t
      = (Returned tt, t ++ Indexing.LoaderLoad Indexing.SITEMAP_URL :: calls) /\
      split_contents calls = map Indexing.doc_content documents /\
      concat (stored_batches calls) = chunks /\
      Forall (fun batch => 1 <= List.length batch <= 100)
             (stored_batches calls) /\
      (pages = [] -> calls = []).
Proof.
  intros world t pages split url key Hmax Hload Hlen Hsplit Hemb Hurl Hkey
         Hclient Hstore documents chunks.
  unfold Indexing.indexBotpress. unfold Io.bind at 1.
  assert (Hdefault : Indexing.maxPages_default world = num_of_Z 500).
  { unfold Indexing.maxPages_default. rewrite Hmax. reflexivity. }
  rewrite (load_pages_run world Indexing.SITEMAP_URL _ t pages Hload).
  assert (Hloaded :
            (if num_gtb (num_of_Z (Z.of_nat (List.length pages)))
                        (Indexing.maxPages_default world)
             then slice_to (Indexing.maxPages_default world) pages
             else pages) = pages).
  { destruct (num_gtb _ _); [|reflexivity].
    rewrite Hdefault, slice_to_count by lia.
    apply firstn_all2. lia. }
  rewrite Hloaded.
  destruct (Nat.eqb (List.length pages) 0) eqn:Hne.
  { apply Nat.eqb_eq, length_zero_iff_nil in Hne.
    exists []. unfold Io.ret. split; [reflexivity|].
    unfold chunks, documents. rewrite Hne. cbn. repeat split; auto. }
  unfold Io.bind.
  rewrite (chunkDocuments_pure world split) by exact Hsplit.
  fold documents. fold chunks.
  rewrite (addDocuments_run world chunks _ Hemb Hurl Hkey (Hclient _) Hstore).
  destruct (batches_partition chunks) as [Hc Hall]. cbv zeta in Hc, Hall.
  set (batches := map (Indexing.batch_at chunks)
                      (List.seq 0 (Indexing.ceil_div (List.length chunks)
                                                     Indexing.BATCH_SIZE)))
    in *.
  eexists. rewrite <- !app_assoc. cbn [app].
  split; [reflexivity|].
  rewrite split_contents_app, stored_batches_app, split_contents_created,
    stored_batches_created.
  cbn [split_contents stored_batches flat_map app].
  fold (split_contents (map Indexing.AddDocuments batches)).
  fold (stored_batches (map Indexing.AddDocuments batches)).
  rewrite split_contents_stored, stored_batches_map, app_nil_r.
  repeat split; auto. intro H. rewrite H in Hne. discriminate.
Qed.

Lemma indexing_stores_the_chunks_of_long_pages_witness :
  exists calls,
    Indexing.indexBotpress smooth_indexing []
    = (Returned tt, [] ++ Indexing.LoaderLoad Indexing.SITEMAP_URL :: calls) /\
    split_contents calls = [repeat 97%N 60] /\
    List.length (concat (stored_batches calls)) = 2.
Proof.
  destruct (indexing_stores_the_chunks_of_long_pages
              smooth_indexing [] _
              (fun content meta =>
                 map (fun piece =>
                        {| pageContent := piece;
                           metadata :=
                             {| title := Indexing.meta_title meta;
                                url := None;
                                source := Some (Indexing.meta_source meta) |} |})
                     [firstn 30 content; skipn 30 content])
              eq_refl eq_refl)
    as (calls & E & Hs & Hc & _);
    try reflexivity; try (intros; reflexivity); try (cbn; lia).
  exists calls. split; [exact E|]. split; [exact Hs|].
  rewrite Hc. reflexivity.
Defined.
